(** * node-tags-finder: the tag counting engine, the bulk loader and
      the command line

    A shallow embedding of [tagsfinder.js] (class [TagsFinder]), of
    [dataloader.js] (class [DataLoader]) and of the application that
    reads tags from the command line, with the properties of the
    specification stated and settled on the embedded code, and further
    properties of the code after them.

    The definitions come first:
    - Module [JS] holds what the two classes take from the JavaScript
      runtime: JSON values, [typeof], [String.prototype.indexOf], the
      members of [Object.prototype], and [Array.prototype.sort] by its
      contract, with two sorts that meet it.
    - Module [TagsFinder] embeds [setData], [process] and
      [_processObject], followed by the notions the statements about
      them use.
    - Module [DataLoader] embeds the constructor, the ['fileprocessed']
      listener and [loadFiles] as a transition system over the callbacks
      the event loop may run, followed by the notions the statements
      about it use.
    - Module [Application] embeds [sanitizeTags], [processInputTags],
      [prompt] and the listeners of the command line, with [trim],
      [split] and [Set] as they use them.

    The facts follow: [JSFacts] (the runtime), [Traversal] (what
    [_processObject] computes), [Engine] (what [process] returns and
    stores), [TagsFinderSpec] and [DataLoaderSpec] (the specification),
    then [EngineLaws], [LoaderLaws] and [ApplicationLaws] (what else the
    code guarantees). *)

From Stdlib Require Import ZArith List String Ascii Bool Permutation Lia.
From stdpp Require Import gmap strings list fin_maps sorting.

Open Scope string_scope.
Open Scope list_scope.
Open Scope nat_scope.

(* ===================================================================== *)
(** ** What the code takes from the JavaScript runtime *)
(* ===================================================================== *)

Module JS.

(** A parsed JSON document, as [JSON.parse] returns it, plus [undefined]
    (which [setData] may be handed).  The properties of an object are
    listed in the order [for (key in obj)] enumerates them; the payload
    of a number is never inspected by the code.  A string is the
    sequence of its code units, one [ascii] standing for each. *)
#[local] Unset Elimination Schemes.
Inductive value : Type :=
| JUndefined
| JNull
| JBool (b : bool)
| JNumber (n : Z)
| JString (s : string)
| JArray (items : list value)
| JObject (props : list (string * value)).
#[local] Set Elimination Schemes.

(** The results of [typeof] that the code tells apart. *)
Inductive type_tag := TUndefined | TObject | TBoolean | TNumber | TString.

Definition typeof (v : value) : type_tag :=
  match v with
  | JUndefined => TUndefined
  | JNull => TObject              (* typeof null === 'object' *)
  | JBool _ => TBoolean
  | JNumber _ => TNumber
  | JString _ => TString
  | JArray _ => TObject           (* typeof [] === 'object' *)
  | JObject _ => TObject
  end.

Definition is_object_type (v : value) : bool :=
  match typeof v with TObject => true | _ => false end.

Definition is_string_type (v : value) : bool :=
  match typeof v with TString => true | _ => false end.

(** [Array.isArray] *)
Definition isArray (v : value) : bool :=
  match v with JArray _ => true | _ => false end.

(** [tag] is a prefix of [s]. *)
Fixpoint starts_with (tag s : string) : bool :=
  match tag, s with
  | EmptyString, _ => true
  | String a tag', String b s' => Ascii.eqb a b && starts_with tag' s'
  | String _ _, EmptyString => false
  end.

(** [s.indexOf(tag)]: the least position at which [tag] starts in [s],
    [-1] when there is none.  [from] is the position of [s] in the
    string the search began in. *)
Fixpoint indexOf_from (from : Z) (s tag : string) : Z :=
  if starts_with tag s then from
  else match s with
       | EmptyString => (-1)%Z
       | String _ s' => indexOf_from (from + 1) s' tag
       end.

Definition indexOf (s tag : string) : Z := indexOf_from 0 s tag.

(** The test of the source, [s.indexOf(tag) > -1]. *)
Definition contains (s tag : string) : bool := (-1 <? indexOf s tag)%Z.

(** The number of positions of [s] at which [tag] starts. *)
Fixpoint occurrences (tag s : string) : nat :=
  (if starts_with tag s then 1 else 0) +
  match s with
  | EmptyString => 0
  | String _ s' => occurrences tag s'
  end.

(** The characters of a string, each as a one-character string: what
    [s[key]] yields while [for (key in s)] runs over the indices of a
    string [s]. *)
Fixpoint chars (s : string) : list string :=
  match s with
  | EmptyString => []
  | String c s' => String c EmptyString :: chars s'
  end.

(** The names every plain object inherits from [Object.prototype]
    (ECMAScript 19.1.3 and Annex B.2.2).  [({})[name]] is a function for
    each of them, and the prototype object itself for ["__proto__"]; all
    are truthy and none is a number. *)
Definition Object_prototype : list string :=
  [ "constructor"; "hasOwnProperty"; "isPrototypeOf"; "propertyIsEnumerable";
    "toLocaleString"; "toString"; "valueOf";
    "__defineGetter__"; "__defineSetter__"; "__lookupGetter__";
    "__lookupSetter__"; "__proto__" ].

Definition inherited (name : string) : bool :=
  bool_decide (name ∈ Object_prototype).

(** What the [count] field of a result can hold: a number, or the member
    of [Object.prototype] that a lookup in a plain object fell through
    to. *)
Inductive count_value : Type :=
| Num (n : nat)
| Proto (name : string).

(** The string a member of [Object.prototype] converts to when [<]
    compares it (V8's rendering of a built-in function). *)
Definition member_text (name : string) : string :=
  if String.eqb name "__proto__" then "[object Object]"
  else if String.eqb name "constructor" then "function Object() { [native code] }"
  else String.append "function " (String.append name "() { [native code] }").

(** [a < b] on two [count] fields.  Two numbers compare as numbers.  A
    member of [Object.prototype] converts to a string: against a number
    that string converts to NaN and the comparison is false; two such
    strings compare as strings. *)
Definition js_lt (a b : count_value) : bool :=
  match a, b with
  | Num x, Num y => Nat.ltb x y
  | Proto n, Proto m => String.ltb (member_text n) (member_text m)
  | _, _ => false
  end.

(** The truth value of a looked-up property. *)
Definition truthy (v : option count_value) : bool :=
  match v with
  | None => false                 (* undefined *)
  | Some (Num n) => negb (Nat.eqb n 0)
  | Some (Proto _) => true
  end.

(** [obj[name]] on a plain object ([{}]) whose own properties are [own]:
    the own property when there is one, else what [Object.prototype]
    gives. *)
Definition get (own : gmap string nat) (name : string) : option count_value :=
  match own !! name with
  | Some n => Some (Num n)
  | None => if inherited name then Some (Proto name) else None
  end.

(** *** [Array.prototype.sort]

    ECMAScript 22.1.3.25.  The comparator's result goes through
    [ToNumber]; the sorted array is a permutation of the old one, and
    when the comparator is a consistent comparison function for the
    elements, no element is placed after one it compares below.  For any
    other comparator the order is implementation-defined. *)

Section Comparators.
Context {A : Type} (cmp : A → A → Z).

Definition eqCF (a b : A) : Prop := (cmp a b = 0)%Z.
Definition ltCF (a b : A) : Prop := (cmp a b < 0)%Z.
Definition gtCF (a b : A) : Prop := (cmp a b > 0)%Z.

(** A consistent comparison function for the values in [S]. *)
Record consistent (S : list A) : Prop := {
  cf_refl : ∀ a, a ∈ S → eqCF a a;
  cf_sym : ∀ a b, a ∈ S → b ∈ S → eqCF a b → eqCF b a;
  cf_eq_trans : ∀ a b c, a ∈ S → b ∈ S → c ∈ S → eqCF a b → eqCF b c → eqCF a c;
  cf_lt_trans : ∀ a b c, a ∈ S → b ∈ S → c ∈ S → ltCF a b → ltCF b c → ltCF a c;
  cf_gt_trans : ∀ a b c, a ∈ S → b ∈ S → c ∈ S → gtCF a b → gtCF b c → gtCF a c
}.

(** No element stands after one it compares below. *)
Inductive ordered : list A → Prop :=
| ordered_nil : ordered []
| ordered_cons a l :
    Forall (fun b => ¬ ltCF b a) l → ordered l → ordered (a :: l).
End Comparators.

Class ArraySort := {
  sort : ∀ {A : Type}, (A → A → Z) → list A → list A;
  sort_permutation : ∀ {A : Type} (cmp : A → A → Z) (l : list A),
      sort cmp l ≡ₚ l;
  sort_ordered : ∀ {A : Type} (cmp : A → A → Z) (l : list A),
      consistent cmp l → ordered cmp (sort cmp l)
}.

(** A sort that meets the contract: each element in turn is put before
    the first element of the sorted part that it compares below, and at
    the end when there is none.  Like the binary insertion of V8's
    TimSort (Node 11 and later) it only ever asks whether the
    comparator's result is negative. *)
Section Insertion.
Context {A : Type} (cmp : A → A → Z).

Fixpoint insert_before (x : A) (l : list A) : list A :=
  match l with
  | [] => [x]
  | y :: l' =>
      if (cmp x y <? 0)%Z then x :: y :: l' else y :: insert_before x l'
  end.

Definition insertion_sort (l : list A) : list A :=
  fold_left (fun sorted x => insert_before x sorted) l [].
End Insertion.

(** Another sort that meets the contract: each element in turn moves
    left past the elements of the sorted part that compare above it (the
    comparator's result is positive), as the insertion sort that V8 used
    for arrays of up to ten elements did (up to Node 10).  [sorted] is
    the sorted part, last element first. *)
Section Shifting.
Context {A : Type} (cmp : A → A → Z).

Fixpoint shift_in (x : A) (sorted : list A) : list A :=
  match sorted with
  | [] => [x]
  | tmp :: sorted' =>
      if (0 <? cmp tmp x)%Z then tmp :: shift_in x sorted' else x :: sorted
  end.

Definition shifting_sort (l : list A) : list A :=
  rev (fold_left (fun sorted x => shift_in x sorted) l []).

(** The sorted part, last element first: no element compares above one that
    stands after it in the array. *)
Definition settled (r : list A) : Prop :=
  StronglySorted (fun later earlier => ¬ gtCF cmp earlier later) r.
End Shifting.


(** [ToBoolean] on JSON values. *)
Definition to_boolean (v : value) : bool :=
  match v with
  | JUndefined | JNull => false
  | JBool b => b
  | JNumber n => negb (n =? 0)%Z
  | JString s => negb (String.eqb s "")
  | JArray _ | JObject _ => true
  end.

End JS.

(* ===================================================================== *)
(** ** tagsfinder.js *)
(* ===================================================================== *)

Module TagsFinder.
Import JS.

(** All functions are synchronous.  A count is a natural number (the
    code only ever adds 1 to 0), and the call stack is taken to be as
    deep as the documents, as the source assumes. *)

(** The errors a call can end in.  The first two are the [Error]s the
    class throws itself; the third is the runtime's, raised by
    [obj.hasOwnProperty(key)] when a document's object has a property of
    its own called [hasOwnProperty] (no JSON value is callable). *)
Inductive error :=
| Invalid_data            (* 'TagsFinder invalid data object' *)
| Process_without_data    (* 'TagsFinder process called without data set' *)
| TypeError_not_a_function.

Inductive result (A : Type) :=
| Ok (a : A)
| Throw (e : error).
Arguments Ok {A} a.
Arguments Throw {A} e.

(** Sequencing that an exception cuts short, under stdpp's
    [x ← r; k]. *)
#[global] Instance result_bind : MBind result := λ A B k r,
  match r with
  | Ok a => k a
  | Throw e => Throw e
  end.

(** The object a traversal fills in ([results], the [tmpResults] of
    [process]), with two meters that the source does not have: how many
    times [_processObject] was entered and how many times [indexOf] was
    evaluated. *)
Record scan := {
  results : gmap string nat;
  calls : nat;
  tests : nat
}.

Definition entered (st : scan) : scan :=
  {| results := results st; calls := S (calls st); tests := tests st |}.

(** One turn of [for (const tag of tags)] on a string [s]:
    [if (s.indexOf(tag) > -1) results[tag] += 1].  [process] only passes
    tags that are keys of [results] (lemma [partition_keys]); on a
    missing key JavaScript would store NaN, which the model leaves
    unset. *)
Definition test_tag (s : string) (st : scan) (tag : string) : scan :=
  {| results := if contains s tag then alter S tag (results st) else results st;
     calls := calls st;
     tests := S (tests st) |}.

(** The branch [typeof obj[key] === 'string']. *)
Definition string_leaf (tags : list string) (s : string) (st : scan) : scan :=
  fold_left (test_tag s) tags st.

Section Loops.
Context {A : Type} (body : A → scan → result scan).

(** A loop over [l] that an exception in [body] leaves. *)
Fixpoint for_each (l : list A) (st : scan) : result scan :=
  match l with
  | [] => Ok st
  | x :: l' => st' ← body x st; for_each l' st'
  end.
End Loops.

(** [obj.hasOwnProperty(key)], for an object with the properties
    [props] and a key of its own: [true], unless [hasOwnProperty] is
    itself one of the properties, whose value cannot be called. *)
Definition hasOwnProperty (props : list (string * value)) : result bool :=
  if existsb (fun kv => String.eqb (fst kv) "hasOwnProperty") props
  then Throw TypeError_not_a_function
  else Ok true.

Fixpoint _processObject (tags : list string) (obj : value) (st : scan)
  {struct obj} : result scan :=
  let visit := fun (v : value) (st : scan) =>
    if is_object_type v then _processObject tags v st
    else if isArray v then
      match v with
      | JArray children => for_each (_processObject tags) children st
      | _ => Ok st
      end
    else if is_string_type v then
      match v with
      | JString s => Ok (string_leaf tags s st)
      | _ => Ok st
      end
    else Ok st in
  match obj with
  | JObject props =>
      for_each (fun (kv : string * value) (st : scan) =>
                  hasOwnProperty props ≫= λ own : bool,
                  if own then visit (snd kv) st else Ok st)
               props (entered st)
  | JArray items => for_each visit items (entered st)
  | JString s => for_each (fun (c : string) (st : scan) => Ok (string_leaf tags c st)) (chars s) (entered st)
  | JUndefined | JNull | JBool _ | JNumber _ => Ok (entered st)
  end.

(** *** The engine *)

(** [this.data] is [None] until [setData] has stored an array (it stores
    nothing else), then the documents of that array; [this.cache] is a
    plain object used as a map from tag to count. *)
Record engine := {
  data : option (list value);
  cache : gmap string nat
}.

Definition constructor : engine := {| data := None; cache := ∅ |}.

(** What a call leaves: what it returned or threw, and the engine after
    it. *)
Record outcome (A : Type) := {
  ret : result A;
  after : engine
}.
Arguments ret {A} _.
Arguments after {A} _.

Definition setData (arg : value) (e : engine) : outcome unit :=
  if negb (to_boolean arg) || negb (isArray arg) then
    {| ret := Throw Invalid_data; after := e |}
  else
    match arg with
    | JArray docs =>
        {| ret := Ok (); after := {| data := Some docs; cache := cache e |} |}
    | _ => {| ret := Throw Invalid_data; after := e |}
    end.

(** One element of the array [process] returns. *)
Record entry := {
  tag : string;
  count : count_value
}.

(** The three locals of [process] that its first loop fills. *)
Record lookup := {
  found : list entry;             (* results *)
  tagsToProcess : list string;
  tmpResults : gmap string nat
}.

Definition lookup_tag (c : gmap string nat) (l : lookup) (t : string) : lookup :=
  match get c t with
  | Some v =>
      if truthy (Some v) then
        {| found := found l ++ [ {| tag := t; count := v |} ];
           tagsToProcess := tagsToProcess l;
           tmpResults := tmpResults l |}
      else
        {| found := found l;
           tagsToProcess := tagsToProcess l ++ [t];
           tmpResults := <[t := 0]> (tmpResults l) |}
  | None =>
      {| found := found l;
         tagsToProcess := tagsToProcess l ++ [t];
         tmpResults := <[t := 0]> (tmpResults l) |}
  end.

(** [for (const tag of tags) if (this.cache[tag]) ... else ...] *)
Definition look_up (tags : list string) (c : gmap string nat) : lookup :=
  fold_left (lookup_tag c) tags
    {| found := []; tagsToProcess := []; tmpResults := ∅ |}.

(** [for (const obj of this.data) this._processObject(tagsToProcess, obj,
    tmpResults)], with the meters at zero. *)
Definition traverse (docs : list value) (l : lookup) : result scan :=
  for_each (_processObject (tagsToProcess l)) docs
    {| results := tmpResults l; calls := 0; tests := 0 |}.

(** One turn of the last loop: [this.cache[tag] = tmpResults[tag];
    results.push({tag: tag, count: tmpResults[tag]})].  Every tag of
    [tagsToProcess] is a key of [tmpResults]. *)
Definition store_tag (tmp : gmap string nat)
  (acc : gmap string nat * list entry) (t : string) : gmap string nat * list entry :=
  let n := default 0 (tmp !! t) in
  (<[t := n]> acc.1, acc.2 ++ [ {| tag := t; count := Num n |} ]).

Definition store (tmp : gmap string nat) (todo : list string)
  (c : gmap string nat) (found : list entry) : gmap string nat * list entry :=
  fold_left (store_tag tmp) todo (c, found).

(** [function(a, b) { return a.count < b.count; }], its boolean result
    taken as a number the way [sort] does. *)
Definition comparator (a b : entry) : Z :=
  Z.b2z (js_lt (count a) (count b)).

Section Process.
Context {runtime : ArraySort}.

(** [process(tags)], and beside its outcome the meters of the
    traversal it made ([None] when it threw before the traversal had
    ended). *)
Definition process_metered (tags : list string) (e : engine)
  : outcome (list entry) * option scan :=
  match data e with
  | None => ({| ret := Throw Process_without_data; after := e |}, None)
  | Some docs =>
      let l := look_up tags (cache e) in
      match traverse docs l with
      | Throw err => ({| ret := Throw err; after := e |}, None)
      | Ok st =>
          let '(c, res) := store (results st) (tagsToProcess l) (cache e) (found l) in
          ({| ret := Ok (sort comparator res);
              after := {| data := Some docs; cache := c |} |}, Some st)
      end
  end.

Definition process (tags : list string) (e : engine) : outcome (list entry) :=
  (process_metered tags e).1.

Definition work (tags : list string) (e : engine) : option scan :=
  (process_metered tags e).2.
End Process.

(** *** Notions for stating what the engine does *)

(** The body of the loop [for (var key in obj)] for one property value,
    as a function of its own. *)
Definition visit (tags : list string) (v : value) (st : scan) : result scan :=
  if is_object_type v then _processObject tags v st
  else if isArray v then
    match v with
    | JArray children => for_each (_processObject tags) children st
    | _ => Ok st
    end
  else if is_string_type v then
    match v with
    | JString s => Ok (string_leaf tags s st)
    | _ => Ok st
    end
  else Ok st.

(** The strings that reach the branch [typeof obj[key] === 'string']
    while [_processObject] runs on [obj]: the string values held by the
    objects and arrays of [obj] at any depth, and, when [obj] is itself a
    string, its characters. *)
Fixpoint leaves_of (obj : value) : list string :=
  let leaves_at := fun v : value =>
    match v with
    | JString s => [s]
    | _ => leaves_of v
    end in
  match obj with
  | JObject props => flat_map (fun kv : string * value => leaves_at (snd kv)) props
  | JArray items => flat_map leaves_at items
  | JString s => chars s
  | JUndefined | JNull | JBool _ | JNumber _ => []
  end.

Definition leaves_at (v : value) : list string :=
  match v with
  | JString s => [s]
  | _ => leaves_of v
  end.

(** Whether some object of the document has a property of its own
    called [hasOwnProperty]. *)
Fixpoint trapped (obj : value) : bool :=
  match obj with
  | JObject props =>
      existsb (fun kv : string * value => String.eqb (fst kv) "hasOwnProperty") props
      || existsb (fun kv : string * value => trapped (snd kv)) props
  | JArray items => existsb trapped items
  | _ => false
  end.

(** How many times [_processObject] is entered for [obj]. *)
Fixpoint activations (obj : value) : nat :=
  let at_key := fun v : value =>
    if is_object_type v then activations v else 0 in
  match obj with
  | JObject props => S (list_sum (map (fun kv : string * value => at_key (snd kv)) props))
  | JArray items => S (list_sum (map at_key items))
  | _ => 1
  end.

Definition activations_at (v : value) : nat :=
  if is_object_type v then activations v else 0.

(** The strings of a corpus that contain [t]. *)
Definition matching (t : string) (leaves : list string) : list string :=
  List.filter (fun s => contains s t) leaves.

(** How often [t] is listed in [tags]. *)
Definition times (t : string) (tags : list string) : nat :=
  length (List.filter (String.eqb t) tags).

(** The effect of a whole traversal on the object it fills and on the
    meters. *)
Definition absorb (tags : list string) (leaves : list string) (st : scan) : scan :=
  fold_left (fun st s => string_leaf tags s st) leaves st.

Definition bump (n : nat) (st : scan) : scan :=
  {| results := results st; calls := n + calls st; tests := tests st |}.

(** The tags answered from the cache, with their answers, in the order
    asked. *)
Definition hits (c : gmap string nat) (tags : list string) : list entry :=
  flat_map (fun t =>
              match get c t with
              | Some v => if truthy (Some v) then [ {| tag := t; count := v |} ] else []
              | None => []
              end) tags.

(** The tags that are counted on the documents. *)
Definition misses (c : gmap string nat) (tags : list string) : list string :=
  List.filter (fun t => negb (truthy (get c t))) tags.

Definition zeros (todo : list string) (m : gmap string nat) : gmap string nat :=
  fold_left (fun m t => <[t := 0]> m) todo m.

(** The count [process] computes for a tag it does not answer from the
    cache: the number of strings of the documents that contain it (once
    for every time the tag is listed, for a list with repetitions). *)
Definition tally (tags : list string) (c : gmap string nat) (docs : list value)
  (t : string) : nat :=
  times t (misses c tags) * length (matching t (flat_map leaves_of docs)).

Definition answers (tags : list string) (c : gmap string nat) (docs : list value)
  : list entry :=
  hits c tags ++
  map (fun t => {| tag := t; count := Num (tally tags c docs t) |}) (misses c tags).

Definition learn (tags : list string) (c : gmap string nat) (docs : list value)
  : gmap string nat :=
  fold_left (fun m t => <[t := tally tags c docs t]> m) (misses c tags) c.

(** The corpus of the specification's example:
    [[{"tags":["red apple","blue"]}, {"nested":{"x":["green","redwood"]}}]]. *)
Definition example_corpus : value :=
  JArray
    [ JObject [ ("tags", JArray [ JString "red apple"; JString "blue" ]) ];
      JObject [ ("nested",
                 JObject [ ("x", JArray [ JString "green"; JString "redwood" ]) ]) ] ].

(** A history of calls on one engine. *)
Inductive call :=
| SetData (arg : value)
| Process (tags : list string).

Definition is_ok {A} (r : result A) : bool :=
  match r with Ok _ => true | Throw _ => false end.

Section Histories.
Context {runtime : ArraySort}.

Definition after_call (e : engine) (c : call) : engine :=
  match c with
  | SetData arg => after (setData arg e)
  | Process tags => after (process tags e)
  end.

Definition history (cs : list call) : engine :=
  fold_left after_call cs constructor.

(** No [setData] of the history returned. *)
Fixpoint never_set (e : engine) (cs : list call) : bool :=
  match cs with
  | [] => true
  | c :: cs' =>
      match c with
      | SetData arg => negb (is_ok (ret (setData arg e)))
      | Process _ => true
      end && never_set (after_call e c) cs'
  end.

End Histories.

(** The counts of a result do not increase along it. *)
Definition descending (res : list entry) : Prop :=
  ∀ i j a b, i < j →
    count <$> res !! i = Some (Num a) → count <$> res !! j = Some (Num b) →
    b ≤ a.

(** The cache holds no name of [Object.prototype]. *)
Definition no_shadow (c : gmap string nat) : Prop :=
  ∀ t, inherited t = true → c !! t = None.

(** The string leaves of a document as the specification has them: the
    document itself when it is a string, and otherwise the strings its
    objects and arrays hold, at any depth.  [leaves_of] differs from it
    on a document that is itself a string, which the traversal takes
    character by character. *)
Fixpoint string_leaves (v : value) : list string :=
  match v with
  | JString s => [s]
  | JArray items => flat_map string_leaves items
  | JObject props => flat_map (fun kv : string * value => string_leaves (snd kv)) props
  | JUndefined | JNull | JBool _ | JNumber _ => []
  end.

(** The string leaves that the objects and arrays of a document hold,
    and the characters of a document that is itself a string: between
    them, the strings the traversal of the document tests. *)
Definition held_leaves (doc : value) : list string :=
  match doc with
  | JString _ => []
  | _ => string_leaves doc
  end.

Definition spelled (doc : value) : list string :=
  match doc with
  | JString s => chars s
  | _ => []
  end.

(** A document with its property names changed by [f]. *)
Fixpoint rekey (f : string → string) (v : value) : value :=
  match v with
  | JObject props =>
      JObject (map (fun kv : string * value => (f (fst kv), rekey f (snd kv))) props)
  | JArray items => JArray (map (rekey f) items)
  | _ => v
  end.

End TagsFinder.

(* ===================================================================== *)
(** ** dataloader.js *)
(* ===================================================================== *)

Module DataLoader.
Import JS.

(** Node runs one callback at a time, to its end.  A step of the model
    is one call of [loadFiles] by the application or one callback of the
    event loop, which the environment picks among those owed, together
    with what the file system answers.  Listeners return without calling
    into the loader, except that the listener of ['fatal'] may end the
    process; the listener of ['error'] exists (without one [emit] would
    throw). *)

(** Arrays live in a store and are passed by reference: the array a
    ['ready'] event carries is the loader's own [this.cache], not a copy
    of it. *)
Definition loc := nat.

(** What the loader emits.  A ['ready'] event carries a reference; the
    documents the array held when the event was emitted are recorded
    beside it. *)
Inductive event :=
| Ready (corpus : loc) (held : list value)
| Fatal_timeout               (* 'Timeout for reading files reached' *)
| Fatal_unable_to_load        (* 'Unable to load files from path %s: %s' *)
| Fatal_no_files              (* 'No files found in data folder %s' *)
| Error_reading (file : string)
| Error_parsing (file : string).

(** What the outside can see of a run: events reaching the listeners,
    calls into [fs], and an exception no one catches. *)
Inductive output :=
| Emit (ev : event)
| Fs_readdir (dir : string)
| Fs_readFile (file : string)
| Uncaught_TypeError.

(** Callbacks the event loop still owes a run. *)
Inductive task :=
| Watchdog (id : nat)          (* setTimeout(..., 5000) of loadFiles *)
| Listing                      (* callback of fs.readdir *)
| Start (file : string)        (* setTimeout(..., 0) of one file *)
| Reading (file : string).     (* callback of fs.readFile *)

#[global] Instance task_eq_dec : EqDecision task.
Proof. solve_decision. Defined.

(** The fields of a [DataLoader]. *)
Record loader := {
  dir : string;
  cache : loc;
  cacheReady : bool;
  filesToProcessCount : nat;
  filesProcessedCount : nat;
  safety : option nat            (* undefined until loadFiles stores a timer *)
}.

(** The loader in its process.  [fatal_exits] tells whether the
    listener of ['fatal'] ends the process, as the application's does
    ([process.exit(1)]); [halted] is set once the process has ended. *)
Record world := {
  heap : list (list value);
  self : loader;
  pending : list task;
  timers : nat;                  (* the next timer handle *)
  log : list output;
  halted : bool;
  fatal_exits : bool
}.

Definition with_self (f : loader → loader) (w : world) : world :=
  {| heap := heap w; self := f (self w); pending := pending w;
     timers := timers w; log := log w; halted := halted w;
     fatal_exits := fatal_exits w |}.

Definition with_pending (f : list task → list task) (w : world) : world :=
  {| heap := heap w; self := self w; pending := f (pending w);
     timers := timers w; log := log w; halted := halted w;
     fatal_exits := fatal_exits w |}.

Definition with_heap (f : list (list value) → list (list value)) (w : world) : world :=
  {| heap := f (heap w); self := self w; pending := pending w;
     timers := timers w; log := log w; halted := halted w;
     fatal_exits := fatal_exits w |}.

Definition put (o : output) (w : world) : world :=
  {| heap := heap w; self := self w; pending := pending w;
     timers := timers w; log := log w ++ [o]; halted := halted w;
     fatal_exits := fatal_exits w |}.

Definition halt (w : world) : world :=
  {| heap := heap w; self := self w; pending := pending w;
     timers := timers w; log := log w; halted := true;
     fatal_exits := fatal_exits w |}.

Definition fresh_timer (w : world) : world :=
  {| heap := heap w; self := self w; pending := pending w;
     timers := S (timers w); log := log w; halted := halted w;
     fatal_exits := fatal_exits w |}.

(** Assignments to one field of the loader. *)
Definition set_safety (id : nat) (s : loader) : loader :=
  {| dir := dir s; cache := cache s; cacheReady := cacheReady s;
     filesToProcessCount := filesToProcessCount s;
     filesProcessedCount := filesProcessedCount s; safety := Some id |}.

Definition set_total (n : nat) (s : loader) : loader :=
  {| dir := dir s; cache := cache s; cacheReady := cacheReady s;
     filesToProcessCount := n;
     filesProcessedCount := filesProcessedCount s; safety := safety s |}.

Definition counted (s : loader) : loader :=
  {| dir := dir s; cache := cache s; cacheReady := cacheReady s;
     filesToProcessCount := filesToProcessCount s;
     filesProcessedCount := filesProcessedCount s + 1; safety := safety s |}.

Definition set_ready (s : loader) : loader :=
  {| dir := dir s; cache := cache s; cacheReady := true;
     filesToProcessCount := filesToProcessCount s;
     filesProcessedCount := filesProcessedCount s; safety := safety s |}.

(** [new DataLoader(dir)] in a process whose store is [h]:
    [this.cache = []] allocates the array. *)
Definition constructor (d : string) (h : list (list value)) (exits : bool) : world :=
  {| heap := h ++ [[]];
     self := {| dir := d; cache := length h; cacheReady := false;
                filesToProcessCount := 0; filesProcessedCount := 0;
                safety := None |};
     pending := []; timers := 0; log := []; halted := false;
     fatal_exits := exits |}.

(** Statements run in sequence; once the process has ended the rest of
    the callback does not run. *)
Definition exec (body : list (world → world)) (w : world) : world :=
  fold_left (fun w stmt => if halted w then w else stmt w) body w.

(** [self.emit('fatal', ...)]: the listener runs before [emit] returns. *)
Definition emit_fatal (ev : event) (w : world) : world :=
  let w := put (Emit ev) w in
  if fatal_exits w then halt w else w.

Definition the_cache (w : world) : list value :=
  default [] (heap w !! cache (self w)).

(** [clearTimeout(self.safety)]: the timer of that handle, if it is
    still to fire, never does. *)
Definition clearTimeout (w : world) : world :=
  match safety (self w) with
  | Some id => with_pending (filter (fun t => t ≠ Watchdog id)) w
  | None => w
  end.

(** The listener of ['fileprocessed'] that the constructor installs. *)
Definition fileprocessed (isSuccess : bool) (object : value) (w : world) : world :=
  exec
    [ (fun w => if isSuccess
                then with_heap (alter (fun a => a ++ [object]) (cache (self w))) w
                else w);
      with_self counted;
      (fun w =>
         if Nat.eqb (filesToProcessCount (self w)) (filesProcessedCount (self w))
         then exec
           [ (fun w => put (Emit (Ready (cache (self w)) (the_cache w))) w);
             clearTimeout;
             with_self set_ready ] w
         else w) ] w.

(** [loadFiles()], up to the calls whose callbacks come later. *)
Definition loadFiles (w : world) : world :=
  if cacheReady (self w) then
    put (Emit (Ready (cache (self w)) (the_cache w))) w
  else
    exec
      [ (fun w => with_self (set_safety (timers w)) w);
        (fun w => with_pending (fun p => p ++ [Watchdog (timers w)]) w);
        fresh_timer;
        (fun w => put (Fs_readdir (dir (self w))) w);
        with_pending (fun p => p ++ [Listing]) ] w.

(** The callback of the 5000 ms timer. *)
Definition on_watchdog (w : world) : world :=
  exec [ emit_fatal Fatal_timeout ] w.

(** The callback of [fs.readdir], handed [(err, undefined)] ([None]) or
    [(null, files)].  After an error, [files.length] is a [TypeError]
    that nothing catches. *)
Definition on_listing (r : option (list string)) (w : world) : world :=
  match r with
  | None =>
      exec [ emit_fatal Fatal_unable_to_load;
             emit_fatal Fatal_no_files;
             put Uncaught_TypeError;
             halt ] w
  | Some files =>
      exec
        ((if Nat.ltb (length files) 1 then [ emit_fatal Fatal_no_files ] else [])
         ++ [ with_self (set_total (length files)) ]
         ++ map (fun file => with_pending (fun p => p ++ [Start file])) files) w
  end.

(** The callback of [setTimeout(..., 0)] for one file. *)
Definition on_start (file : string) (w : world) : world :=
  exec [ put (Fs_readFile file);
         with_pending (fun p => p ++ [Reading file]) ] w.

(** How one [fs.readFile] ends. *)
Inductive read :=
| Read_error
| Not_json
| Parsed (obj : value).

(** The callback of [fs.readFile]. *)
Definition on_read (file : string) (r : read) (w : world) : world :=
  match r with
  | Read_error =>
      exec [ put (Emit (Error_reading file)); fileprocessed false JNull ] w
  | Not_json =>
      exec [ put (Emit (Error_parsing file)); fileprocessed false JNull ] w
  | Parsed obj =>
      exec [ fileprocessed true obj ] w
  end.

(** What can happen next to a process that is running: the application
    calls [loadFiles], or the event loop runs a callback it owes. *)
Inductive label :=
| Call_loadFiles
| Fire_watchdog (id : nat)
| Listing_done (r : option (list string))
| Start_file (file : string)
| Read_done (file : string) (r : read).

(** Takes [t] off the callbacks owed, if it is one of them. *)
Fixpoint take (t : task) (p : list task) : option (list task) :=
  match p with
  | [] => None
  | t' :: p' => if decide (t = t') then Some p' else cons t' <$> take t p'
  end.

Definition step (w : world) (l : label) : option world :=
  if halted w then None else
  match l with
  | Call_loadFiles => Some (loadFiles w)
  | Fire_watchdog id =>
      p ← take (Watchdog id) (pending w);
      Some (on_watchdog (with_pending (fun _ => p) w))
  | Listing_done r =>
      p ← take Listing (pending w);
      Some (on_listing r (with_pending (fun _ => p) w))
  | Start_file file =>
      p ← take (Start file) (pending w);
      Some (on_start file (with_pending (fun _ => p) w))
  | Read_done file r =>
      p ← take (Reading file) (pending w);
      Some (on_read file r (with_pending (fun _ => p) w))
  end.

Fixpoint run (w : world) (ls : list label) : option world :=
  match ls with
  | [] => Some w
  | l :: ls' => w' ← step w l; run w' ls'
  end.

(** The events of a log. *)
Definition is_ready (o : output) : bool :=
  match o with Emit (Ready _ _) => true | _ => false end.

Definition is_fatal (o : output) : bool :=
  match o with
  | Emit Fatal_timeout | Emit Fatal_unable_to_load | Emit Fatal_no_files => true
  | _ => false
  end.

Definition is_fs (o : output) : bool :=
  match o with Fs_readdir _ | Fs_readFile _ => true | _ => false end.

(** *** Notions for stating what the loader does *)

(** Whether a log holds a ['ready'], a ['fatal']. *)
Definition ready_in (lg : list output) : bool := existsb is_ready lg.
Definition fatal_in (lg : list output) : bool := existsb is_fatal lg.

(** What every callback keeps true of a loader built on a store of
    [c0] arrays, with a ['fatal'] listener that ends the process or not
    ([ex]). *)
Record invariant (c0 : loc) (ex : bool) (w : world) : Prop := {
  inv_cache : cache (self w) = c0;
  inv_exits : fatal_exits w = ex;
  inv_refs : ∀ corpus held, Emit (Ready corpus held) ∈ log w → corpus = c0;
  inv_ready : ready_in (log w) = cacheReady (self w);
  inv_fatal : ex = true → halted w = false → fatal_in (log w) = false
}.

(** The callbacks owed that belong to files, and to the listing. *)
Definition is_file_task (t : task) : bool :=
  match t with Start _ | Reading _ => true | _ => false end.
Definition is_listing (t : task) : bool :=
  match t with Listing => true | _ => false end.
Definition inflight (p : list task) : nat := length (List.filter is_file_task p).
Definition listing (p : list task) : nat := length (List.filter is_listing p).

(** Where a loader stands when [loadFiles] has been called at most once
    before ['ready']: not called yet; waiting for the listing; or past
    the listing, with every file either owed a callback or counted. *)
Definition phase (w : world) : Prop :=
  (timers w = 0 ∧ pending w = [] ∧ filesProcessedCount (self w) = 0)
  ∨ (timers w = 1 ∧ listing (pending w) = 1 ∧ inflight (pending w) = 0
     ∧ filesProcessedCount (self w) = 0)
  ∨ (timers w = 1 ∧ listing (pending w) = 0
     ∧ inflight (pending w) + filesProcessedCount (self w) = filesToProcessCount (self w)).

(** What holds of such a loader: every ['ready'] emitted so far was
    emitted with the documents the array holds now, and once ['ready'] has
    been emitted no callback of a file or of the listing is owed. *)
Record cycle (w : world) : Prop := {
  k_held : ∀ corpus held, Emit (Ready corpus held) ∈ log w → held = the_cache w;
  k_done : halted w = false → cacheReady (self w) = true →
           inflight (pending w) = 0 ∧ listing (pending w) = 0;
  k_phase : halted w = false → cacheReady (self w) = false → phase w
}.

(** Splits a goal about the statements of a callback into one goal per
    statement. *)
Ltac statements :=
  repeat match goal with |- Forall _ _ => constructor end.

(** *** Two runs *)

(** A directory of two files, one of them not JSON, once both have
    been read. *)
Definition two_files_read : world :=
  Eval vm_compute in
    default (constructor "data" [] true)
      (run (constructor "data" [] true)
         [ Call_loadFiles; Listing_done (Some ["a.json"; "b.json"]);
           Start_file "a.json"; Start_file "b.json";
           Read_done "b.json" Not_json; Read_done "a.json" (Parsed JNull) ]).

(** One file whose reading outlasts the deadline, in the application. *)
Definition one_file_slow : world :=
  Eval vm_compute in
    default (constructor "data" [] true)
      (run (constructor "data" [] true)
         [ Call_loadFiles; Listing_done (Some ["a.json"]); Start_file "a.json" ]).

Definition one_file_timed_out : world :=
  Eval vm_compute in
    default one_file_slow (step one_file_slow (Fire_watchdog 0)).

(** *** Notions for stating what a run has read *)

(** The documents of the reads that parsed, in the order the reads
    ended. *)
Definition parsed (ls : list label) : list value :=
  flat_map (fun l => match l with Read_done _ (Parsed obj) => [obj] | _ => [] end) ls.

(** The reads that ended, and the ['error'] events of those that
    failed. *)
Definition is_read (l : label) : bool :=
  match l with Read_done _ _ => true | _ => false end.

Definition reads (ls : list label) : nat := length (List.filter is_read ls).

Definition failures (ls : list label) : list output :=
  flat_map (fun l => match l with
                     | Read_done file Read_error => [Emit (Error_reading file)]
                     | Read_done file Not_json => [Emit (Error_parsing file)]
                     | _ => []
                     end) ls.

Definition is_error (o : output) : bool :=
  match o with Emit (Error_reading _) | Emit (Error_parsing _) => true | _ => false end.

(** The files of the last listing that came back without an error. *)
Definition listed_files (ls : list label) : list string :=
  fold_left (fun files l => match l with Listing_done (Some fs) => fs | _ => files end) ls [].

Definition listed (ls : list label) : nat := length (listed_files ls).

(** The files handed to [fs.readFile] so far, and those whose
    [setTimeout(..., 0)] is still to fire. *)
Definition started (lg : list output) : list string :=
  flat_map (fun o => match o with Fs_readFile file => [file] | _ => [] end) lg.

Definition waiting (p : list task) : list string :=
  flat_map (fun t => match t with Start file => [file] | _ => [] end) p.

(** What every run keeps true of the loader's books, [ls] being the
    callbacks run so far. *)
Record ledger (ls : list label) (w : world) : Prop := {
  g_slot : cache (self w) < length (heap w);
  g_docs : the_cache w = parsed ls;
  g_reads : filesProcessedCount (self w) = reads ls;
  g_errors : List.filter is_error (log w) = failures ls;
  g_total : halted w = false → filesToProcessCount (self w) = listed ls;
  g_some : cacheReady (self w) = true → 1 ≤ filesProcessedCount (self w)
}.

(** What holds besides when [loadFiles] has been called at most once
    before ['ready']. *)
Record single (ls : list label) (w : world) : Prop := {
  s_alive : cacheReady (self w) = true → halted w = false;
  s_quiet : cacheReady (self w) = true → pending w = [];
  s_timer : ∀ id, Watchdog id ∈ pending w → safety (self w) = Some id;
  s_done : cacheReady (self w) = true →
           filesProcessedCount (self w) = filesToProcessCount (self w);
  s_short : halted w = false → cacheReady (self w) = false →
            timers w = 1 → listing (pending w) = 0 →
            filesProcessedCount (self w) = 0
            ∨ filesProcessedCount (self w) < filesToProcessCount (self w);
  s_fresh : timers w = 0 ∨ listing (pending w) = 1 → listed_files ls = [];
  s_files : started (log w) ++ waiting (pending w) ≡ₚ listed_files ls
}.

(** Whether a callback is the listing coming back with a file. *)
Definition lists_files (l : label) : bool :=
  match l with Listing_done (Some (_ :: _)) => true | _ => false end.

(** The loader of the application once [loadFiles] has been called, and
    the same with a listener of ['fatal'] that returns. *)
Definition listing_owed (exits : bool) : world :=
  Eval vm_compute in loadFiles (constructor "data" [] exits).

(** A directory without files, with a listener of ['fatal'] that
    returns, once the deadline has passed. *)
Definition no_file_found : world :=
  Eval vm_compute in
    default (constructor "data" [] false)
      (run (constructor "data" [] false)
         [ Call_loadFiles; Listing_done (Some []); Fire_watchdog 0 ]).

(** What a callback other than the end of a read leaves as it was. *)
Definition same_books (w0 w : world) : Prop :=
  heap w = heap w0 ∧ cache (self w) = cache (self w0)
  ∧ cacheReady (self w) = cacheReady (self w0)
  ∧ filesProcessedCount (self w) = filesProcessedCount (self w0)
  ∧ List.filter is_error (log w) = List.filter is_error (log w0).

End DataLoader.

(* ===================================================================== *)
(** ** The application *)
(* ===================================================================== *)

Module Application.
Import JS TagsFinder.

(** *** What the application takes from the runtime *)

(** White space and line terminators, as [String.prototype.trim] sees
    them, among the code units below 256: TAB, LF, VT, FF, CR, SP and
    NBSP. *)
Definition is_space (c : ascii) : bool :=
  bool_decide (nat_of_ascii c ∈ [ 9; 10; 11; 12; 13; 32; 160 ]).

Fixpoint trim_start (s : string) : string :=
  match s with
  | EmptyString => EmptyString
  | String c s' => if is_space c then trim_start s' else s
  end.

Fixpoint trim_end (s : string) : string :=
  match s with
  | EmptyString => EmptyString
  | String c s' =>
      match trim_end s' with
      | EmptyString => if is_space c then EmptyString else String c EmptyString
      | rest => String c rest
      end
  end.

(** [s.trim()] *)
Definition trim (s : string) : string := trim_end (trim_start s).

(** [s.split(sep)] for a separator of one character. *)
Fixpoint split (sep : ascii) (s : string) : list string :=
  match s with
  | EmptyString => [ EmptyString ]
  | String c s' =>
      if Ascii.eqb c sep then EmptyString :: split sep s'
      else match split sep s' with
           | piece :: pieces => String c piece :: pieces
           | [] => [ String c EmptyString ]
           end
  end.

Definition comma : ascii := ","%char.
Definition newline : ascii := "010"%char.

(** [Array.from(new Set(items))]: a [Set] keeps its values in the order
    they were first added. *)
Definition Set_add (seen : list string) (item : string) : list string :=
  if bool_decide (item ∈ seen) then seen else seen ++ [ item ].

Definition Array_from_Set (items : list string) : list string :=
  fold_left Set_add items [].

(** *** [sanitizeTags] and [processInputTags] *)

(** [sanitizeTags(inputTags)].  The argument is an array of strings, or
    the empty string ([None]), which is what [inputLine &&
    inputLine.split(',')] yields for an empty line. *)
Definition sanitizeTags (inputTags : option (list string)) : list string :=
  match inputTags with
  | None => []
  | Some items =>
      fold_left (fun acc item =>
                   let trimmed := trim item in
                   if negb (String.eqb trimmed "") then acc ++ [ trimmed ] else acc)
        (Array_from_Set items) []
  end.

(** The messages [processInputTags] can hand to its callback. *)
Inductive message :=
| Unable_to_read_default_tags_file
| Empty_default_tags_file.

(** What the callback is called with: [cb(err)] or
    [cb(null, finalTags)]. *)
Inductive answer :=
| Cb_error (err : message)
| Cb_tags (finalTags : list string).

(** [processInputTags] either calls back before it returns, or has
    called [fs.readFile] on the default tags file, whose callback comes
    later. *)
Inductive asked :=
| Answered (a : answer)
| Reads_default_tags.

(** [processInputTags(inputTags, cb)], [defaultTags] being the
    module's variable ([None] while it is [undefined]).  An array is
    truthy, the empty one as well. *)
Definition processInputTags (inputTags : option (list string))
  (defaultTags : option (list string)) : asked :=
  let sanitizedTags := sanitizeTags inputTags in
  if Nat.ltb 0 (length sanitizedTags) then Answered (Cb_tags sanitizedTags)
  else match defaultTags with
       | Some tags => Answered (Cb_tags tags)
       | None => Reads_default_tags
       end.

(** The callback of that [fs.readFile], handed an error ([None]) or the
    text of the file: the answer for [cb], and [defaultTags] after it.
    [fs.readFile] itself does not throw on a path that is a string. *)
Definition default_tags_read (r : option string) (defaultTags : option (list string))
  : answer * option (list string) :=
  match r with
  | None => (Cb_error Unable_to_read_default_tags_file, defaultTags)
  | Some data =>
      let fileInputTags := split newline data in
      let sanitizedDefaultTags := sanitizeTags (Some fileInputTags) in
      if Nat.ltb (length sanitizedDefaultTags) 0
      then (Cb_error Empty_default_tags_file, defaultTags)
      else (Cb_tags sanitizedDefaultTags, Some sanitizedDefaultTags)
  end.

(** *** The listeners of the command line *)

(** What the application writes: [process.stdout.write(text)],
    [console.log("%s\t%d", tag, count)], [console.error(message)] and
    [console.error(e)] for an exception. *)
Inductive written :=
| Stdout (text : string)
| Log_count (tag : string) (count : count_value)
| Error_message (err : message)
| Error_thrown (e : error).

(** The engine, the default tags, the reads of the default tags file
    that have not come back, and what has been written. *)
Record app := {
  tagsFinder : engine;
  defaultTags : option (list string);
  reading : nat;
  console : list written
}.

Definition write (out : list written) (a : app) : app :=
  {| tagsFinder := tagsFinder a; defaultTags := defaultTags a;
     reading := reading a; console := console a ++ out |}.

(** [prompt(message)] *)
Definition prompt (message : option string) (a : app) : app :=
  write [ Stdout (String newline "");
          Stdout (match message with
                  | Some text => if String.eqb text ""
                                 then "Type your comma separated list of tags:"
                                 else text
                  | None => "Type your comma separated list of tags:"
                  end);
          Stdout (String newline "> ") ] a.

Section Listeners.
Context {runtime : ArraySort}.

(** [cli.on('ready', ...)] *)
Definition cli_ready (tags : list string) (a : app) : app :=
  let o := process tags (tagsFinder a) in
  prompt None
    (write match ret o with
           | Ok results => map (fun result => Log_count (tag result) (count result)) results
           | Throw e => [ Error_thrown e ]
           end
       {| tagsFinder := after o; defaultTags := defaultTags a;
          reading := reading a; console := console a |}).

(** [cli.on('error', ...)] *)
Definition cli_error (err : message) (a : app) : app :=
  prompt None (write [ Error_message err ] a).

(** The callback the ['line'] listener hands to [processInputTags]. *)
Definition answered (r : answer) (a : app) : app :=
  match r with
  | Cb_error err => cli_error err a
  | Cb_tags finalTags => cli_ready finalTags a
  end.


(** A read of the default tags file comes back. *)
Definition default_tags_done (r : option string) (a : app) : option app :=
  match reading a with
  | 0 => None
  | S n =>
      let (r', tags) := default_tags_read r (defaultTags a) in
      Some (answered r' {| tagsFinder := tagsFinder a; defaultTags := tags;
                           reading := n; console := console a |})
  end.

End Listeners.

(** The tags [sanitizeTags] returns, spelled out. *)
Definition kept (items : list string) : list string :=
  List.filter (fun t => negb (String.eqb t "")) (map trim (Array_from_Set items)).

End Application.

(* ===================================================================== *)
(** ** Facts about the runtime model *)
(* ===================================================================== *)

Module JSFacts.
Import JS.

(** Induction on a document, with the hypothesis for every element of
    an array and every property value of an object. *)
Lemma value_ind (P : value → Prop) :
  P JUndefined → P JNull → (∀ b, P (JBool b)) → (∀ n, P (JNumber n)) →
  (∀ s, P (JString s)) →
  (∀ items, Forall P items → P (JArray items)) →
  (∀ props, Forall (fun kv => P (snd kv)) props → P (JObject props)) →
  ∀ v, P v.
Proof.
  intros Hu Hn Hb Hz Hs Ha Ho.
  fix IH 1. intros [ | | b | n | s | items | props ].
  - exact Hu.
  - exact Hn.
  - apply Hb.
  - apply Hz.
  - apply Hs.
  - apply Ha. induction items as [ | v items IHitems ]; constructor.
    + apply IH.
    + exact IHitems.
  - apply Ho. induction props as [ | [k v] props IHprops ]; constructor.
    + apply IH.
    + exact IHprops.
Qed.

(** *** Substrings *)

Lemma starts_with_spec tag s :
  starts_with tag s = true ↔ ∃ post, s = String.append tag post.
Proof.
  revert s. induction tag as [ | a tag IH ]; intros s; simpl.
  - split; [ intros _; exists s; reflexivity | reflexivity ].
  - destruct s as [ | b s ].
    + split; [ discriminate | intros [post H]; discriminate ].
    + rewrite andb_true_iff, IH. split.
      * intros [Hab [post ->]]. apply Ascii.eqb_eq in Hab as ->.
        exists post. reflexivity.
      * intros [post H]. injection H as -> ->. split.
        -- apply Ascii.eqb_refl.
        -- exists post. reflexivity.
Qed.

Lemma indexOf_from_range from s tag :
  (indexOf_from from s tag = -1 ∨ from ≤ indexOf_from from s tag)%Z.
Proof.
  revert from. induction s as [ | c s IH ]; intros from; simpl.
  - destruct (starts_with tag ""); [ right; lia | left; reflexivity ].
  - destruct (starts_with tag (String c s)); [ right; lia | ].
    destruct (IH (from + 1)%Z) as [ -> | H ]; [ left; reflexivity | right; lia ].
Qed.

Lemma indexOf_from_found from s tag :
  (0 ≤ from)%Z →
  ((-1 < indexOf_from from s tag)%Z ↔ 0 < occurrences tag s).
Proof.
  revert from. induction s as [ | c s IH ]; intros from Hfrom; simpl.
  - destruct (starts_with tag ""); simpl; lia.
  - destruct (starts_with tag (String c s)); simpl; [ lia | ].
    apply IH. lia.
Qed.

(** [indexOf(tag) > -1] says that [tag] starts somewhere in [s]. *)
Lemma contains_occurrences s tag :
  contains s tag = true ↔ 0 < occurrences tag s.
Proof.
  unfold contains, indexOf. rewrite Z.ltb_lt.
  apply indexOf_from_found. lia.
Qed.

Lemma occurrences_substring tag s :
  0 < occurrences tag s ↔
  ∃ pre post, s = String.append pre (String.append tag post).
Proof.
  induction s as [ | c s IH ]; simpl.
  - destruct (starts_with tag "") eqn:E; simpl.
    + split; [ intros _ | lia ].
      apply starts_with_spec in E as [post E]. exists "", post. exact E.
    + split; [ lia | ].
      intros [pre [post H]]. destruct pre; simpl in H.
      * assert (starts_with tag "" = true) as E'
          by (apply starts_with_spec; exists post; exact H).
        congruence.
      * discriminate.
  - destruct (starts_with tag (String c s)) eqn:E; simpl.
    + split; [ intros _ | lia ].
      apply starts_with_spec in E as [post E]. exists "", post. exact E.
    + rewrite IH. split.
      * intros [pre [post ->]]. exists (String c pre), post. reflexivity.
      * intros [pre [post H]]. destruct pre as [ | c' pre ]; simpl in H.
        -- assert (starts_with tag (String c s) = true) as E'
             by (apply starts_with_spec; exists post; exact H).
           congruence.
        -- injection H as -> ->. exists pre, post. reflexivity.
Qed.

Lemma contains_substring s tag :
  contains s tag = true ↔
  ∃ pre post, s = String.append pre (String.append tag post).
Proof. rewrite contains_occurrences. apply occurrences_substring. Qed.

(** A one-character string contains the empty tag and itself, nothing
    else. *)
Lemma contains_char c tag :
  contains (String c "") tag =
  match tag with
  | "" => true
  | String a "" => Ascii.eqb a c
  | String _ (String _ _) => false
  end.
Proof.
  destruct tag as [ | a [ | b tag ] ]; try reflexivity.
  - unfold contains, indexOf. simpl. destruct (Ascii.eqb a c); reflexivity.
  - unfold contains, indexOf. simpl.
    destruct (Ascii.eqb a c); reflexivity.
Qed.

(** *** The insertion sort meets the contract of [Array.prototype.sort] *)

Section InsertionFacts.
Context {A : Type} (cmp : A → A → Z).

Lemma insert_before_perm x l : insert_before cmp x l ≡ₚ x :: l.
Proof.
  induction l as [ | y l IH ]; simpl; [ reflexivity | ].
  destruct (cmp x y <? 0)%Z; [ reflexivity | ].
  rewrite IH. apply perm_swap.
Qed.

Lemma insertion_fold_perm l acc :
  fold_left (fun sorted x => insert_before cmp x sorted) l acc ≡ₚ acc ++ l.
Proof.
  revert acc. induction l as [ | x l IH ]; intros acc; simpl.
  - rewrite app_nil_r. reflexivity.
  - rewrite IH, insert_before_perm.
    change (x :: acc) with ([x] ++ acc).
    rewrite (Permutation_app_comm [x] acc), <- app_assoc. reflexivity.
Qed.

Lemma insertion_sort_perm l : insertion_sort cmp l ≡ₚ l.
Proof. unfold insertion_sort. rewrite insertion_fold_perm. reflexivity. Qed.

Lemma insert_before_ordered S x l :
  consistent cmp S → x ∈ S → (∀ y, y ∈ l → y ∈ S) →
  ordered cmp l → ordered cmp (insert_before cmp x l).
Proof.
  intros HS Hx Hl Hord.
  induction Hord as [ | y l Hy Hord IH ]; simpl.
  - constructor; constructor.
  - assert (y ∈ S) as HyS by (apply Hl; left).
    assert (∀ z, z ∈ l → z ∈ S) as HlS by (intros z Hz; apply Hl; right; exact Hz).
    destruct (cmp x y <? 0)%Z eqn:E.
    + apply Z.ltb_lt in E. constructor.
      * constructor.
        -- intros Hyx. pose proof (cf_lt_trans cmp S HS x y x Hx HyS Hx E Hyx) as Hxx.
           pose proof (cf_refl cmp S HS x Hx) as H0.
           unfold ltCF, eqCF in *. lia.
        -- rewrite Forall_forall in Hy |- *. intros z Hz Hzx.
           apply (Hy z Hz).
           exact (cf_lt_trans cmp S HS z x y (HlS z Hz) Hx HyS Hzx E).
      * constructor; assumption.
    + apply Z.ltb_ge in E. constructor.
      * rewrite Forall_forall. intros z Hz.
        rewrite insert_before_perm in Hz.
        apply elem_of_cons in Hz as [ -> | Hz ].
        -- unfold ltCF. lia.
        -- rewrite Forall_forall in Hy. exact (Hy z Hz).
      * apply IH. exact HlS.
Qed.

Lemma insertion_sort_ordered l :
  consistent cmp l → ordered cmp (insertion_sort cmp l).
Proof.
  intros HS. unfold insertion_sort.
  assert (∀ todo acc,
    (∀ y, y ∈ todo → y ∈ l) → (∀ y, y ∈ acc → y ∈ l) → ordered cmp acc →
    ordered cmp (fold_left (fun sorted x => insert_before cmp x sorted) todo acc))
    as Hfold.
  { induction todo as [ | x todo IH ]; intros acc Htodo Hacc Hord; simpl.
    - exact Hord.
    - apply IH.
      + intros y Hy. apply Htodo. right. exact Hy.
      + intros y Hy. rewrite insert_before_perm in Hy.
        apply elem_of_cons in Hy as [ -> | Hy ]; [ apply Htodo; left | auto ].
      + apply (insert_before_ordered l); auto. apply Htodo. left. }
  apply Hfold; [ auto | | constructor ].
  intros y Hy. inversion Hy.
Qed.
End InsertionFacts.

(** The runtime whose [sort] is that insertion sort. *)
#[local] Instance insertion : ArraySort := {|
  sort := @insertion_sort;
  sort_permutation := @insertion_sort_perm;
  sort_ordered := @insertion_sort_ordered
|}.

(** *** The shifting insertion sort meets the contract too *)

Section ShiftingFacts.
Context {A : Type} (cmp : A → A → Z).

Lemma shift_in_perm x r : shift_in cmp x r ≡ₚ x :: r.
Proof.
  induction r as [ | y r IH ]; simpl; [ reflexivity | ].
  destruct (0 <? cmp y x)%Z; [ | reflexivity ].
  rewrite IH. apply perm_swap.
Qed.

Lemma shifting_fold_perm l acc :
  fold_left (fun sorted x => shift_in cmp x sorted) l acc ≡ₚ acc ++ l.
Proof.
  revert acc. induction l as [ | x l IH ]; intros acc; simpl.
  - rewrite app_nil_r. reflexivity.
  - rewrite IH, shift_in_perm.
    change (x :: acc) with ([x] ++ acc).
    rewrite (Permutation_app_comm [x] acc), <- app_assoc. reflexivity.
Qed.

Lemma shifting_sort_perm l : shifting_sort cmp l ≡ₚ l.
Proof.
  unfold shifting_sort. rewrite <- Permutation_rev, shifting_fold_perm. reflexivity.
Qed.

Section Order.
Context (S : list A).
Hypothesis asym : ∀ a b, a ∈ S → b ∈ S → gtCF cmp a b → ¬ gtCF cmp b a.
Hypothesis negtrans :
  ∀ a b c, a ∈ S → b ∈ S → c ∈ S → ¬ gtCF cmp a b → ¬ gtCF cmp b c → ¬ gtCF cmp a c.

Lemma shift_in_settled x r :
  x ∈ S → (∀ y, y ∈ r → y ∈ S) → settled cmp r → settled cmp (shift_in cmp x r).
Proof.
  intros Hx Hr Hs. induction Hs as [ | tmp r Hs IH Htmp ]; simpl.
  - repeat constructor.
  - assert (tmp ∈ S) as HtS by (apply Hr; left).
    assert (∀ y, y ∈ r → y ∈ S) as HrS by (intros y Hy; apply Hr; right; exact Hy).
    destruct (0 <? cmp tmp x)%Z eqn:E.
    + apply Z.ltb_lt in E. constructor; [ apply IH; exact HrS | ].
      apply Forall_forall. intros z Hz. rewrite shift_in_perm in Hz.
      apply elem_of_cons in Hz as [ -> | Hz ].
      * apply asym; [ assumption | assumption | unfold gtCF; lia ].
      * rewrite Forall_forall in Htmp. exact (Htmp z Hz).
    + apply Z.ltb_ge in E. constructor; [ constructor; assumption | ].
      apply Forall_forall. intros z Hz.
      apply elem_of_cons in Hz as [ -> | Hz ].
      * unfold gtCF. lia.
      * rewrite Forall_forall in Htmp.
        apply (negtrans z tmp x); [ apply HrS; exact Hz | exact HtS | exact Hx | | ].
        -- exact (Htmp z Hz).
        -- unfold gtCF. lia.
Qed.

Lemma shifting_fold_settled l acc :
  (∀ y, y ∈ l → y ∈ S) → (∀ y, y ∈ acc → y ∈ S) → settled cmp acc →
  settled cmp (fold_left (fun sorted x => shift_in cmp x sorted) l acc).
Proof.
  revert acc. induction l as [ | x l IH ]; intros acc Hl Hacc Hs; simpl; [ exact Hs | ].
  apply IH.
  - intros y Hy. apply Hl. right. exact Hy.
  - intros y Hy. rewrite shift_in_perm in Hy.
    apply elem_of_cons in Hy as [ -> | Hy ]; [ apply Hl; left | auto ].
  - apply shift_in_settled; auto. apply Hl. left.
Qed.
End Order.

Lemma settled_rev r :
  settled cmp r → StronglySorted (fun a b => ¬ gtCF cmp a b) (rev r).
Proof.
  induction 1 as [ | y r Hs IH Hy ]; simpl; [ constructor | ].
  apply StronglySorted_app. split; [ | split; [ exact IH | repeat constructor ] ].
  intros a b Ha Hb. apply list_elem_of_singleton in Hb as ->.
  rewrite Forall_forall in Hy. apply Hy.
  apply list_elem_of_In, in_rev, list_elem_of_In in Ha. exact Ha.
Qed.
End ShiftingFacts.

Section ConsistentFacts.
Context {A : Type} (cmp : A → A → Z) (S : list A).
Hypothesis HS : consistent cmp S.

Lemma gt_lt a b : a ∈ S → b ∈ S → gtCF cmp a b → ltCF cmp b a.
Proof.
  intros Ha Hb Hab.
  destruct (Z.lt_trichotomy (cmp b a) 0) as [ H | [ H | H ] ]; [ exact H | | ].
  - pose proof (cf_sym cmp S HS b a Hb Ha H) as H'. unfold gtCF, eqCF in *. lia.
  - assert (gtCF cmp b a) as Hba by (unfold gtCF; lia).
    pose proof (cf_gt_trans cmp S HS a b a Ha Hb Ha Hab Hba) as Haa.
    pose proof (cf_refl cmp S HS a Ha). unfold gtCF, eqCF in *. lia.
Qed.

Lemma lt_gt a b : a ∈ S → b ∈ S → ltCF cmp a b → gtCF cmp b a.
Proof.
  intros Ha Hb Hab.
  destruct (Z.lt_trichotomy (cmp b a) 0) as [ H | [ H | H ] ].
  - pose proof (cf_lt_trans cmp S HS a b a Ha Hb Ha Hab H) as Haa.
    pose proof (cf_refl cmp S HS a Ha). unfold ltCF, eqCF in *. lia.
  - pose proof (cf_sym cmp S HS b a Hb Ha H) as H'. unfold ltCF, eqCF in *. lia.
  - unfold gtCF. lia.
Qed.

Lemma eq_lt a b c :
  a ∈ S → b ∈ S → c ∈ S → eqCF cmp a b → ltCF cmp b c → ltCF cmp a c.
Proof.
  intros Ha Hb Hc Hab Hbc.
  pose proof (cf_sym cmp S HS a b Ha Hb Hab) as Hba.
  destruct (Z.lt_trichotomy (cmp a c) 0) as [ H | [ H | H ] ]; [ exact H | | ].
  - pose proof (cf_eq_trans cmp S HS b a c Hb Ha Hc Hba H). unfold ltCF, eqCF in *. lia.
  - assert (ltCF cmp c a) as Hca by (apply gt_lt; [ | | unfold gtCF; lia ]; assumption).
    pose proof (cf_lt_trans cmp S HS b c a Hb Hc Ha Hbc Hca). unfold ltCF, eqCF in *. lia.
Qed.

Lemma lt_eq a b c :
  a ∈ S → b ∈ S → c ∈ S → ltCF cmp a b → eqCF cmp b c → ltCF cmp a c.
Proof.
  intros Ha Hb Hc Hab Hbc.
  pose proof (cf_sym cmp S HS b c Hb Hc Hbc) as Hcb.
  destruct (Z.lt_trichotomy (cmp a c) 0) as [ H | [ H | H ] ]; [ exact H | | ].
  - pose proof (cf_eq_trans cmp S HS a c b Ha Hc Hb H Hcb). unfold ltCF, eqCF in *. lia.
  - assert (ltCF cmp c a) as Hca by (apply gt_lt; [ | | unfold gtCF; lia ]; assumption).
    pose proof (cf_lt_trans cmp S HS c a b Hc Ha Hb Hca Hab). unfold ltCF, eqCF in *. lia.
Qed.

Lemma gt_asym a b : a ∈ S → b ∈ S → gtCF cmp a b → ¬ gtCF cmp b a.
Proof.
  intros Ha Hb Hab Hba.
  assert (gtCF cmp a a) as Haa
    by (apply (cf_gt_trans cmp S HS a b a); unfold gtCF in *; auto; lia).
  pose proof (cf_refl cmp S HS a Ha). unfold gtCF, eqCF in *. lia.
Qed.

Lemma gt_negtrans a b c :
  a ∈ S → b ∈ S → c ∈ S → ¬ gtCF cmp a b → ¬ gtCF cmp b c → ¬ gtCF cmp a c.
Proof.
  intros Ha Hb Hc Hab Hbc Hac. unfold gtCF in *.
  assert (ltCF cmp c a) as Hca by (apply gt_lt; [ | | unfold gtCF; lia ]; assumption).
  assert (ltCF cmp a c) as Hlt; [ | unfold ltCF in *; lia ].
  destruct (Z.lt_trichotomy (cmp a b) 0) as [ H1 | [ H1 | H1 ] ]; [ | | lia ];
    destruct (Z.lt_trichotomy (cmp b c) 0) as [ H2 | [ H2 | H2 ] ]; try lia.
  - exact (cf_lt_trans cmp S HS a b c Ha Hb Hc H1 H2).
  - exact (lt_eq a b c Ha Hb Hc H1 H2).
  - exact (eq_lt a b c Ha Hb Hc H1 H2).
  - pose proof (cf_eq_trans cmp S HS a b c Ha Hb Hc H1 H2). unfold eqCF in *. lia.
Qed.
End ConsistentFacts.

Lemma ordered_of_sorted {A} (cmp : A → A → Z) (R : A → A → Prop) (l : list A) :
  StronglySorted R l →
  (∀ a b, a ∈ l → b ∈ l → R a b → ¬ ltCF cmp b a) →
  ordered cmp l.
Proof.
  induction 1 as [ | a l Hs IH Ha ]; intros HR; constructor.
  - apply Forall_forall. intros b Hb. rewrite Forall_forall in Ha.
    apply HR; [ left | right; exact Hb | exact (Ha b Hb) ].
  - apply IH. intros x y Hx Hy. apply HR; right; assumption.
Qed.

Lemma shifting_sort_sorted {A} (cmp : A → A → Z) (l : list A) :
  (∀ a b, a ∈ l → b ∈ l → gtCF cmp a b → ¬ gtCF cmp b a) →
  (∀ a b c, a ∈ l → b ∈ l → c ∈ l →
     ¬ gtCF cmp a b → ¬ gtCF cmp b c → ¬ gtCF cmp a c) →
  StronglySorted (fun a b => ¬ gtCF cmp a b) (shifting_sort cmp l).
Proof.
  intros Hasym Hneg. unfold shifting_sort. apply settled_rev.
  apply (shifting_fold_settled cmp l Hasym Hneg); [ auto | | constructor ].
  intros y Hy. inversion Hy.
Qed.

Lemma shifting_sort_ordered {A} (cmp : A → A → Z) (l : list A) :
  consistent cmp l → ordered cmp (shifting_sort cmp l).
Proof.
  intros HS.
  apply (ordered_of_sorted cmp (fun a b => ¬ gtCF cmp a b)).
  - apply shifting_sort_sorted.
    + apply (gt_asym cmp l HS).
    + apply (gt_negtrans cmp l HS).
  - intros a b Ha Hb Hab Hlt. apply Hab.
    rewrite shifting_sort_perm in Ha, Hb.
    pose proof (lt_gt cmp l HS b a Hb Ha Hlt) as Hgt.
    unfold gtCF in *. lia.
Qed.

#[local] Instance shifting : ArraySort := {|
  sort := @shifting_sort;
  sort_permutation := @shifting_sort_perm;
  sort_ordered := @shifting_sort_ordered
|}.

Lemma sorted_lookup {A} (R : A → A → Prop) (l : list A) i j x y :
  StronglySorted R l → i < j → l !! i = Some x → l !! j = Some y → R x y.
Proof.
  intros Hs. revert i j. induction Hs as [ | a l Hs IH Ha ]; intros i j Hij Hi Hj.
  - rewrite lookup_nil in Hi. discriminate.
  - destruct j as [ | j ]; [ lia | ]. destruct i as [ | i ].
    + injection Hi as ->. rewrite Forall_forall in Ha. apply Ha.
      apply list_elem_of_lookup. exists j. exact Hj.
    + apply (IH i j); [ lia | exact Hi | exact Hj ].
Qed.

Section SortFacts.
Context {runtime : ArraySort}.

Lemma sort_nil {A} (cmp : A → A → Z) : sort cmp [] = [].
Proof. apply Permutation_nil_r, sort_permutation. Qed.

Lemma sort_singleton {A} (cmp : A → A → Z) (x : A) : sort cmp [x] = [x].
Proof. apply Permutation_singleton_r, sort_permutation. Qed.

Lemma sort_length {A} (cmp : A → A → Z) (l : list A) :
  length (sort cmp l) = length l.
Proof. apply Permutation_length, sort_permutation. Qed.

Lemma sort_elem_of {A} (cmp : A → A → Z) (l : list A) (x : A) :
  x ∈ sort cmp l ↔ x ∈ l.
Proof. rewrite sort_permutation. reflexivity. Qed.
End SortFacts.

End JSFacts.

(* ===================================================================== *)
(** ** What a traversal computes *)
(* ===================================================================== *)

Module Traversal.
Import JS TagsFinder JSFacts.

Lemma _processObject_eq tags obj st :
  _processObject tags obj st =
  match obj with
  | JObject props =>
      for_each (fun (kv : string * value) (st : scan) =>
                  hasOwnProperty props ≫= λ own : bool,
                  if own then visit tags (snd kv) st else Ok st)
               props (entered st)
  | JArray items => for_each (visit tags) items (entered st)
  | JString s =>
      for_each (fun (c : string) (st : scan) => Ok (string_leaf tags c st))
               (chars s) (entered st)
  | _ => Ok (entered st)
  end.
Proof. destruct obj; reflexivity. Qed.

(** The branch guarded by [Array.isArray] is never taken: an array has
    [typeof] ['object'] and is caught by the branch before it. *)
Lemma visit_eq tags v st :
  visit tags v st =
  match v with
  | JNull | JArray _ | JObject _ => _processObject tags v st
  | JString s => Ok (string_leaf tags s st)
  | JUndefined | JBool _ | JNumber _ => Ok st
  end.
Proof. destruct v; reflexivity. Qed.

Lemma times_nil t : times t [] = 0.
Proof. reflexivity. Qed.

Lemma times_cons t x tags :
  times t (x :: tags) = (if String.eqb t x then 1 else 0) + times t tags.
Proof. unfold times. simpl. destruct (String.eqb t x); reflexivity. Qed.

Lemma times_app t l1 l2 : times t (l1 ++ l2) = times t l1 + times t l2.
Proof. unfold times. rewrite List.filter_app, length_app. reflexivity. Qed.

Lemma times_absent t tags : t ∉ tags → times t tags = 0.
Proof.
  induction tags as [ | x tags IH ]; intros Hin; [ reflexivity | ].
  rewrite times_cons, IH.
  - destruct (String.eqb_spec t x) as [ -> | ]; [ | reflexivity ].
    exfalso. apply Hin. left.
  - intros H. apply Hin. right. exact H.
Qed.

Lemma times_present t tags : t ∈ tags → 0 < times t tags.
Proof.
  induction 1 as [ t tags | t x tags _ IH ]; rewrite times_cons.
  - rewrite String.eqb_refl. lia.
  - lia.
Qed.

Lemma times_NoDup t tags : NoDup tags → t ∈ tags → times t tags = 1.
Proof.
  induction 1 as [ | x tags Hx Hnd IH ]; intros Hin; [ inversion Hin | ].
  rewrite times_cons.
  destruct (String.eqb_spec t x) as [ -> | Hne ].
  - rewrite times_absent; [ reflexivity | exact Hx ].
  - apply elem_of_cons in Hin as [ -> | Hin ]; [ congruence | ].
    rewrite IH; [ reflexivity | exact Hin ].
Qed.

(** *** One string *)

Lemma test_tag_lookup s st tag t :
  results (test_tag s st tag) !! t =
  (fun n => n + (if contains s t && String.eqb t tag then 1 else 0))
    <$> results st !! t.
Proof.
  unfold test_tag. simpl.
  destruct (String.eqb_spec t tag) as [ -> | Hne ].
  - rewrite andb_true_r. destruct (contains s tag).
    + rewrite lookup_alter. case_decide; [ | congruence ].
      destruct (results st !! tag); simpl; f_equal; lia.
    + destruct (results st !! tag); simpl; f_equal; lia.
  - rewrite andb_false_r.
    assert (results st !! t = (fun n => n + 0) <$> results st !! t) as Hid
      by (destruct (results st !! t); simpl; f_equal; lia).
    destruct (contains s tag); [ | exact Hid ].
    rewrite lookup_alter. case_decide; [ congruence | exact Hid ].
Qed.

Lemma string_leaf_lookup tags s st t :
  results (string_leaf tags s st) !! t =
  (fun n => n + (if contains s t then times t tags else 0)) <$> results st !! t.
Proof.
  unfold string_leaf. revert st.
  induction tags as [ | tag tags IH ]; intros st; simpl.
  - destruct (results st !! t); simpl; f_equal.
    destruct (contains s t); rewrite ?times_nil; lia.
  - rewrite IH, test_tag_lookup, times_cons.
    destruct (results st !! t); simpl; f_equal.
    destruct (contains s t), (String.eqb t tag); simpl; lia.
Qed.

Lemma string_leaf_meters tags s st :
  calls (string_leaf tags s st) = calls st ∧
  tests (string_leaf tags s st) = tests st + length tags.
Proof.
  unfold string_leaf. revert st.
  induction tags as [ | tag tags IH ]; intros st; simpl.
  - lia.
  - destruct (IH (test_tag s st tag)) as [-> ->]. simpl. lia.
Qed.

(** *** Many strings *)

Lemma absorb_app tags l1 l2 st :
  absorb tags (l1 ++ l2) st = absorb tags l2 (absorb tags l1 st).
Proof. unfold absorb. apply fold_left_app. Qed.

Lemma absorb_lookup tags leaves st t :
  results (absorb tags leaves st) !! t =
  (fun n => n + times t tags * length (matching t leaves)) <$> results st !! t.
Proof.
  unfold absorb. revert st.
  induction leaves as [ | s leaves IH ]; intros st; simpl.
  - destruct (results st !! t); simpl; f_equal. lia.
  - rewrite IH, string_leaf_lookup.
    destruct (results st !! t); simpl; f_equal.
    destruct (contains s t); simpl; lia.
Qed.

Lemma absorb_meters tags leaves st :
  calls (absorb tags leaves st) = calls st ∧
  tests (absorb tags leaves st) = tests st + length tags * length leaves.
Proof.
  unfold absorb. revert st.
  induction leaves as [ | s leaves IH ]; intros st; simpl.
  - lia.
  - destruct (IH (string_leaf tags s st)) as [-> ->].
    destruct (string_leaf_meters tags s st) as [-> ->]. lia.
Qed.

Lemma absorb_bump tags leaves n st :
  absorb tags leaves (bump n st) = bump n (absorb tags leaves st).
Proof.
  unfold absorb. revert st.
  induction leaves as [ | s leaves IH ]; intros st; simpl; [ reflexivity | ].
  rewrite <- IH. f_equal.
  unfold string_leaf. clear IH. revert st.
  induction tags as [ | tag tags IHt ]; intros st; simpl; [ reflexivity | ].
  rewrite <- IHt. reflexivity.
Qed.

Lemma bump_bump n m st : bump n (bump m st) = bump (n + m) st.
Proof. unfold bump. simpl. f_equal. lia. Qed.

Lemma entered_bump st : entered st = bump 1 st.
Proof. reflexivity. Qed.

Lemma bump_0 st : bump 0 st = st.
Proof. destruct st. reflexivity. Qed.

(** *** A whole document *)

Lemma leaves_of_eq obj :
  leaves_of obj =
  match obj with
  | JObject props => flat_map (fun kv : string * value => leaves_at (snd kv)) props
  | JArray items => flat_map leaves_at items
  | JString s => chars s
  | _ => []
  end.
Proof. destruct obj; reflexivity. Qed.

Lemma activations_eq obj :
  activations obj =
  match obj with
  | JObject props =>
      S (list_sum (map (fun kv : string * value => activations_at (snd kv)) props))
  | JArray items => S (list_sum (map activations_at items))
  | _ => 1
  end.
Proof. destruct obj; reflexivity. Qed.

(** A loop whose turns either throw or absorb some strings. *)
Lemma for_each_spec {A : Type} (tags : list string)
  (body : A → scan → result scan)
  (bad : A → bool) (act : A → nat) (lv : A → list string) (l : list A) :
  Forall (fun x => ∀ st, body x st =
            if bad x then Throw TypeError_not_a_function
            else Ok (bump (act x) (absorb tags (lv x) st))) l →
  ∀ st, for_each body l st =
        if existsb bad l then Throw TypeError_not_a_function
        else Ok (bump (list_sum (map act l)) (absorb tags (flat_map lv l) st)).
Proof.
  induction 1 as [ | x l Hx _ IH ]; intros st; simpl.
  - rewrite bump_0. reflexivity.
  - rewrite Hx. destruct (bad x); simpl; [ reflexivity | ].
    unfold mbind, result_bind. rewrite IH.
    destruct (existsb bad l); [ reflexivity | ].
    rewrite absorb_app, absorb_bump, bump_bump.
    do 2 f_equal. lia.
Qed.

Lemma visit_spec_of tags v :
  (∀ st, _processObject tags v st =
         if trapped v then Throw TypeError_not_a_function
         else Ok (bump (activations v) (absorb tags (leaves_of v) st))) →
  ∀ st, visit tags v st =
        if trapped v then Throw TypeError_not_a_function
        else Ok (bump (activations_at v) (absorb tags (leaves_at v) st)).
Proof.
  intros IH st. rewrite visit_eq.
  destruct v; try (rewrite IH; reflexivity); simpl; rewrite ?bump_0; reflexivity.
Qed.

(** [_processObject] throws exactly on a document that holds an object
    with a property [hasOwnProperty]; on any other it adds, for every
    tag, the strings of [leaves_of] that contain it. *)
Lemma _processObject_spec tags obj :
  ∀ st, _processObject tags obj st =
        if trapped obj then Throw TypeError_not_a_function
        else Ok (bump (activations obj) (absorb tags (leaves_of obj) st)).
Proof.
  induction obj as [ | | b | n | s | items IH | props IH ] using value_ind;
    intros st; try reflexivity.
  - (* a string: its characters *)
    rewrite _processObject_eq, activations_eq, leaves_of_eq. simpl trapped.
    rewrite (for_each_spec tags _ (fun _ => false) (fun _ => 0) (fun c => [c])).
    + replace (existsb (fun _ : string => false) (chars s)) with false
        by (induction (chars s); simpl; auto).
      rewrite entered_bump, absorb_bump, bump_bump.
      replace (flat_map (fun c : string => [c]) (chars s)) with (chars s)
        by (induction (chars s) as [ | c l IHl ]; simpl; [ | rewrite <- IHl ]; reflexivity).
      do 2 f_equal.
      induction (chars s) as [ | c l IHl ]; simpl in *; lia.
    + apply Forall_forall. intros c _ st'. rewrite bump_0. reflexivity.
  - (* an array *)
    rewrite _processObject_eq, activations_eq, leaves_of_eq. simpl trapped.
    rewrite (for_each_spec tags _ trapped activations_at leaves_at).
    + destruct (existsb trapped items); [ reflexivity | ].
      rewrite entered_bump, absorb_bump, bump_bump.
      do 2 f_equal. lia.
    + eapply Forall_impl; [ exact IH | ].
      intros v Hv. apply visit_spec_of. exact Hv.
  - (* an object *)
    rewrite _processObject_eq, activations_eq, leaves_of_eq. simpl trapped.
    unfold hasOwnProperty.
    destruct (existsb (fun kv : string * value => String.eqb (fst kv) "hasOwnProperty") props)
      eqn:Hown; simpl.
    + destruct props as [ | kv props ]; [ discriminate | reflexivity ].
    + rewrite (for_each_spec tags _ (fun kv => trapped (snd kv))
                 (fun kv => activations_at (snd kv)) (fun kv => leaves_at (snd kv))).
      * destruct (existsb (fun kv : string * value => trapped (snd kv)) props);
          [ reflexivity | ].
        rewrite entered_bump, absorb_bump, bump_bump.
        do 2 f_equal. lia.
      * eapply Forall_impl; [ exact IH | ].
        intros kv Hv st'. simpl. apply visit_spec_of. exact Hv.
Qed.

(** The loop of [process] over the documents. *)
Lemma corpus_spec tags docs st :
  for_each (_processObject tags) docs st =
  if existsb trapped docs then Throw TypeError_not_a_function
  else Ok (bump (list_sum (map activations docs))
                (absorb tags (flat_map leaves_of docs) st)).
Proof.
  apply for_each_spec. apply Forall_forall.
  intros d _ st'. apply _processObject_spec.
Qed.

End Traversal.

(* ===================================================================== *)
(** ** What [process] returns and stores *)
(* ===================================================================== *)

Module Engine.
Import JS TagsFinder JSFacts Traversal.

Lemma hits_cons c t tags :
  hits c (t :: tags) =
  match get c t with
  | Some v => if truthy (Some v) then [ {| tag := t; count := v |} ] else []
  | None => []
  end ++ hits c tags.
Proof. reflexivity. Qed.

Lemma misses_cons c t tags :
  misses c (t :: tags) =
  if truthy (get c t) then misses c tags else t :: misses c tags.
Proof. unfold misses. simpl. destruct (truthy (get c t)); reflexivity. Qed.

Lemma look_up_from c tags l0 :
  fold_left (lookup_tag c) tags l0 =
  {| found := found l0 ++ hits c tags;
     tagsToProcess := tagsToProcess l0 ++ misses c tags;
     tmpResults := zeros (misses c tags) (tmpResults l0) |}.
Proof.
  revert l0. induction tags as [ | t tags IH ]; intros l0.
  - simpl. rewrite !app_nil_r. destruct l0; reflexivity.
  - cbn [fold_left]. rewrite IH, hits_cons, misses_cons. unfold lookup_tag.
    destruct (get c t) as [ v | ] eqn:Hget.
    + destruct (truthy (Some v)) eqn:Htr; cbn [found tagsToProcess tmpResults].
      * rewrite <- app_assoc. reflexivity.
      * rewrite <- app_assoc. reflexivity.
    + cbn [truthy found tagsToProcess tmpResults].
      rewrite <- app_assoc. reflexivity.
Qed.

Lemma look_up_spec c tags :
  look_up tags c =
  {| found := hits c tags;
     tagsToProcess := misses c tags;
     tmpResults := zeros (misses c tags) ∅ |}.
Proof. unfold look_up. rewrite look_up_from. reflexivity. Qed.

Lemma fold_insert_lookup (f : string → nat) todo (m : gmap string nat) t :
  fold_left (fun m t => <[t := f t]> m) todo m !! t =
  if decide (t ∈ todo) then Some (f t) else m !! t.
Proof.
  revert m. induction todo as [ | x todo IH ]; intros m; cbn [fold_left].
  - destruct (decide (t ∈ [])) as [ H | H ]; [ inversion H | reflexivity ].
  - rewrite IH.
    destruct (decide (t ∈ todo)) as [ Hin | Hin ];
      destruct (decide (t ∈ x :: todo)) as [ Hin' | Hin' ].
    + reflexivity.
    + exfalso. apply Hin'. right. exact Hin.
    + apply elem_of_cons in Hin' as [ -> | Hin' ]; [ | contradiction ].
      apply lookup_insert_eq.
    + apply lookup_insert_ne. intros ->. apply Hin'. left.
Qed.

Lemma fold_insert_ext (f g : string → nat) todo (m : gmap string nat) :
  (∀ t, t ∈ todo → f t = g t) →
  fold_left (fun m t => <[t := f t]> m) todo m =
  fold_left (fun m t => <[t := g t]> m) todo m.
Proof.
  revert m. induction todo as [ | x todo IH ]; intros m Hfg; simpl.
  - reflexivity.
  - rewrite (Hfg x) by left. apply IH. intros t Ht. apply Hfg. right. exact Ht.
Qed.

Lemma zeros_lookup todo m t :
  zeros todo m !! t = if decide (t ∈ todo) then Some 0 else m !! t.
Proof. apply (fold_insert_lookup (fun _ => 0)). Qed.

Lemma learn_lookup tags c docs t :
  learn tags c docs !! t =
  if decide (t ∈ misses c tags) then Some (tally tags c docs t) else c !! t.
Proof. apply fold_insert_lookup. Qed.

Lemma store_spec tmp todo c found :
  store tmp todo c found =
  (fold_left (fun m t => <[t := default 0 (tmp !! t)]> m) todo c,
   found ++ map (fun t => {| tag := t; count := Num (default 0 (tmp !! t)) |}) todo).
Proof.
  unfold store. revert c found.
  induction todo as [ | t todo IH ]; intros c found; cbn [fold_left map].
  - rewrite app_nil_r. reflexivity.
  - change (store_tag tmp (c, found) t)
      with (<[t := default 0 (tmp !! t)]> c,
            found ++ [ {| tag := t; count := Num (default 0 (tmp !! t)) |} ]).
    rewrite IH, <- app_assoc. reflexivity.
Qed.

(** Every tag [process] hands to the traversal is a key of the object
    the traversal fills. *)
Lemma partition_keys c tags t :
  t ∈ tagsToProcess (look_up tags c) → tmpResults (look_up tags c) !! t = Some 0.
Proof.
  rewrite look_up_spec. simpl. intros Ht.
  rewrite zeros_lookup. case_decide; [ reflexivity | contradiction ].
Qed.

(** What the traversal of [process] leaves for a tag it was handed. *)
Lemma traverse_spec tags c docs :
  traverse docs (look_up tags c) =
  if existsb trapped docs then Throw TypeError_not_a_function
  else Ok (bump (list_sum (map activations docs))
             (absorb (misses c tags) (flat_map leaves_of docs)
                {| results := zeros (misses c tags) ∅; calls := 0; tests := 0 |})).
Proof.
  unfold traverse. rewrite corpus_spec, look_up_spec. reflexivity.
Qed.

Lemma traverse_tally tags c docs t :
  t ∈ misses c tags →
  results (bump (list_sum (map activations docs))
             (absorb (misses c tags) (flat_map leaves_of docs)
                {| results := zeros (misses c tags) ∅; calls := 0; tests := 0 |})) !! t
  = Some (tally tags c docs t).
Proof.
  intros Ht. simpl. rewrite absorb_lookup. simpl.
  rewrite zeros_lookup. case_decide; [ | contradiction ].
  reflexivity.
Qed.

Section ProcessFacts.
Context {runtime : ArraySort}.

Lemma process_without_data tags e :
  data e = None →
  process_metered tags e =
  ({| ret := Throw Process_without_data; after := e |}, None).
Proof. intros Hd. unfold process_metered. rewrite Hd. reflexivity. Qed.

Lemma process_throws tags e docs :
  data e = Some docs → existsb trapped docs = true →
  process_metered tags e =
  ({| ret := Throw TypeError_not_a_function; after := e |}, None).
Proof.
  intros Hd Ht. unfold process_metered.
  rewrite Hd, traverse_spec, Ht. reflexivity.
Qed.

Lemma process_returns tags e docs :
  data e = Some docs → existsb trapped docs = false →
  ∃ st,
    process_metered tags e =
    ({| ret := Ok (sort comparator (answers tags (cache e) docs));
        after := {| data := Some docs; cache := learn tags (cache e) docs |} |},
     Some st)
    ∧ calls st = list_sum (map activations docs)
    ∧ tests st = length (misses (cache e) tags) * length (flat_map leaves_of docs).
Proof.
  intros Hd Ht. unfold process_metered.
  rewrite Hd, traverse_spec, Ht.
  eexists. split; [ | split ].
  - rewrite store_spec. rewrite look_up_spec. cbn [found tagsToProcess tmpResults].
    unfold answers, learn.
    rewrite (fold_insert_ext _ (tally tags (cache e) docs));
      [ | intros t Hin; rewrite traverse_tally by exact Hin; reflexivity ].
    rewrite (map_ext_in _
               (fun t => {| tag := t; count := Num (tally tags (cache e) docs t) |}));
      [ reflexivity | ].
    intros t Hin. apply list_elem_of_In in Hin.
    rewrite traverse_tally by exact Hin. reflexivity.
  - simpl. destruct (absorb_meters (misses (cache e) tags) (flat_map leaves_of docs)
      {| results := zeros (misses (cache e) tags) ∅; calls := 0; tests := 0 |}) as [-> _].
    simpl. lia.
  - simpl. destruct (absorb_meters (misses (cache e) tags) (flat_map leaves_of docs)
      {| results := zeros (misses (cache e) tags) ∅; calls := 0; tests := 0 |}) as [_ ->].
    reflexivity.
Qed.

End ProcessFacts.

End Engine.

(* ===================================================================== *)
(** ** The specification of the engine, on the code *)
(* ===================================================================== *)

Module TagsFinderSpec.
Import JS TagsFinder JSFacts Traversal Engine.

(** *** Helpers *)

Lemma setData_array docs e :
  setData (JArray docs) e =
  {| ret := Ok (); after := {| data := Some docs; cache := cache e |} |}.
Proof. reflexivity. Qed.

Lemma setData_not_array arg e :
  isArray arg = false →
  setData arg e = {| ret := Throw Invalid_data; after := e |}.
Proof.
  intros Harr. unfold setData. rewrite Harr, orb_true_r.
  reflexivity.
Qed.

Lemma misses_elem c tags t :
  t ∈ misses c tags ↔ t ∈ tags ∧ truthy (get c t) = false.
Proof.
  unfold misses. rewrite !list_elem_of_In, List.filter_In, negb_true_iff.
  reflexivity.
Qed.

Lemma misses_NoDup c tags : NoDup tags → NoDup (misses c tags).
Proof.
  intros Hnd. unfold misses. apply NoDup_ListNoDup.
  apply List.NoDup_filter. apply NoDup_ListNoDup. exact Hnd.
Qed.

Lemma misses_all_hit c tags :
  (∀ t, t ∈ tags → truthy (get c t) = true) → misses c tags = [].
Proof.
  induction tags as [ | t tags IH ]; intros Hall; [ reflexivity | ].
  rewrite misses_cons, (Hall t) by left.
  apply IH. intros t' Ht'. apply Hall. right. exact Ht'.
Qed.

Lemma hits_elem c tags x :
  x ∈ hits c tags ↔
  tag x ∈ tags ∧ get c (tag x) = Some (count x) ∧ truthy (Some (count x)) = true.
Proof.
  induction tags as [ | t tags IH ].
  - split; [ intros H; inversion H | intros [H _]; inversion H ].
  - rewrite hits_cons, elem_of_app, IH, elem_of_cons.
    destruct (get c t) as [ v | ] eqn:Hget.
    + destruct (truthy (Some v)) eqn:Htr.
      * rewrite list_elem_of_singleton. split.
        -- intros [ -> | (Hin & Hg & Ht) ]; simpl; [ auto | auto ].
        -- intros ([ Heq | Hin ] & Hg & Ht); [ left | right; auto ].
           destruct x as [xt xc]. simpl in *. subst xt.
           rewrite Hget in Hg. injection Hg as ->. reflexivity.
      * split.
        -- intros [ H | (Hin & Hg & Ht) ]; [ inversion H | auto ].
        -- intros ([ Heq | Hin ] & Hg & Ht); [ | right; auto ].
           rewrite Heq, Hget in Hg. injection Hg as ->. congruence.
    + split.
      * intros [ H | (Hin & Hg & Ht) ]; [ inversion H | auto ].
      * intros ([ Heq | Hin ] & Hg & Ht); [ | right; auto ].
        rewrite Heq, Hget in Hg. discriminate.
Qed.

Lemma matching_cons t s leaves :
  matching t (s :: leaves) =
  if contains s t then s :: matching t leaves else matching t leaves.
Proof. reflexivity. Qed.

Lemma matching_presence t leaves :
  length (matching t leaves) =
  list_sum (map (fun s => Nat.min 1 (occurrences t s)) leaves).
Proof.
  induction leaves as [ | s leaves IH ]; [ reflexivity | ].
  transitivity (Nat.min 1 (occurrences t s) + length (matching t leaves));
    [ | rewrite IH; reflexivity ].
  rewrite matching_cons.
  destruct (contains s t) eqn:E.
  - apply contains_occurrences in E. cbn [length]. lia.
  - assert (¬ 0 < occurrences t s) as Hno
      by (rewrite <- contains_occurrences; congruence).
    lia.
Qed.

Lemma matching_chars_long t s :
  1 < String.length t → matching t (chars s) = [].
Proof.
  intros Hlen. induction s as [ | c s IH ]; [ reflexivity | ].
  cbn [chars]. rewrite matching_cons, contains_char, IH.
  destruct t as [ | a [ | b t ] ]; simpl in Hlen; try lia. reflexivity.
Qed.

Lemma matching_chars_one c s :
  length (matching (String c "") (chars s)) =
  length (List.filter (Ascii.eqb c) (list_ascii_of_string s)).
Proof.
  induction s as [ | c' s IH ]; [ reflexivity | ].
  cbn [chars list_ascii_of_string List.filter].
  rewrite matching_cons, contains_char.
  destruct (Ascii.eqb c c'); cbn [length]; rewrite IH; reflexivity.
Qed.

(** Below the document itself, the strings the traversal tests are the
    string leaves. *)
Lemma leaves_at_string_leaves v : leaves_at v = string_leaves v.
Proof.
  induction v as [ | | b | n | s | items IH | props IH ] using value_ind;
    try reflexivity.
  - unfold leaves_at. rewrite leaves_of_eq. cbn [string_leaves].
    induction IH as [ | v items Hv _ IHitems ]; [ reflexivity | ].
    cbn [flat_map]. rewrite IHitems, Hv. reflexivity.
  - unfold leaves_at. rewrite leaves_of_eq. cbn [string_leaves].
    induction IH as [ | [k v] props Hv _ IHprops ]; [ reflexivity | ].
    cbn [flat_map snd] in *. rewrite IHprops, Hv. reflexivity.
Qed.

Lemma leaves_of_string_leaves v :
  is_string_type v = false → leaves_of v = string_leaves v.
Proof.
  intros Hv. rewrite <- leaves_at_string_leaves.
  destruct v; try reflexivity. discriminate.
Qed.


Lemma leaves_of_split d : leaves_of d = held_leaves d ++ spelled d.
Proof.
  destruct d; try (rewrite leaves_of_string_leaves by reflexivity;
                   cbn [held_leaves spelled]; rewrite app_nil_r; reflexivity).
  rewrite leaves_of_eq. reflexivity.
Qed.

Lemma matching_split t docs :
  length (matching t (flat_map leaves_of docs))
  = length (matching t (flat_map held_leaves docs))
    + length (matching t (flat_map spelled docs)).
Proof.
  induction docs as [ | d docs IH ]; [ reflexivity | ].
  cbn [flat_map]. rewrite leaves_of_split. unfold matching in *.
  rewrite !List.filter_app, !length_app, IH. lia.
Qed.



(** *** Preconditions *)

Section Preconditions.
Context {runtime : ArraySort}.

Lemma never_set_no_data cs e :
  data e = None → never_set e cs = true →
  data (fold_left after_call cs e) = None.
Proof.
  revert e. induction cs as [ | c cs IH ]; intros e Hd Hn; [ exact Hd | ].
  cbn [fold_left]. cbn [never_set] in Hn.
  apply andb_true_iff in Hn as [Hc Hn].
  apply IH; [ | exact Hn ].
  destruct c as [ arg | tags ]; cbn [after_call].
  - destruct (isArray arg) eqn:Harr.
    + destruct arg; discriminate.
    + rewrite setData_not_array by exact Harr. exact Hd.
  - unfold process. rewrite process_without_data by exact Hd. exact Hd.
Qed.

(** C8. [process] throws ('TagsFinder process called without data set')
    on an engine no [setData] of whose history has returned, and
    [setData] throws ('TagsFinder invalid data object') on whatever is
    not an array and returns on an array; a call that throws leaves the
    engine exactly as it was, so the calls after it run as if it had not
    been made. *)
Theorem precondition_violations_throw (cs : list call) (tags : list string)
  (arg : value) (e : engine) :
  (never_set constructor cs = true →
     ret (process tags (history cs)) = Throw Process_without_data ∧
     after (process tags (history cs)) = history cs)
  ∧ (isArray arg = false →
     ret (setData arg e) = Throw Invalid_data ∧ after (setData arg e) = e)
  ∧ (isArray arg = true → ret (setData arg e) = Ok ()).
Proof.
  split; [ | split ].
  - intros Hn. unfold history, process.
    rewrite process_without_data; [ split; reflexivity | ].
    apply never_set_no_data; [ reflexivity | exact Hn ].
  - intros Harr. rewrite setData_not_array by exact Harr. split; reflexivity.
  - intros Harr. destruct arg; try discriminate. reflexivity.
Qed.

End Preconditions.

(** *** Counting *)

(** The traversal of a document that is itself a string takes each of
    its characters as a one-character string: the counter of a tag of two
    characters or more is left as it was, and the counter of a
    one-character tag grows by the number of characters equal to it. *)
Lemma string_branch_by_characters (tags : list string) (s t : string)
  (st : scan) (n : nat) :
  NoDup tags → t ∈ tags → results st !! t = Some n →
  ∃ st',
    _processObject tags (JString s) st = Ok st'
    ∧ st' = bump 1 (absorb tags (chars s) st)
    ∧ (1 < String.length t → results st' !! t = Some n)
    ∧ (∀ c, t = String c "" →
         results st' !! t =
         Some (n + length (List.filter (Ascii.eqb c) (list_ascii_of_string s)))).
Proof.
  intros Hnd Hin Hn. eexists. split; [ | split; [ reflexivity | ] ].
  - rewrite _processObject_spec. reflexivity.
  - cbn [bump results]. rewrite absorb_lookup, Hn, (times_NoDup t tags Hnd Hin).
    split.
    + intros Hlen. rewrite matching_chars_long by exact Hlen.
      simpl. f_equal. lia.
    + intros c ->. rewrite matching_chars_one. simpl. f_equal. lia.
Qed.


Section Counting.
Context {runtime : ArraySort}.

(** C7, amended. A string leaf that an object or an array of a
    document holds, at any depth, adds exactly one to the count of a tag
    that is being counted and is listed once, when the tag occurs in it,
    however many times it occurs, and nothing when it does not: one turn
    of the string branch adds [min 1 (occurrences)] to the tag's counter,
    and the count [process] returns for the tag is the sum of that over
    the string leaves held by the objects and arrays of the corpus, plus
    what the documents that are themselves strings add, which are tested
    character by character. *)
Theorem each_leaf_counts_once (tags : list string) (t : string) (e : engine)
  (docs : list value) :
  NoDup tags → t ∈ tags →
  data e = Some docs → existsb trapped docs = false →
  truthy (get (cache e) t) = false →
  (∀ todo s st n, NoDup todo → t ∈ todo → results st !! t = Some n →
     results (string_leaf todo s st) !! t = Some (n + Nat.min 1 (occurrences t s)))
  ∧ (∀ s, 0 < occurrences t s ↔
          ∃ pre post, s = String.append pre (String.append t post))
  ∧ ∃ res,
      ret (process tags e) = Ok res
      ∧ {| tag := t;
           count := Num (list_sum (map (fun s => Nat.min 1 (occurrences t s))
                                      (flat_map held_leaves docs))
                         + length (matching t (flat_map spelled docs))) |} ∈ res.
Proof.
  intros Hnd Hin Hd Htrap Hmiss. split; [ | split ].
  - intros todo s st n Hnd' Hin' Hn.
    rewrite string_leaf_lookup, Hn, (times_NoDup t todo Hnd' Hin').
    cbn [fmap option_fmap option_map]. f_equal.
    destruct (contains s t) eqn:E.
    + apply contains_occurrences in E. lia.
    + assert (¬ 0 < occurrences t s) as Hno
        by (rewrite <- contains_occurrences; congruence).
      lia.
  - intros s. apply occurrences_substring.
  - destruct (process_returns tags e docs Hd Htrap) as (st & Hp & _).
    unfold process. rewrite Hp. cbn [fst ret]. eexists. split; [ reflexivity | ].
    apply sort_elem_of. unfold answers. apply elem_of_app. right.
    assert (t ∈ misses (cache e) tags) as Hm by (apply misses_elem; auto).
    apply list_elem_of_fmap. exists t. split; [ | exact Hm ].
    assert (tally tags (cache e) docs t =
            list_sum (map (fun s => Nat.min 1 (occurrences t s))
                          (flat_map held_leaves docs))
            + length (matching t (flat_map spelled docs))) as ->; [ | reflexivity ].
    unfold tally.
    rewrite (times_NoDup t _ (misses_NoDup _ _ Hnd) Hm), matching_split,
      matching_presence.
    lia.
Qed.

(** C6. On the corpus of the specification's example, [process(["red"])]
    returns [red 2] (for "red apple" and "redwood") and
    [process(["blue"])] returns [blue 1], on a fresh engine and also when
    one query follows the other. *)
Theorem example_red_and_blue :
  let e := after (setData example_corpus constructor) in
  ret (process ["red"] e) = Ok [ {| tag := "red"; count := Num 2 |} ]
  ∧ ret (process ["blue"] e) = Ok [ {| tag := "blue"; count := Num 1 |} ]
  ∧ ret (process ["blue"] (after (process ["red"] e)))
    = Ok [ {| tag := "blue"; count := Num 1 |} ]
  ∧ flat_map leaves_of [ JObject [ ("tags", JArray [ JString "red apple"; JString "blue" ]) ];
      JObject [ ("nested",
                 JObject [ ("x", JArray [ JString "green"; JString "redwood" ]) ]) ] ]
    = [ "red apple"; "blue"; "green"; "redwood" ].
Proof.
  cbv zeta. unfold example_corpus. rewrite setData_array. cbn [after].
  set (docs := [ JObject _; JObject _ ]).
  set (e := {| data := Some docs; cache := cache constructor |}).
  destruct (process_returns ["red"] e docs eq_refl eq_refl) as (st1 & Hred & _).
  destruct (process_returns ["blue"] e docs eq_refl eq_refl) as (st2 & Hblue & _).
  unfold process. rewrite Hred, Hblue. cbn [fst ret after].
  set (e1 := {| data := Some docs; cache := learn ["red"] (cache e) docs |}).
  destruct (process_returns ["blue"] e1 docs eq_refl eq_refl) as (st3 & Hblue' & _).
  rewrite Hblue'. cbn [fst ret].
  replace (answers ["red"] (cache e) docs)
    with [ {| tag := "red"; count := Num 2 |} ] by (vm_compute; reflexivity).
  replace (answers ["blue"] (cache e) docs)
    with [ {| tag := "blue"; count := Num 1 |} ] by (vm_compute; reflexivity).
  replace (answers ["blue"] (cache e1) docs)
    with [ {| tag := "blue"; count := Num 1 |} ] by (vm_compute; reflexivity).
  rewrite !sort_singleton. repeat split; reflexivity.
Qed.


End Counting.

(** A corpus with a string that holds its tag three times. *)
Lemma each_leaf_counts_once_witness :
  (∀ todo s st n, NoDup todo → "an" ∈ todo → results st !! "an" = Some n →
     results (string_leaf todo s st) !! "an"
     = Some (n + Nat.min 1 (occurrences "an" s)))
  ∧ (∀ s, 0 < occurrences "an" s ↔
          ∃ pre post, s = String.append pre (String.append "an" post))
  ∧ ∃ res,
      ret (process (runtime := insertion) ["an"]
             {| data := Some [ JArray [ JString "an an an"; JString "no" ] ];
                cache := ∅ |}) = Ok res
      ∧ {| tag := "an";
           count := Num (list_sum (map (fun s => Nat.min 1 (occurrences "an" s))
                           (flat_map held_leaves
                              [ JArray [ JString "an an an"; JString "no" ] ]))
                         + length (matching "an"
                             (flat_map spelled
                                [ JArray [ JString "an an an"; JString "no" ] ]))) |}
        ∈ res.
Proof.
  apply (each_leaf_counts_once (runtime := insertion) ["an"] "an").
  - apply NoDup_singleton.
  - left.
  - reflexivity.
  - reflexivity.
  - reflexivity.
Defined.

(** C7 as stated fails.  A document that is itself a string is one
    string leaf, and ["banana"] contains both ["a"] and ["an"]; the
    traversal takes it character by character, so [process] counts 3 for
    ["a"] and 0 for ["an"] where the leaf should add 1 to each.  And a
    tag listed twice has every leaf that contains it add 2. *)
Lemma string_document_is_not_one_leaf :
  flat_map string_leaves [ JString "banana" ] = [ "banana" ]
  ∧ list_sum (map (fun s => Nat.min 1 (occurrences "a" s)) [ "banana" ]) = 1
  ∧ list_sum (map (fun s => Nat.min 1 (occurrences "an" s)) [ "banana" ]) = 1
  ∧ ret (process (runtime := insertion) [ "a"; "an" ]
           {| data := Some [ JString "banana" ]; cache := ∅ |})
    = Ok [ {| tag := "a"; count := Num 3 |}; {| tag := "an"; count := Num 0 |} ]
  ∧ flat_map string_leaves [ JArray [ JString "banana" ] ] = [ "banana" ]
  ∧ ret (process (runtime := insertion) [ "an"; "an" ]
           {| data := Some [ JArray [ JString "banana" ] ]; cache := ∅ |})
    = Ok [ {| tag := "an"; count := Num 2 |}; {| tag := "an"; count := Num 2 |} ].
Proof. vm_compute. repeat split; reflexivity. Qed.


(** The witness of C8: a history whose only [setData] was handed
    [null]. *)
Lemma precondition_violations_throw_witness :
  (ret (process (runtime := insertion) ["red"]
          (history (runtime := insertion) [ SetData JNull; Process ["red"] ]))
     = Throw Process_without_data
   ∧ after (process (runtime := insertion) ["red"]
              (history (runtime := insertion) [ SetData JNull; Process ["red"] ]))
     = history (runtime := insertion) [ SetData JNull; Process ["red"] ])
  ∧ (ret (setData (JObject [ ("tags", JArray []) ]) constructor) = Throw Invalid_data
     ∧ after (setData (JObject [ ("tags", JArray []) ]) constructor) = constructor)
  ∧ ret (setData (JArray []) constructor) = Ok ().
Proof.
  split; [ | split ].
  - apply (precondition_violations_throw (runtime := insertion)
             [ SetData JNull; Process ["red"] ] ["red"] JNull constructor).
    reflexivity.
  - apply (precondition_violations_throw (runtime := insertion)
             [] [] (JObject [ ("tags", JArray []) ]) constructor).
    reflexivity.
  - apply (precondition_violations_throw (runtime := insertion)
             [] [] (JArray []) constructor).
    reflexivity.
Defined.

(** *** The cache *)

Section Cache.
Context {runtime : ArraySort}.

(** C1, amended. [setData] with an array replaces the documents and
    leaves the cache as it was; in the queries that follow, every tag
    whose cached count is not zero is still answered with that count. *)
Theorem setData_keeps_cache (e : engine) (docs' : list value) (tags : list string) :
  existsb trapped docs' = false →
  let e' := after (setData (JArray docs') e) in
  data e' = Some docs' ∧ cache e' = cache e
  ∧ ∃ res,
      ret (process tags e') = Ok res
      ∧ ∀ t n, t ∈ tags → cache e !! t = Some n → n ≠ 0 →
          {| tag := t; count := Num n |} ∈ res.
Proof.
  intros Htrap e'. subst e'. rewrite setData_array. cbn [after data cache].
  split; [ reflexivity | split; [ reflexivity | ] ].
  destruct (process_returns tags {| data := Some docs'; cache := cache e |} docs'
              eq_refl Htrap) as (st & Hp & _).
  unfold process. rewrite Hp. cbn [fst ret cache]. eexists. split; [ reflexivity | ].
  intros t n Hin Hn Hne. apply sort_elem_of. unfold answers.
  apply elem_of_app. left. apply hits_elem. cbn [tag count].
  unfold get. rewrite Hn. split; [ exact Hin | split; [ reflexivity | ] ].
  cbn [truthy]. destruct n; [ congruence | reflexivity ].
Qed.

(** C3, amended. [process] writes every count it computes into the
    cache, a count of 0 as well.  In a later call all of whose tags have
    a cached count other than 0, every answer is the cached count, the
    one the earlier call gave for that tag; no string of the corpus is
    tested against a tag and the cache stays as it is.  The documents
    are walked all the same. *)
Theorem cache_replays_nonzero_counts (tags tags2 : list string) (e : engine)
  (docs : list value) :
  data e = Some docs → existsb trapped docs = false →
  let e1 := after (process tags e) in
  (∀ t, t ∈ tags2 → t ∈ tags ∧ truthy (get (cache e1) t) = true) →
  (∀ t, t ∈ tags → truthy (get (cache e) t) = false →
     cache e1 !! t = Some (tally tags (cache e) docs t))
  ∧ ∃ res1 res2 st2,
      ret (process tags e) = Ok res1
      ∧ process_metered tags2 e1 = ({| ret := Ok res2; after := e1 |}, Some st2)
      ∧ res2 = sort comparator (hits (cache e1) tags2)
      ∧ (∀ x, x ∈ res2 → x ∈ res1)
      ∧ tests st2 = 0
      ∧ calls st2 = list_sum (map activations docs).
Proof.
  intros Hd Htrap e1 Hwarm.
  destruct (process_returns tags e docs Hd Htrap) as (st1 & Hp & _).
  assert (e1 = {| data := Some docs; cache := learn tags (cache e) docs |}) as He1
    by (unfold e1, process; rewrite Hp; reflexivity).
  clearbody e1. subst e1. cbn [cache] in *.
  split.
  - intros t Hin Hmiss. rewrite learn_lookup.
    destruct (decide (t ∈ misses (cache e) tags)) as [ _ | Hno ]; [ reflexivity | ].
    exfalso. apply Hno, misses_elem. auto.
  - set (c1 := learn tags (cache e) docs) in *.
    destruct (process_returns tags2 {| data := Some docs; cache := c1 |} docs
                eq_refl Htrap) as (st2 & Hp2 & Hcalls & Htests).
    cbn [cache] in *.
    assert (misses c1 tags2 = []) as Hnone
      by (apply misses_all_hit; intros t Ht; apply Hwarm; exact Ht).
    unfold answers, learn in Hp2. rewrite Hnone in Hp2, Htests.
    cbn [map fold_left] in Hp2. rewrite app_nil_r in Hp2.
    exists (sort comparator (answers tags (cache e) docs)),
           (sort comparator (hits c1 tags2)), st2.
    split; [ unfold process; rewrite Hp; reflexivity | ].
    split; [ exact Hp2 | ].
    split; [ reflexivity | ].
    split; [ | split; [ exact Htests | exact Hcalls ] ].
    intros x Hx. apply sort_elem_of in Hx. apply sort_elem_of.
    apply hits_elem in Hx as (Hin2 & Hget & Htr).
    destruct (Hwarm _ Hin2) as [Hin _].
    unfold answers. apply elem_of_app.
    unfold get in Hget. unfold c1 in Hget. rewrite learn_lookup in Hget.
    destruct (decide (tag x ∈ misses (cache e) tags)) as [ Hm | Hh ].
    + right. apply list_elem_of_fmap. exists (tag x). split; [ | exact Hm ].
      injection Hget as Hc. destruct x as [xt xc]. cbn [tag count] in *.
      rewrite <- Hc. reflexivity.
    + left. apply hits_elem. split; [ exact Hin | ].
      split; [ exact Hget | exact Htr ].
Qed.

End Cache.

(** C1 as stated fails.  A count cached for the corpus
    [[{"k":"red"}]] is returned again after [setData([])], where nothing
    contains ["red"]. *)
Lemma stale_count_after_setData :
  let e0 := after (setData (JArray [ JObject [ ("k", JString "red") ] ]) constructor) in
  let e1 := after (process (runtime := insertion) ["red"] e0) in
  let e2 := after (setData (JArray []) e1) in
  cache e1 !! "red" = Some 1
  ∧ data e2 = Some []
  ∧ cache e2 !! "red" = Some 1
  ∧ ret (process (runtime := insertion) ["red"] e2)
    = Ok [ {| tag := "red"; count := Num 1 |} ].
Proof. vm_compute. repeat split; reflexivity. Qed.

Lemma setData_keeps_cache_witness :
  let e := after (process (runtime := insertion) ["red"]
                    {| data := Some [ JObject [ ("k", JString "red") ] ]; cache := ∅ |}) in
  let e' := after (setData (JArray []) e) in
  data e' = Some [] ∧ cache e' = cache e
  ∧ ∃ res,
      ret (process (runtime := insertion) ["red"] e') = Ok res
      ∧ ∀ t n, t ∈ ["red"] → cache e !! t = Some n → n ≠ 0 →
          {| tag := t; count := Num n |} ∈ res.
Proof.
  intros e.
  apply (setData_keeps_cache (runtime := insertion) e [] ["red"]).
  reflexivity.
Defined.

(** C3 as stated fails.  After [process(["zz"])] has cached 0 for
    ["zz"], the same query enters [_processObject] and tests the string
    of the corpus again; and after [process(["x"])] has cached 1, the
    same query still enters [_processObject] once per document, though
    it tests no string. *)
Lemma warm_cache_walks_again :
  let e0 := {| data := Some [ JObject [ ("k", JString "x") ] ]; cache := ∅ |} in
  let cold := after (process (runtime := insertion) ["zz"] e0) in
  let warm := after (process (runtime := insertion) ["x"] e0) in
  cache cold !! "zz" = Some 0
  ∧ (fun st => (calls st, tests st)) <$> work (runtime := insertion) ["zz"] cold
    = Some (1, 1)
  ∧ cache warm !! "x" = Some 1
  ∧ (fun st => (calls st, tests st)) <$> work (runtime := insertion) ["x"] warm
    = Some (1, 0).
Proof. vm_compute. repeat split; reflexivity. Qed.

Lemma cache_replays_nonzero_counts_witness :
  let e := {| data := Some [ JObject [ ("k", JString "x") ] ]; cache := ∅ |} in
  let e1 := after (process (runtime := insertion) ["x"; "zz"] e) in
  (∀ t, t ∈ ["x"; "zz"] → truthy (get (cache e) t) = false →
     cache e1 !! t = Some (tally ["x"; "zz"] (cache e) [ JObject [ ("k", JString "x") ] ] t))
  ∧ ∃ res1 res2 st2,
      ret (process (runtime := insertion) ["x"; "zz"] e) = Ok res1
      ∧ process_metered (runtime := insertion) ["x"] e1
        = ({| ret := Ok res2; after := e1 |}, Some st2)
      ∧ res2 = sort (ArraySort := insertion) comparator (hits (cache e1) ["x"])
      ∧ (∀ x, x ∈ res2 → x ∈ res1)
      ∧ tests st2 = 0
      ∧ calls st2 = list_sum (map activations [ JObject [ ("k", JString "x") ] ]).
Proof.
  intros e.
  apply (cache_replays_nonzero_counts (runtime := insertion)
           ["x"; "zz"] ["x"] e [ JObject [ ("k", JString "x") ] ]).
  - reflexivity.
  - reflexivity.
  - intros t Ht. apply list_elem_of_singleton in Ht as ->.
    split; [ left | vm_compute; reflexivity ].
Defined.

(** *** The cache never holds a name of [Object.prototype]

    A lookup of such a name in the cache is always truthy, so the tag is
    never counted and never written: in every engine a history of calls
    can produce, [get] answers these names from the prototype. *)

Lemma learn_no_shadow tags c docs : no_shadow c → no_shadow (learn tags c docs).
Proof.
  intros Hc t Ht. rewrite learn_lookup.
  destruct (decide (t ∈ misses c tags)) as [ Hm | _ ]; [ | exact (Hc t Ht) ].
  apply misses_elem in Hm as [_ Hm]. unfold get in Hm.
  rewrite (Hc t Ht), Ht in Hm. discriminate.
Qed.

Section Shadow.
Context {runtime : ArraySort}.

Lemma process_no_shadow tags e :
  no_shadow (cache e) → no_shadow (cache (after (process tags e))).
Proof.
  intros Hc. unfold process.
  destruct (data e) as [ docs | ] eqn:Hd.
  - destruct (existsb trapped docs) eqn:Htrap.
    + rewrite (process_throws tags e docs Hd Htrap). exact Hc.
    + destruct (process_returns tags e docs Hd Htrap) as (st & -> & _).
      apply learn_no_shadow. exact Hc.
  - rewrite (process_without_data tags e Hd). exact Hc.
Qed.

Lemma history_no_shadow cs : no_shadow (cache (history cs)).
Proof.
  unfold history.
  assert (∀ e, no_shadow (cache e) → no_shadow (cache (fold_left after_call cs e)))
    as Hfold.
  { induction cs as [ | c cs IH ]; intros e He; [ exact He | ].
    cbn [fold_left]. apply IH. destruct c as [ arg | tags ]; cbn [after_call].
    - unfold setData. destruct (negb (to_boolean arg) || negb (isArray arg));
        [ exact He | destruct arg; exact He ].
    - apply process_no_shadow. exact He. }
  apply Hfold. intros t _. apply lookup_empty.
Qed.

End Shadow.

(** *** The returned array *)

Lemma filter_split {A} (p : A → bool) (l : list A) :
  List.filter p l ++ List.filter (fun x => negb (p x)) l ≡ₚ l.
Proof.
  induction l as [ | x l IH ]; [ reflexivity | ].
  simpl. destruct (p x); simpl.
  - rewrite IH. reflexivity.
  - rewrite <- Permutation_middle, IH. reflexivity.
Qed.

Lemma hits_tags c tags :
  map tag (hits c tags) = List.filter (fun t => truthy (get c t)) tags.
Proof.
  induction tags as [ | t tags IH ]; [ reflexivity | ].
  rewrite hits_cons, map_app, IH. cbn [List.filter].
  destruct (get c t) as [ v | ]; [ | reflexivity ].
  destruct (truthy (Some v)); reflexivity.
Qed.

Lemma answers_tags tags c docs : map tag (answers tags c docs) ≡ₚ tags.
Proof.
  unfold answers. rewrite map_app, hits_tags, map_map. cbn [tag].
  rewrite map_id. apply filter_split.
Qed.

(** The comparator of [process] is not a consistent comparison function
    as soon as two counts differ: [sort]'s contract then fixes no
    order. *)
Lemma comparator_not_consistent (S : list entry) (x y : entry) (n m : nat) :
  x ∈ S → y ∈ S → count x = Num n → count y = Num m → n < m →
  ¬ consistent comparator S.
Proof.
  intros Hx Hy Hcx Hcy Hlt HS.
  assert (eqCF comparator y x) as Hyx.
  { unfold eqCF, comparator. rewrite Hcx, Hcy. cbn [js_lt].
    replace (Nat.ltb m n) with false; [ reflexivity | ].
    symmetry. apply Nat.ltb_ge. lia. }
  pose proof (cf_sym comparator S HS y x Hy Hx Hyx) as Hxy.
  unfold eqCF, comparator in Hxy. rewrite Hcx, Hcy in Hxy. cbn [js_lt] in Hxy.
  replace (Nat.ltb n m) with true in Hxy; [ discriminate | ].
  symmetry. apply Nat.ltb_lt. exact Hlt.
Qed.

Section Returned.
Context {runtime : ArraySort}.

(** X10. A call that returns gives one entry per tag asked, and the
    count of a tag that is no member of [Object.prototype] is a number. *)
Lemma one_entry_per_tag (tags : list string) (e : engine) (docs : list value) :
  data e = Some docs → existsb trapped docs = false →
  ∃ res,
    ret (process tags e) = Ok res
    ∧ map tag res ≡ₚ tags
    ∧ length res = length tags
    ∧ ∀ x, x ∈ res → inherited (tag x) = false → ∃ n, count x = Num n.
Proof.
  intros Hd Htrap.
  destruct (process_returns tags e docs Hd Htrap) as (st & Hp & _).
  unfold process. rewrite Hp. cbn [fst ret]. eexists. split; [ reflexivity | ].
  assert (map tag (sort comparator (answers tags (cache e) docs)) ≡ₚ tags) as Hperm
    by (rewrite sort_permutation; apply answers_tags).
  split; [ exact Hperm | ].
  split; [ rewrite <- (length_map tag); apply Permutation_length, Hperm | ].
  intros x Hx Hinh. apply sort_elem_of in Hx. unfold answers in Hx.
  apply elem_of_app in Hx as [ Hx | Hx ].
  - apply hits_elem in Hx as (_ & Hget & _). unfold get in Hget.
    destruct (cache e !! tag x) as [ n | ].
    + exists n. congruence.
    + rewrite Hinh in Hget. discriminate.
  - apply list_elem_of_fmap in Hx as (t & -> & _). eexists. reflexivity.
Qed.

(** A document that has a property [hasOwnProperty] of its own makes
    every query throw, whatever the tags: [obj.hasOwnProperty(key)] then
    calls the document's value. *)
Lemma own_hasOwnProperty_throws :
  process [ "red" ]
    {| data := Some [ JObject [ ("tags", JArray [ JString "red" ]) ];
                      JObject [ ("hasOwnProperty", JBool true) ] ];
       cache := ∅ |}
  = {| ret := Throw TypeError_not_a_function;
       after := {| data := Some [ JObject [ ("tags", JArray [ JString "red" ]) ];
                                  JObject [ ("hasOwnProperty", JBool true) ] ];
                   cache := ∅ |} |}.
Proof.
  unfold process.
  erewrite process_throws; [ reflexivity | reflexivity | reflexivity ].
Qed.

(** C5 at the tag ["constructor"], on a corpus whose only string is
    that tag: the entry returned holds [Object.prototype.constructor],
    which is no number, where the count should be 1. *)
Theorem inherited_name_count_is_no_number :
  let e := after (setData (JArray [ JObject [ ("tags", JArray [ JString "constructor" ]) ] ])
                    constructor) in
  ret (process ["constructor"] e)
  = Ok [ {| tag := "constructor"; count := Proto "constructor" |} ]
  ∧ matching "constructor"
      (flat_map leaves_of [ JObject [ ("tags", JArray [ JString "constructor" ]) ] ])
    = [ "constructor" ].
Proof.
  cbv zeta. rewrite setData_array. cbn [after].
  set (docs := [ JObject _ ]).
  set (e := {| data := Some docs; cache := cache constructor |}).
  destruct (process_returns ["constructor"] e docs eq_refl eq_refl) as (st & Hp & _).
  unfold process. rewrite Hp. cbn [fst ret].
  replace (answers ["constructor"] (cache e) docs)
    with [ {| tag := "constructor"; count := Proto "constructor" |} ]
    by (vm_compute; reflexivity).
  rewrite sort_singleton. split; reflexivity.
Qed.

End Returned.

(** With the shifting insertion sort, a result whose counts are all
    numbers comes back with its counts descending: that sort asks whether
    the comparator's result is positive, which is the case exactly when
    the first count is below the second. *)
Lemma shifting_descending (l : list entry) :
  (∀ x, x ∈ l → ∃ n, count x = Num n) →
  descending (shifting_sort comparator l).
Proof.
  intros Hnum.
  assert (∀ x y n m, count x = Num n → count y = Num m →
            (gtCF comparator x y ↔ n < m)) as Habove.
  { intros x y n m Hx Hy. unfold gtCF, comparator. rewrite Hx, Hy. cbn [js_lt].
    destruct (Nat.ltb_spec n m); cbn [Z.b2z]; split; intros; try lia. }
  assert (StronglySorted (fun a b => ¬ gtCF comparator a b)
            (shifting_sort comparator l)) as Hs.
  { apply shifting_sort_sorted.
    - intros a b Ha Hb. destruct (Hnum a Ha) as [n Hn], (Hnum b Hb) as [m Hm].
      rewrite (Habove a b n m Hn Hm), (Habove b a m n Hm Hn). lia.
    - intros a b c Ha Hb Hc.
      destruct (Hnum a Ha) as [n Hn], (Hnum b Hb) as [m Hm], (Hnum c Hc) as [k Hk].
      rewrite (Habove a b n m Hn Hm), (Habove b c m k Hm Hk), (Habove a c n k Hn Hk).
      lia. }
  intros i j a b Hij Hi Hj.
  destruct (shifting_sort comparator l !! i) as [ x | ] eqn:Hx; [ | discriminate ].
  destruct (shifting_sort comparator l !! j) as [ y | ] eqn:Hy; [ | discriminate ].
  cbn in Hi, Hj. injection Hi as Hi. injection Hj as Hj.
  pose proof (sorted_lookup _ _ i j x y Hs Hij Hx Hy) as Hxy.
  cbv beta in Hxy. rewrite (Habove x y a b Hi Hj) in Hxy. lia.
Qed.

Lemma answers_tag_in tags c docs x : x ∈ answers tags c docs → tag x ∈ tags.
Proof.
  intros Hx. unfold answers in Hx. apply elem_of_app in Hx as [ Hx | Hx ].
  - apply hits_elem in Hx as (Hin & _). exact Hin.
  - apply list_elem_of_fmap in Hx as (t & -> & Ht).
    apply misses_elem in Ht as [Ht _]. exact Ht.
Qed.

Lemma answers_numeric tags c docs x :
  x ∈ answers tags c docs → inherited (tag x) = false → ∃ n, count x = Num n.
Proof.
  intros Hx Hinh. unfold answers in Hx. apply elem_of_app in Hx as [ Hx | Hx ].
  - apply hits_elem in Hx as (_ & Hget & _). unfold get in Hget.
    destruct (c !! tag x) as [ n | ].
    + exists n. congruence.
    + rewrite Hinh in Hget. discriminate.
  - apply list_elem_of_fmap in Hx as (t & -> & _). eexists. reflexivity.
Qed.

(** X11. On a runtime with that sort the array [process] returns is
    sorted by count descending, for tags that are no members of
    [Object.prototype]. *)
Lemma shifting_runtime_descends (tags : list string) (e : engine) (docs : list value) :
  data e = Some docs → existsb trapped docs = false →
  (∀ t, t ∈ tags → inherited t = false) →
  ∃ res, ret (process (runtime := shifting) tags e) = Ok res ∧ descending res.
Proof.
  intros Hd Htrap Hplain.
  destruct (process_returns (runtime := shifting) tags e docs Hd Htrap) as (st & Hp & _).
  unfold process. rewrite Hp. cbn [fst ret]. eexists. split; [ reflexivity | ].
  apply shifting_descending. intros x Hx.
  apply (answers_numeric tags (cache e) docs x Hx).
  apply Hplain. exact (answers_tag_in _ _ _ _ Hx).
Qed.

(** C4 on a corpus that gives three tags the counts 1, 2 and 3.  With
    a [sort] that meets the contract of ECMAScript and only asks whether
    the comparator's result is negative (the insertion sort, which on
    this comparator leaves the array as V8's TimSort does), the array
    comes back in the order the tags were asked, counts ascending.  The
    contract promises nothing here, the comparator being no consistent
    comparison function; with the shifting insertion sort the same call
    returns the counts descending. *)
Theorem boolean_comparator_leaves_order :
  let e := {| data := Some [ JObject [ ("t", JArray [ JString "a b c"; JString "b c";
                                                     JString "c" ]) ] ];
              cache := ∅ |} in
  let res := [ {| tag := "a"; count := Num 1 |};
               {| tag := "b"; count := Num 2 |};
               {| tag := "c"; count := Num 3 |} ] in
  ret (process (runtime := insertion) ["a"; "b"; "c"] e) = Ok res
  ∧ ¬ descending res
  ∧ ¬ consistent comparator res
  ∧ ret (process (runtime := shifting) ["a"; "b"; "c"] e) = Ok (rev res).
Proof.
  cbv zeta. split; [ vm_compute; reflexivity | split; [ | split ] ].
  - intros Hdesc.
    specialize (Hdesc 0 1 1 2 (Nat.lt_0_1) eq_refl eq_refl). lia.
  - apply (comparator_not_consistent _
             {| tag := "a"; count := Num 1 |} {| tag := "b"; count := Num 2 |} 1 2);
      [ left | right; left | reflexivity | reflexivity | lia ].
  - vm_compute. reflexivity.
Qed.

End TagsFinderSpec.

(* ===================================================================== *)
(** ** The specification of the loader, on the code *)
(* ===================================================================== *)

Module DataLoaderSpec.
Import JS DataLoader.

Lemma exec_app body1 body2 w :
  exec (body1 ++ body2) w = exec body2 (exec body1 w).
Proof. unfold exec. apply fold_left_app. Qed.

Lemma exec_halted body w : halted w = true → exec body w = w.
Proof.
  intros Hh. induction body as [ | stmt body IH ]; [ reflexivity | ].
  unfold exec in *. cbn [fold_left]. rewrite Hh. exact IH.
Qed.

(** A property that every statement of a callback keeps is kept by the
    callback. *)
Lemma exec_preserves (P : world → Prop) body w :
  P w →
  Forall (fun stmt => ∀ w, halted w = false → P w → P (stmt w)) body →
  P (exec body w).
Proof.
  intros HP Hbody. revert w HP.
  induction Hbody as [ | stmt body Hstmt _ IH ]; intros w HP; [ exact HP | ].
  unfold exec in *. cbn [fold_left].
  destruct (halted w) eqn:Hh; apply IH; [ exact HP | apply Hstmt; assumption ].
Qed.

Lemma ready_in_app lg o : ready_in (lg ++ [o]) = ready_in lg || is_ready o.
Proof. unfold ready_in. rewrite existsb_app. simpl. rewrite orb_false_r. reflexivity. Qed.

Lemma fatal_in_app lg o : fatal_in (lg ++ [o]) = fatal_in lg || is_fatal o.
Proof. unfold fatal_in. rewrite existsb_app. simpl. rewrite orb_false_r. reflexivity. Qed.

Section Statements.
Context (c0 : loc) (ex : bool).

Lemma with_pending_inv f w : invariant c0 ex w → invariant c0 ex (with_pending f w).
Proof. intros [H1 H2 H3 H4 H5]. constructor; assumption. Qed.

Lemma with_heap_inv f w : invariant c0 ex w → invariant c0 ex (with_heap f w).
Proof. intros [H1 H2 H3 H4 H5]. constructor; assumption. Qed.

Lemma fresh_timer_inv w : invariant c0 ex w → invariant c0 ex (fresh_timer w).
Proof. intros [H1 H2 H3 H4 H5]. constructor; assumption. Qed.

Lemma halt_inv w : invariant c0 ex w → invariant c0 ex (halt w).
Proof.
  intros [H1 H2 H3 H4 H5]. constructor; try assumption.
  intros _ Hh. discriminate.
Qed.

Lemma with_self_inv f w :
  (∀ s, cache (f s) = cache s ∧ cacheReady (f s) = cacheReady s) →
  invariant c0 ex w → invariant c0 ex (with_self f w).
Proof.
  intros Hf [H1 H2 H3 H4 H5]. destruct (Hf (self w)) as [Hc Hr].
  constructor; cbn [with_self self log fatal_exits halted]; try assumption.
  - rewrite Hc. exact H1.
  - rewrite Hr. exact H4.
Qed.

Lemma put_inv o w :
  is_ready o = false → is_fatal o = false →
  invariant c0 ex w → invariant c0 ex (put o w).
Proof.
  intros Hr Hf [H1 H2 H3 H4 H5].
  constructor; cbn [put self log fatal_exits halted]; try assumption.
  - intros corpus held Hin. apply elem_of_app in Hin as [ Hin | Hin ].
    + exact (H3 _ _ Hin).
    + apply list_elem_of_singleton in Hin. subst o. discriminate.
  - rewrite ready_in_app, Hr, orb_false_r. exact H4.
  - intros He Hh. rewrite fatal_in_app, Hf, orb_false_r. auto.
Qed.

Lemma emit_fatal_inv ev w :
  is_fatal (Emit ev) = true →
  invariant c0 ex w → invariant c0 ex (emit_fatal ev w).
Proof.
  intros Hf [H1 H2 H3 H4 H5]. unfold emit_fatal.
  assert (is_ready (Emit ev) = false) as Hr by (destruct ev; try reflexivity; discriminate).
  cbn [put fatal_exits]. rewrite H2.
  destruct ex; constructor;
    cbn [halt put self log fatal_exits halted]; try assumption.
  - intros corpus held Hin. apply elem_of_app in Hin as [ Hin | Hin ].
    + exact (H3 _ _ Hin).
    + apply list_elem_of_singleton in Hin. injection Hin as <-. discriminate.
  - rewrite ready_in_app, Hr, orb_false_r. exact H4.
  - intros _ Hh. discriminate.
  - intros corpus held Hin. apply elem_of_app in Hin as [ Hin | Hin ].
    + exact (H3 _ _ Hin).
    + apply list_elem_of_singleton in Hin. injection Hin as <-. discriminate.
  - rewrite ready_in_app, Hr, orb_false_r. exact H4.
  - intros He. discriminate.
Qed.

Lemma clearTimeout_inv w : invariant c0 ex w → invariant c0 ex (clearTimeout w).
Proof.
  intros Hinv. unfold clearTimeout.
  destruct (safety (self w)); [ apply with_pending_inv | ]; exact Hinv.
Qed.

Lemma clearTimeout_fields w :
  self (clearTimeout w) = self w ∧ log (clearTimeout w) = log w
  ∧ halted (clearTimeout w) = halted w
  ∧ fatal_exits (clearTimeout w) = fatal_exits w
  ∧ heap (clearTimeout w) = heap w.
Proof.
  unfold clearTimeout. destruct (safety (self w)); repeat split; reflexivity.
Qed.

(** Emitting ['ready'] and then setting [cacheReady], as the listener
    of ['fileprocessed'] does. *)
Lemma announce_eq w :
  halted w = false →
  exec [ (fun w => put (Emit (Ready (cache (self w)) (the_cache w))) w);
         clearTimeout;
         with_self set_ready ] w
  = with_self set_ready
      (clearTimeout (put (Emit (Ready (cache (self w)) (the_cache w))) w)).
Proof.
  intros Hh. unfold exec. cbn [fold_left]. rewrite Hh.
  destruct (clearTimeout_fields (put (Emit (Ready (cache (self w)) (the_cache w))) w))
    as (_ & _ & Hh' & _).
  cbn [put halted] in *. rewrite Hh in *. rewrite Hh'. reflexivity.
Qed.

Lemma announce_inv w :
  halted w = false →
  invariant c0 ex w →
  invariant c0 ex
    (exec [ (fun w => put (Emit (Ready (cache (self w)) (the_cache w))) w);
            clearTimeout;
            with_self set_ready ] w).
Proof.
  intros Hh [H1 H2 H3 H4 H5]. rewrite announce_eq by exact Hh.
  destruct (clearTimeout_fields (put (Emit (Ready (cache (self w)) (the_cache w))) w))
    as (Hs & Hl & Hh' & He & _).
  constructor; cbn [with_self self log fatal_exits halted cache cacheReady].
  - rewrite Hs. exact H1.
  - rewrite He. exact H2.
  - rewrite Hl. cbn [put log]. intros corpus held Hin.
    apply elem_of_app in Hin as [ Hin | Hin ].
    + exact (H3 _ _ Hin).
    + apply list_elem_of_singleton in Hin. injection Hin as -> _. exact H1.
  - rewrite Hl. cbn [put log]. rewrite ready_in_app. apply orb_true_r.
  - rewrite Hl, Hh'. cbn [put log halted]. intros Hex Hhalt.
    rewrite fatal_in_app. cbn [is_fatal]. rewrite orb_false_r. auto.
Qed.

Lemma fileprocessed_inv isSuccess object w :
  invariant c0 ex w → invariant c0 ex (fileprocessed isSuccess object w).
Proof.
  intros Hinv. unfold fileprocessed. apply exec_preserves; [ exact Hinv | ].
  statements.
  - intros w' _ Hw'. destruct isSuccess; [ apply with_heap_inv | ]; exact Hw'.
  - intros w' _ Hw'. apply with_self_inv; [ | exact Hw' ].
    intros s. split; reflexivity.
  - intros w' Hh Hw'.
    destruct (Nat.eqb _ _); [ apply announce_inv; assumption | exact Hw' ].
Qed.

Lemma loadFiles_inv w : invariant c0 ex w → invariant c0 ex (loadFiles w).
Proof.
  intros Hinv. unfold loadFiles. destruct (cacheReady (self w)) eqn:Hready.
  - destruct Hinv as [H1 H2 H3 H4 H5].
    constructor; cbn [put self log fatal_exits halted]; try assumption.
    + intros corpus held Hin. apply elem_of_app in Hin as [ Hin | Hin ].
      * exact (H3 _ _ Hin).
      * apply list_elem_of_singleton in Hin. injection Hin as -> _. exact H1.
    + rewrite ready_in_app, Hready. apply orb_true_r.
    + intros He Hh. rewrite fatal_in_app. cbn [is_fatal].
      rewrite orb_false_r. auto.
  - apply exec_preserves; [ exact Hinv | ].
    statements.
    + intros w' _ Hw'. apply with_self_inv; [ | exact Hw' ].
      intros s. split; reflexivity.
    + intros w' _ Hw'. apply with_pending_inv. exact Hw'.
    + intros w' _ Hw'. apply fresh_timer_inv. exact Hw'.
    + intros w' _ Hw'. apply put_inv; [ reflexivity | reflexivity | exact Hw' ].
    + intros w' _ Hw'. apply with_pending_inv. exact Hw'.
Qed.

Lemma on_watchdog_inv w : invariant c0 ex w → invariant c0 ex (on_watchdog w).
Proof.
  intros Hinv. unfold on_watchdog. apply exec_preserves; [ exact Hinv | ].
  statements. intros w' _ Hw'. apply emit_fatal_inv; [ reflexivity | exact Hw' ].
Qed.

Lemma on_listing_inv r w : invariant c0 ex w → invariant c0 ex (on_listing r w).
Proof.
  intros Hinv. unfold on_listing. destruct r as [ files | ].
  - rewrite !exec_app.
    apply exec_preserves.
    + apply exec_preserves.
      * apply exec_preserves; [ exact Hinv | ].
        destruct (Nat.ltb _ _); statements.
        intros w' _ Hw'. apply emit_fatal_inv; [ reflexivity | exact Hw' ].
      * statements. intros w' _ Hw'. apply with_self_inv; [ | exact Hw' ].
        intros s. split; reflexivity.
    + apply Forall_forall. intros stmt Hin w' _ Hw'.
      apply list_elem_of_In, in_map_iff in Hin as (file & <- & _).
      apply with_pending_inv. exact Hw'.
  - apply exec_preserves; [ exact Hinv | ].
    statements.
    + intros w' _ Hw'. apply emit_fatal_inv; [ reflexivity | exact Hw' ].
    + intros w' _ Hw'. apply emit_fatal_inv; [ reflexivity | exact Hw' ].
    + intros w' _ Hw'. apply put_inv; [ reflexivity | reflexivity | exact Hw' ].
    + intros w' _ Hw'. apply halt_inv. exact Hw'.
Qed.

Lemma on_start_inv file w : invariant c0 ex w → invariant c0 ex (on_start file w).
Proof.
  intros Hinv. unfold on_start. apply exec_preserves; [ exact Hinv | ].
  statements.
  - intros w' _ Hw'. apply put_inv; [ reflexivity | reflexivity | exact Hw' ].
  - intros w' _ Hw'. apply with_pending_inv. exact Hw'.
Qed.

Lemma on_read_inv file r w : invariant c0 ex w → invariant c0 ex (on_read file r w).
Proof.
  intros Hinv. unfold on_read.
  destruct r; (apply exec_preserves; [ exact Hinv | ]); statements;
    intros w' _ Hw';
    first [ apply fileprocessed_inv; exact Hw'
          | apply put_inv; [ reflexivity | reflexivity | exact Hw' ] ].
Qed.

Lemma step_inv w l w' :
  invariant c0 ex w → step w l = Some w' → invariant c0 ex w'.
Proof.
  intros Hinv Hstep. unfold step in Hstep.
  destruct (halted w); [ discriminate | ].
  destruct l as [ | id | r | file | file r ]; cbn [mbind option_bind] in Hstep.
  - injection Hstep as <-. apply loadFiles_inv. exact Hinv.
  - destruct (take _ _) as [ p | ]; [ | discriminate ].
    injection Hstep as <-. apply on_watchdog_inv, with_pending_inv. exact Hinv.
  - destruct (take _ _) as [ p | ]; [ | discriminate ].
    injection Hstep as <-. apply on_listing_inv, with_pending_inv. exact Hinv.
  - destruct (take _ _) as [ p | ]; [ | discriminate ].
    injection Hstep as <-. apply on_start_inv, with_pending_inv. exact Hinv.
  - destruct (take _ _) as [ p | ]; [ | discriminate ].
    injection Hstep as <-. apply on_read_inv, with_pending_inv. exact Hinv.
Qed.

Lemma run_inv ls w w' :
  invariant c0 ex w → run w ls = Some w' → invariant c0 ex w'.
Proof.
  revert w. induction ls as [ | l ls IH ]; intros w Hinv Hrun; cbn [run] in Hrun.
  - injection Hrun as <-. exact Hinv.
  - destruct (step w l) as [ w1 | ] eqn:Hstep; [ | discriminate ].
    cbn [mbind option_bind] in Hrun.
    apply (IH w1); [ apply (step_inv w l); assumption | exact Hrun ].
Qed.

End Statements.

Lemma constructor_inv d h ex : invariant (length h) ex (constructor d h ex).
Proof.
  constructor; try reflexivity.
  - intros corpus held Hin. inversion Hin.
Qed.

(** Every world a loader can be in. *)
Lemma reachable_inv d h ex ls w :
  run (constructor d h ex) ls = Some w → invariant (length h) ex w.
Proof. apply run_inv, constructor_inv. Qed.

Lemma fatal_in_filter lg : fatal_in lg = false → List.filter is_fatal lg = [].
Proof.
  induction lg as [ | o lg IH ]; [ reflexivity | ].
  unfold fatal_in in *. cbn [existsb List.filter].
  destruct (is_fatal o); [ discriminate | exact IH ].
Qed.

(** *** One load cycle *)

(** Taking a callback off those owed removes one callback, that one. *)
Lemma take_count (q : task → bool) t p p' :
  take t p = Some p' →
  length (List.filter q p) = (if q t then 1 else 0) + length (List.filter q p').
Proof.
  revert p'. induction p as [ | t' p IH ]; intros p' Ht; [ discriminate | ].
  cbn [take] in Ht. destruct (decide (t = t')) as [ <- | Hne ].
  - injection Ht as <-. cbn [List.filter]. destruct (q t); reflexivity.
  - destruct (take t p) as [ p1 | ]; [ | discriminate ].
    injection Ht as <-. cbn [List.filter].
    destruct (q t'); cbn [length]; rewrite (IH p1 eq_refl); destruct (q t); lia.
Qed.

(** [clearTimeout] removes nothing but the timer. *)
Lemma clear_count (q : task → bool) id p :
  q (Watchdog id) = false →
  List.filter q (filter (fun t => t ≠ Watchdog id) p) = List.filter q p.
Proof.
  intros Hq. induction p as [ | t p IH ]; [ reflexivity | ].
  rewrite filter_cons. destruct (decide (t ≠ Watchdog id)) as [ Hne | Heq ].
  - cbn [List.filter]. rewrite IH. reflexivity.
  - apply dec_stable in Heq. subst t. cbn [List.filter]. rewrite Hq. exact IH.
Qed.

Lemma filter_app_count (q : task → bool) p t :
  length (List.filter q (p ++ [t])) = length (List.filter q p) + (if q t then 1 else 0).
Proof. rewrite List.filter_app, length_app. cbn [List.filter]. destruct (q t); reflexivity. Qed.


(** The callbacks, written out for a process that is running. *)
Lemma loadFiles_launch w :
  halted w = false → cacheReady (self w) = false →
  loadFiles w =
  {| heap := heap w; self := set_safety (timers w) (self w);
     pending := (pending w ++ [Watchdog (timers w)]) ++ [Listing];
     timers := S (timers w);
     log := log w ++ [Fs_readdir (dir (self w))];
     halted := false; fatal_exits := fatal_exits w |}.
Proof.
  intros Hh Hcr. destruct w as [hp [d c cr tp pc sf] pend tm lg hl ex].
  cbn in Hh, Hcr. subst. reflexivity.
Qed.

Lemma on_watchdog_eq w :
  halted w = false →
  on_watchdog w =
  {| heap := heap w; self := self w; pending := pending w; timers := timers w;
     log := log w ++ [Emit Fatal_timeout];
     halted := fatal_exits w; fatal_exits := fatal_exits w |}.
Proof.
  intros Hh. destruct w as [hp s pend tm lg hl ex]. cbn in Hh. subst.
  cbn. destruct ex; reflexivity.
Qed.

Lemma schedule_eq files w :
  halted w = false →
  exec (map (fun file => with_pending (fun p => p ++ [Start file])) files) w =
  with_pending (fun p => p ++ map Start files) w.
Proof.
  revert w. induction files as [ | f files IH ]; intros w Hh.
  - destruct w. unfold exec, with_pending. cbn [map fold_left pending].
    rewrite app_nil_r. reflexivity.
  - unfold exec in *. cbn [map fold_left]. rewrite Hh, IH by exact Hh.
    destruct w. unfold with_pending. cbn [pending]. rewrite <- app_assoc.
    reflexivity.
Qed.

Lemma on_listing_files file files w :
  halted w = false →
  on_listing (Some (file :: files)) w =
  {| heap := heap w; self := set_total (S (length files)) (self w);
     pending := pending w ++ map Start (file :: files);
     timers := timers w; log := log w;
     halted := false; fatal_exits := fatal_exits w |}.
Proof.
  intros Hh. unfold on_listing. cbn [length Nat.ltb Nat.leb app].
  change (exec (?a :: ?l) w) with (exec ([a] ++ l) w).
  rewrite exec_app. rewrite schedule_eq.
  - destruct w as [hp s pend tm lg hl ex]. cbn in Hh. subst. reflexivity.
  - destruct w as [hp s pend tm lg hl ex]. cbn in Hh. subst. reflexivity.
Qed.

Lemma on_listing_stop r w :
  halted w = false → r = None ∨ (r = Some [] ∧ fatal_exits w = true) →
  heap (on_listing r w) = heap w ∧ halted (on_listing r w) = true
  ∧ List.filter is_ready (log (on_listing r w)) = List.filter is_ready (log w).
Proof.
  intros Hh Hr. destruct w as [hp s pend tm lg hl ex]. cbn in Hh. subst.
  destruct Hr as [ -> | [-> Hex] ].
  - cbn. destruct ex; cbn; rewrite !List.filter_app; cbn; rewrite ?app_nil_r; auto.
  - cbn in Hex. subst. cbn. rewrite !List.filter_app; cbn; rewrite ?app_nil_r; auto.
Qed.

Lemma on_listing_empty w :
  halted w = false → fatal_exits w = false →
  on_listing (Some []) w =
  {| heap := heap w; self := set_total 0 (self w);
     pending := pending w;
     timers := timers w; log := log w ++ [Emit Fatal_no_files];
     halted := false; fatal_exits := false |}.
Proof.
  intros Hh Hex. destruct w as [hp s pend tm lg hl ex]. cbn in Hh, Hex. subst.
  reflexivity.
Qed.

Lemma on_start_eq file w :
  halted w = false →
  on_start file w =
  {| heap := heap w; self := self w; pending := pending w ++ [Reading file];
     timers := timers w; log := log w ++ [Fs_readFile file];
     halted := false; fatal_exits := fatal_exits w |}.
Proof.
  intros Hh. destruct w as [hp s pend tm lg hl ex]. cbn in Hh. subst. reflexivity.
Qed.

Lemma fileprocessed_eq (isSuccess : bool) (object : value) (w : world) :
  halted w = false →
  let hp : list (list value) :=
    if isSuccess
    then alter (fun a : list value => a ++ [object]) (cache (self w)) (heap w)
    else heap w in
  fileprocessed isSuccess object w =
  if Nat.eqb (filesToProcessCount (self w)) (filesProcessedCount (self w) + 1)
  then
    {| heap := hp; self := set_ready (counted (self w));
       pending := match safety (self w) with
                  | Some id => filter (fun t => t ≠ Watchdog id) (pending w)
                  | None => pending w
                  end;
       timers := timers w;
       log := log w ++ [Emit (Ready (cache (self w)) (default [] (hp !! cache (self w))))];
       halted := false; fatal_exits := fatal_exits w |}
  else
    {| heap := hp; self := counted (self w); pending := pending w;
       timers := timers w; log := log w;
       halted := false; fatal_exits := fatal_exits w |}.
Proof.
  intros Hh. destruct w as [hp [d c cr tp pc sf] pend tm lg hl ex]. cbn in Hh. subst.
  destruct isSuccess; cbn; destruct (Nat.eqb tp (pc + 1)); cbn; destruct sf; reflexivity.
Qed.

Lemma on_read_eq file r w :
  halted w = false →
  on_read file r w =
  match r with
  | Read_error => fileprocessed false JNull (put (Emit (Error_reading file)) w)
  | Not_json => fileprocessed false JNull (put (Emit (Error_parsing file)) w)
  | Parsed obj => fileprocessed true obj w
  end.
Proof.
  intros Hh. unfold on_read, exec. destruct r; cbn [fold_left]; rewrite Hh;
    cbn [put halted]; try rewrite Hh; reflexivity.
Qed.

Lemma no_ready lg corpus held :
  ready_in lg = false → Emit (Ready corpus held) ∉ lg.
Proof.
  intros Hno Hin. unfold ready_in in Hno.
  assert (existsb is_ready lg = true) as Hyes; [ | congruence ].
  apply existsb_exists. exists (Emit (Ready corpus held)).
  split; [ apply list_elem_of_In; exact Hin | reflexivity ].
Qed.

Lemma ready_filter lg corpus held :
  Emit (Ready corpus held) ∈ lg ↔ Emit (Ready corpus held) ∈ List.filter is_ready lg.
Proof.
  rewrite !list_elem_of_In, List.filter_In. split; [ | intros [H _]; exact H ].
  intros H. split; [ exact H | reflexivity ].
Qed.

Lemma starts_listing files : List.filter is_listing (map Start files) = [].
Proof. induction files as [ | f files IH ]; [ reflexivity | exact IH ]. Qed.

Lemma starts_inflight files :
  length (List.filter is_file_task (map Start files)) = length files.
Proof.
  induction files as [ | f files IH ]; [ reflexivity | ].
  cbn [map List.filter is_file_task length]. rewrite IH. reflexivity.
Qed.

(** Every step keeps [cycle], as long as one timer at most has been
    set. *)
Section Cycle.
Context (c0 : loc) (ex : bool).

Lemma loadFiles_cycle w :
  invariant c0 ex w → halted w = false → (timers w ≤ 1 → cycle w) →
  timers (loadFiles w) ≤ 1 → cycle (loadFiles w).
Proof.
  intros Hinv Hh Hc Ht.
  destruct (cacheReady (self w)) eqn:Hcr.
  - unfold loadFiles in *. rewrite Hcr in *. cbn [put timers] in Ht.
    destruct (Hc Ht) as [K1 K2 K3].
    constructor; cbn [put log self pending halted].
    + intros corpus held Hin. apply elem_of_app in Hin as [ Hin | Hin ].
      * exact (K1 _ _ Hin).
      * apply list_elem_of_singleton in Hin. injection Hin as _ ->. reflexivity.
    + exact K2.
    + intros _ Hcr'. congruence.
  - rewrite loadFiles_launch in * by assumption. cbn [timers] in Ht.
    assert (timers w = 0) as Ht0 by lia.
    destruct (Hc ltac:(lia)) as [K1 K2 K3].
    destruct (K3 Hh Hcr) as [ (_ & Hp & Hpc) | [ (Ht1 & _) | (Ht1 & _) ] ]; try lia.
    constructor; cbn [log self pending halted cacheReady timers set_safety].
    + intros corpus held Hin. apply elem_of_app in Hin as [ Hin | Hin ].
      * exact (K1 _ _ Hin).
      * apply list_elem_of_singleton in Hin. discriminate.
    + intros _ Hcr'. congruence.
    + intros _ _. right. left. cbn [timers pending self filesProcessedCount set_safety].
      rewrite Hp, Ht0. repeat split; try reflexivity. exact Hpc.
Qed.

Lemma step_cycle w l w' :
  invariant c0 ex w → (timers w ≤ 1 → cycle w) →
  step w l = Some w' → timers w' ≤ 1 → cycle w'.
Proof.
  intros Hinv Hc Hstep Ht.
  pose proof (step_inv c0 ex w l w' Hinv Hstep) as Hinv'.
  unfold step in Hstep. destruct (halted w) eqn:Hh; [ discriminate | ].
  destruct l as [ | id | r | file | file r ]; cbn [mbind option_bind] in Hstep.
  - injection Hstep as <-. apply loadFiles_cycle; assumption.
  - (* the deadline *)
    destruct (take _ _) as [ p | ] eqn:Htake; [ | discriminate ].
    injection Hstep as <-.
    rewrite on_watchdog_eq in * by exact Hh.
    cbn [timers with_pending] in Ht. destruct (Hc Ht) as [K1 K2 K3].
    pose proof (take_count is_file_task _ _ _ Htake) as Hfile.
    pose proof (take_count is_listing _ _ _ Htake) as Hlist.
    cbn [is_file_task is_listing] in Hfile, Hlist.
    constructor; cbn [with_pending log self pending halted heap timers].
    + intros corpus held Hin. apply elem_of_app in Hin as [ Hin | Hin ].
      * exact (K1 _ _ Hin).
      * apply list_elem_of_singleton in Hin. discriminate.
    + intros _ Hcr. destruct (K2 Hh Hcr). unfold inflight, listing in *. lia.
    + intros _ Hcr.
      destruct (K3 Hh Hcr) as [ (_ & Hp & _) | [ (? & ? & ? & ?) | (? & ? & ?) ] ].
      * rewrite Hp in Htake. discriminate.
      * right. left. unfold inflight, listing in *.
        cbn [timers pending self]. repeat split; lia.
      * right. right. unfold inflight, listing in *.
        cbn [timers pending self]. repeat split; lia.
  - (* the listing *)
    destruct (take _ _) as [ p | ] eqn:Htake; [ | discriminate ].
    injection Hstep as <-.
    assert (timers w ≤ 1) as Htw.
    { destruct r as [ [ | f fs ] | ]; [ destruct (fatal_exits w) eqn:Hex | | ].
      - revert Ht. destruct w as [hp s pend tm lg hl e]. cbn in *. subst. cbn. auto.
      - rewrite on_listing_empty in Ht by assumption. exact Ht.
      - rewrite on_listing_files in Ht by assumption. exact Ht.
      - revert Ht. destruct w as [hp s pend tm lg hl e]. cbn in *. subst.
        destruct e; cbn; auto. }
    destruct (Hc Htw) as [K1 K2 K3].
    pose proof (take_count is_file_task _ _ _ Htake) as Hfile.
    pose proof (take_count is_listing _ _ _ Htake) as Hlist.
    cbn [is_file_task is_listing] in Hfile, Hlist.
    assert (cacheReady (self w) = false) as Hcr.
    { destruct (cacheReady (self w)) eqn:Hcr; [ | reflexivity ].
      destruct (K2 Hh eq_refl). unfold listing in *. lia. }
    assert (listing p = 0 ∧ inflight p = 0 ∧ filesProcessedCount (self w) = 0
            ∧ timers w = 1) as (Hl0 & Hi0 & Hp0 & Ht1).
    { destruct (K3 Hh Hcr) as [ (_ & Hp & _) | [ (? & ? & ? & ?) | (? & ? & ?) ] ].
      - rewrite Hp in Htake. discriminate.
      - unfold inflight, listing in *. repeat split; lia.
      - unfold listing in *. lia. }
    assert (∀ r', r' = None ∨ (r' = Some [] ∧ fatal_exits w = true) →
            cycle (on_listing r' (with_pending (fun _ => p) w))) as Hstop.
    { intros r' Hr'.
      destruct (on_listing_stop r' (with_pending (fun _ => p) w) Hh Hr')
        as (Hheap & Hhalt & Hlog).
      assert (cache (self (on_listing r' (with_pending (fun _ => p) w))) = cache (self w))
        as Hcache.
      { rewrite (inv_cache _ _ _ Hinv).
        apply (inv_cache c0 ex). apply on_listing_inv, with_pending_inv. exact Hinv. }
      constructor.
      - intros corpus held Hin. apply ready_filter in Hin. rewrite Hlog in Hin.
        apply ready_filter in Hin. unfold the_cache. rewrite Hheap, Hcache.
        exact (K1 _ _ Hin).
      - intros Hno. congruence.
      - intros Hno. congruence. }
    destruct r as [ [ | f fs ] | ].
    + destruct (fatal_exits w) eqn:Hex; [ apply Hstop; right; auto | ].
      rewrite on_listing_empty by assumption.
      constructor; cbn [with_pending log self pending halted heap timers set_total
                        cacheReady filesProcessedCount filesToProcessCount].
      * intros corpus held Hin. apply elem_of_app in Hin as [ Hin | Hin ].
        -- exact (K1 _ _ Hin).
        -- apply list_elem_of_singleton in Hin. discriminate.
      * congruence.
      * intros _ _. right. right. cbn [timers pending self set_total
                        filesProcessedCount filesToProcessCount].
        repeat split; lia.
    + rewrite on_listing_files by assumption.
      constructor; cbn [with_pending log self pending halted heap timers set_total
                        cacheReady filesProcessedCount filesToProcessCount].
      * exact K1.
      * congruence.
      * intros _ _. right. right. cbn [timers pending self set_total
                        filesProcessedCount filesToProcessCount].
        unfold inflight, listing in *.
        rewrite !List.filter_app, !length_app.
        rewrite starts_listing, starts_inflight.
        cbn [length]. repeat split; lia.
    + apply Hstop. left. reflexivity.
  - (* a file task starts *)
    destruct (take _ _) as [ p | ] eqn:Htake; [ | discriminate ].
    injection Hstep as <-.
    rewrite on_start_eq in * by exact Hh.
    cbn [timers with_pending] in Ht. destruct (Hc Ht) as [K1 K2 K3].
    pose proof (take_count is_file_task _ _ _ Htake) as Hfile.
    pose proof (take_count is_listing _ _ _ Htake) as Hlist.
    cbn [is_file_task is_listing] in Hfile, Hlist.
    assert (cacheReady (self w) = false) as Hcr.
    { destruct (cacheReady (self w)) eqn:Hcr; [ | reflexivity ].
      destruct (K2 Hh eq_refl). unfold inflight in *. lia. }
    constructor; cbn [with_pending log self pending halted heap timers].
    + intros corpus held Hin. apply elem_of_app in Hin as [ Hin | Hin ].
      * exact (K1 _ _ Hin).
      * apply list_elem_of_singleton in Hin. discriminate.
    + congruence.
    + intros _ _.
      destruct (K3 Hh Hcr) as [ (_ & Hp & _) | [ (? & ? & ? & ?) | (? & ? & ?) ] ].
      * rewrite Hp in Htake. discriminate.
      * unfold inflight in *. lia.
      * right. right. unfold inflight, listing in *.
        cbn [timers pending self]. rewrite !filter_app_count.
        cbn [is_file_task is_listing]. repeat split; lia.
  - (* a file has been read *)
    destruct (take _ _) as [ p | ] eqn:Htake; [ | discriminate ].
    injection Hstep as <-.
    pose proof (take_count is_file_task _ _ _ Htake) as Hfile.
    pose proof (take_count is_listing _ _ _ Htake) as Hlist.
    cbn [is_file_task is_listing] in Hfile, Hlist.
    rewrite on_read_eq in * by exact Hh.
    set (w1 := match r with
               | Read_error => put (Emit (Error_reading file)) (with_pending (fun _ => p) w)
               | Not_json => put (Emit (Error_parsing file)) (with_pending (fun _ => p) w)
               | Parsed _ => with_pending (fun _ => p) w
               end).
    set (ok := match r with Parsed _ => true | _ => false end).
    set (obj := match r with Parsed o => o | _ => JNull end).
    assert (fileprocessed ok obj w1 =
            match r with
            | Read_error =>
                fileprocessed false JNull
                  (put (Emit (Error_reading file)) (with_pending (fun _ => p) w))
            | Not_json =>
                fileprocessed false JNull
                  (put (Emit (Error_parsing file)) (with_pending (fun _ => p) w))
            | Parsed o => fileprocessed true o (with_pending (fun _ => p) w)
            end) as Heq by (destruct r; reflexivity).
    rewrite <- Heq in *. clear Heq.
    assert (halted w1 = false ∧ self w1 = self w ∧ heap w1 = heap w
            ∧ pending w1 = p ∧ timers w1 = timers w
            ∧ ready_in (log w1) = ready_in (log w)) as (Hh1 & Hs1 & Hhp1 & Hp1 & Ht1 & Hr1).
    { unfold w1. destruct r; cbn [put with_pending halted self heap pending timers log];
        rewrite ?ready_in_app; cbn [is_ready]; rewrite ?orb_false_r; repeat split; auto. }
    clearbody w1 ok obj.
    rewrite fileprocessed_eq in * by exact Hh1. cbv zeta in *.
    rewrite Hs1, Hp1, Ht1 in *.
    assert (timers w ≤ 1) as Htw
      by (destruct (Nat.eqb _ _); cbn [timers] in Ht; exact Ht).
    destruct (Hc Htw) as [K1 K2 K3].
    assert (cacheReady (self w) = false) as Hcr.
    { destruct (cacheReady (self w)) eqn:Hcr; [ | reflexivity ].
      destruct (K2 Hh eq_refl). unfold inflight in *. lia. }
    assert (ready_in (log w1) = false) as Hnone
      by (rewrite Hr1, (inv_ready _ _ _ Hinv); exact Hcr).
    assert (listing p = 0 ∧
            inflight p + (filesProcessedCount (self w) + 1) = filesToProcessCount (self w)
            ∧ timers w = 1) as (Hl0 & Hsum & Htm).
    { destruct (K3 Hh Hcr) as [ (_ & Hp & _) | [ (? & ? & ? & ?) | (? & ? & ?) ] ].
      - rewrite Hp in Htake. discriminate.
      - unfold inflight in *. lia.
      - unfold inflight, listing in *. repeat split; lia. }
    destruct (Nat.eqb (filesToProcessCount (self w)) (filesProcessedCount (self w) + 1))
      eqn:Hdone.
    + apply Nat.eqb_eq in Hdone.
      constructor; cbn [log self pending halted heap timers set_ready counted
                        cacheReady cache].
      * intros corpus held Hin. apply elem_of_app in Hin as [ Hin | Hin ].
        -- exfalso. exact (no_ready _ _ _ Hnone Hin).
        -- apply list_elem_of_singleton in Hin. injection Hin as _ ->.
           unfold the_cache. cbn [heap self set_ready counted cache]. reflexivity.
      * intros _ _. unfold inflight, listing in *.
        destruct (safety (self w)); rewrite ?clear_count by reflexivity; lia.
      * congruence.
    + constructor; cbn [log self pending halted heap timers counted cacheReady cache].
      * intros corpus held Hin. exfalso. exact (no_ready _ _ _ Hnone Hin).
      * congruence.
      * intros _ _. right. right.
        cbn [timers pending self counted filesProcessedCount filesToProcessCount].
        repeat split; lia.
Qed.

End Cycle.

Lemma constructor_cycle d h ex : cycle (constructor d h ex).
Proof.
  constructor.
  - intros corpus held Hin. inversion Hin.
  - discriminate.
  - intros _ _. left. repeat split; reflexivity.
Qed.

Lemma run_cycle c0 ex ls w w' :
  invariant c0 ex w → (timers w ≤ 1 → cycle w) →
  run w ls = Some w' → timers w' ≤ 1 → cycle w'.
Proof.
  revert w. induction ls as [ | l ls IH ]; intros w Hinv Hc Hrun; cbn [run] in Hrun.
  - injection Hrun as <-. exact Hc.
  - destruct (step w l) as [ w1 | ] eqn:Hstep; [ | discriminate ].
    cbn [mbind option_bind] in Hrun.
    apply (IH w1); [ apply (step_inv c0 ex w l); assumption | | exact Hrun ].
    apply (step_cycle c0 ex w l); assumption.
Qed.

(** With [loadFiles] called once before ['ready'] (one timer was ever
    set), every ['ready'] of the run was emitted with the documents the
    array holds now: nothing is added to the corpus after ['ready']. *)
Lemma single_cycle_same_documents d h ex ls w :
  run (constructor d h ex) ls = Some w → timers w ≤ 1 →
  ∀ corpus held, Emit (Ready corpus held) ∈ log w → held = the_cache w.
Proof.
  intros Hrun Ht.
  apply (k_held w).
  apply (run_cycle (length h) ex ls (constructor d h ex) w);
    [ apply constructor_inv | intros _; apply constructor_cycle | exact Hrun | exact Ht ].
Qed.

(** A process that has ended runs no callback. *)
Lemma halted_stuck w l : halted w = true → step w l = None.
Proof. intros Hh. unfold step. rewrite Hh. reflexivity. Qed.

(** C9, amended. Once ['ready'] has been emitted, a call of [loadFiles]
    emits ['ready'] again and does nothing else: it calls neither [fs.readdir]
    nor [fs.readFile], sets no timer and leaves the loader and the store
    as they were; and the array it hands over is [this.cache], the one
    every earlier ['ready'] of this loader carried.  When [loadFiles] had
    been called once before ['ready'] (one timer was ever set), the array
    also holds the very documents it held at every earlier ['ready']. *)
Theorem loadFiles_after_ready (d : string) (h : list (list value)) (ex : bool)
  (ls : list label) (w : world) :
  run (constructor d h ex) ls = Some w →
  halted w = false →
  ready_in (log w) = true →
  ∃ w',
    step w Call_loadFiles = Some w'
    ∧ log w' = log w ++ [ Emit (Ready (cache (self w)) (the_cache w)) ]
    ∧ List.filter is_fs (log w') = List.filter is_fs (log w)
    ∧ heap w' = heap w ∧ self w' = self w
    ∧ pending w' = pending w ∧ timers w' = timers w
    ∧ (∀ corpus held, Emit (Ready corpus held) ∈ log w' → corpus = cache (self w))
    ∧ (timers w ≤ 1 →
       ∀ corpus held, Emit (Ready corpus held) ∈ log w' → held = the_cache w).
Proof.
  intros Hrun Hh Hready.
  pose proof (reachable_inv d h ex ls w Hrun) as Hinv.
  assert (cacheReady (self w) = true) as Hcr
    by (rewrite <- (inv_ready _ _ _ Hinv); exact Hready).
  exists (loadFiles w). unfold step. rewrite Hh.
  split; [ reflexivity | ].
  pose proof (loadFiles_inv _ _ _ Hinv) as Hinv'.
  unfold loadFiles in *. rewrite Hcr in *. cbn [put log heap self pending timers] in *.
  split; [ reflexivity | ].
  split; [ rewrite List.filter_app; cbn [List.filter is_fs]; apply app_nil_r | ].
  repeat (split; [ reflexivity | ]).
  split.
  - intros corpus held Hin. rewrite (inv_cache _ _ _ Hinv).
    exact (inv_refs _ _ _ Hinv' corpus held Hin).
  - intros Ht corpus held Hin. apply elem_of_app in Hin as [ Hin | Hin ].
    + exact (single_cycle_same_documents d h ex ls w Hrun Ht corpus held Hin).
    + apply list_elem_of_singleton in Hin. injection Hin as _ ->. reflexivity.
Qed.

Lemma loadFiles_after_ready_witness :
  ∃ w',
    step two_files_read Call_loadFiles = Some w'
    ∧ log w' = log two_files_read
               ++ [ Emit (Ready (cache (self two_files_read)) (the_cache two_files_read)) ]
    ∧ List.filter is_fs (log w') = List.filter is_fs (log two_files_read)
    ∧ heap w' = heap two_files_read ∧ self w' = self two_files_read
    ∧ pending w' = pending two_files_read ∧ timers w' = timers two_files_read
    ∧ (∀ corpus held, Emit (Ready corpus held) ∈ log w' →
         corpus = cache (self two_files_read))
    ∧ (timers two_files_read ≤ 1 →
       ∀ corpus held, Emit (Ready corpus held) ∈ log w' →
         held = the_cache two_files_read).
Proof.
  apply (loadFiles_after_ready "data" [] true
           [ Call_loadFiles; Listing_done (Some ["a.json"; "b.json"]);
             Start_file "a.json"; Start_file "b.json";
             Read_done "b.json" Not_json; Read_done "a.json" (Parsed JNull) ]).
  - vm_compute. reflexivity.
  - reflexivity.
  - reflexivity.
Defined.

(** C9 as stated fails.  When [loadFiles] is called twice before the
    listing returns, a file read after the first ['ready'] is still
    appended, and the call of [loadFiles] that follows hands over the same
    array with one more document than the first ['ready'] delivered. *)
Lemma overlapping_cycles_grow_the_corpus :
  (fun w => (List.filter is_ready (log w), timers w))
    <$> run (constructor "data" [] true)
          [ Call_loadFiles; Call_loadFiles;
            Listing_done (Some ["a.json"]); Listing_done (Some ["a.json"]);
            Start_file "a.json"; Start_file "a.json";
            Read_done "a.json" (Parsed JNull); Read_done "a.json" (Parsed JNull);
            Call_loadFiles ]
  = Some ([ Emit (Ready 0 [ JNull ]); Emit (Ready 0 [ JNull; JNull ]) ], 2).
Proof. vm_compute. reflexivity. Qed.

(** C2, amended. When the listener of ['fatal'] ends the process, as
    the application's does, the firing of the deadline timer emits
    ['fatal'] and that is the only ['fatal'] of the run; the process has
    ended, so no callback runs after it: no later result is stored and
    nothing more is emitted, and when ['ready'] had not been emitted
    before, it never is.  The loader itself records nothing when the
    timer fires. *)
Theorem watchdog_fatal_ends_the_run (d : string) (h : list (list value))
  (ls : list label) (w w' : world) (id : nat) :
  run (constructor d h true) ls = Some w →
  step w (Fire_watchdog id) = Some w' →
  log w' = log w ++ [ Emit Fatal_timeout ]
  ∧ length (List.filter is_fatal (log w')) = 1
  ∧ halted w' = true
  ∧ heap w' = heap w ∧ self w' = self w
  ∧ (∀ l, step w' l = None)
  ∧ (∀ ls', ls' ≠ [] → run w' ls' = None)
  ∧ (cacheReady (self w) = false → ready_in (log w') = false).
Proof.
  intros Hrun Hstep.
  pose proof (reachable_inv d h true ls w Hrun) as Hinv.
  unfold step in Hstep. destruct (halted w) eqn:Hh; [ discriminate | ].
  destruct (take (Watchdog id) (pending w)) as [ p | ]; [ | discriminate ].
  cbn [mbind option_bind] in Hstep. injection Hstep as <-.
  unfold on_watchdog, exec. cbn [fold_left with_pending halted]. rewrite Hh.
  unfold emit_fatal.
  replace (fatal_exits (put (Emit Fatal_timeout) (with_pending (fun _ => p) w)))
    with true by (symmetry; exact (inv_exits _ _ _ Hinv)).
  cbn [halt put with_pending log halted heap self].
  repeat split.
  - rewrite List.filter_app, (fatal_in_filter (log w)); [ reflexivity | ].
    exact (inv_fatal _ _ _ Hinv eq_refl Hh).
  - intros [ | l ls' ] Hne; [ congruence | ].
    cbn [run]. rewrite halted_stuck by reflexivity. reflexivity.
  - intros Hcr. rewrite ready_in_app, (inv_ready _ _ _ Hinv), Hcr. reflexivity.
Qed.

Lemma watchdog_fatal_ends_the_run_witness :
  log one_file_timed_out = log one_file_slow ++ [ Emit Fatal_timeout ]
  ∧ length (List.filter is_fatal (log one_file_timed_out)) = 1
  ∧ halted one_file_timed_out = true
  ∧ heap one_file_timed_out = heap one_file_slow
  ∧ self one_file_timed_out = self one_file_slow
  ∧ (∀ l, step one_file_timed_out l = None)
  ∧ (∀ ls', ls' ≠ [] → run one_file_timed_out ls' = None)
  ∧ (cacheReady (self one_file_slow) = false →
     ready_in (log one_file_timed_out) = false).
Proof.
  apply (watchdog_fatal_ends_the_run "data" []
           [ Call_loadFiles; Listing_done (Some ["a.json"]); Start_file "a.json" ]
           one_file_slow one_file_timed_out 0).
  - vm_compute. reflexivity.
  - vm_compute. reflexivity.
Defined.

(** C2 as stated fails for the loader on its own.  With a listener of
    ['fatal'] that returns, the result of a file read after the deadline
    is stored in the corpus, and ['ready'] is emitted with it after
    ['fatal']. *)
Lemma late_result_after_timeout :
  (fun w => (log w, heap w, cacheReady (self w)))
    <$> run (constructor "data" [] false)
          [ Call_loadFiles; Listing_done (Some ["a.json"]); Start_file "a.json";
            Fire_watchdog 0; Read_done "a.json" (Parsed JNull) ]
  = Some ([ Fs_readdir "data"; Fs_readFile "a.json";
            Emit Fatal_timeout; Emit (Ready 0 [ JNull ]) ],
          [ [ JNull ] ], true).
Proof. vm_compute. reflexivity. Qed.

End DataLoaderSpec.

(* ===================================================================== *)
(** ** More of the engine *)
(* ===================================================================== *)

Module EngineLaws.
Import JS TagsFinder JSFacts Traversal Engine TagsFinderSpec.

(** *** Helpers *)

Lemma append_assoc (a b c : string) :
  String.append (String.append a b) c = String.append a (String.append b c).
Proof.
  induction a as [ | x a IH ]; [ reflexivity | ].
  change (String x (String.append (String.append a b) c) = String x (String.append a (String.append b c))).
  rewrite IH. reflexivity.
Qed.

(** A string that contains [t2] contains what [t2] contains. *)
Lemma contains_trans s t2 t1 :
  contains s t2 = true → contains t2 t1 = true → contains s t1 = true.
Proof.
  rewrite !contains_substring.
  intros (pre & post & ->) (a & b & ->).
  exists (String.append pre a), (String.append b post).
  rewrite !append_assoc. reflexivity.
Qed.

Lemma matching_incl t1 t2 leaves :
  contains t2 t1 = true →
  length (matching t2 leaves) ≤ length (matching t1 leaves).
Proof.
  intros Hsub. induction leaves as [ | s leaves IH ]; [ reflexivity | ].
  rewrite !matching_cons.
  destruct (contains s t2) eqn:E2.
  - rewrite (contains_trans s t2 t1 E2 Hsub). cbn [length]. lia.
  - destruct (contains s t1); cbn [length]; lia.
Qed.

Lemma matching_app t l1 l2 : matching t (l1 ++ l2) = matching t l1 ++ matching t l2.
Proof. unfold matching. apply List.filter_app. Qed.


Lemma times_misses c tags t :
  truthy (get c t) = false → times t (misses c tags) = times t tags.
Proof.
  intros Hmiss. induction tags as [ | x tags IH ]; [ reflexivity | ].
  rewrite misses_cons, times_cons.
  destruct (String.eqb_spec t x) as [ <- | Hne ].
  - rewrite Hmiss, times_cons, String.eqb_refl, IH. reflexivity.
  - destruct (truthy (get c x)); [ rewrite IH; reflexivity | ].
    rewrite times_cons, IH.
    destruct (String.eqb_spec t x); [ contradiction | reflexivity ].
Qed.

Lemma learn_keeps tags c docs t :
  truthy (get c t) = true → learn tags c docs !! t = c !! t.
Proof.
  intros Hhit. rewrite learn_lookup.
  destruct (decide (t ∈ misses c tags)) as [ Hm | _ ]; [ | reflexivity ].
  apply misses_elem in Hm as [_ Hm]. congruence.
Qed.

Lemma answers_miss tags c docs t :
  t ∈ tags → truthy (get c t) = false →
  {| tag := t;
     count := Num (times t tags * length (matching t (flat_map leaves_of docs))) |}
    ∈ answers tags c docs.
Proof.
  intros Hin Hmiss. unfold answers. apply elem_of_app. right.
  apply list_elem_of_fmap. exists t.
  split; [ | apply misses_elem; auto ].
  unfold tally. rewrite times_misses by exact Hmiss. reflexivity.
Qed.



Section Returns.
Context {runtime : ArraySort}.

(** What [process] returns and stores on documents it can walk. *)
Lemma process_ok tags e docs :
  data e = Some docs → existsb trapped docs = false →
  process tags e =
  {| ret := Ok (sort comparator (answers tags (cache e) docs));
     after := {| data := Some docs; cache := learn tags (cache e) docs |} |}.
Proof.
  intros Hd Htrap. destruct (process_returns tags e docs Hd Htrap) as (st & Hp & _).
  unfold process. rewrite Hp. reflexivity.
Qed.

End Returns.

(** *** The traversal *)


Section Laws.
Context {runtime : ArraySort}.

(** X2. A call of [process] that throws leaves the engine exactly as it
    was, cache included.  It throws for one of two reasons only: no data
    was ever set, or a document holds an object with a property of its
    own named [hasOwnProperty]. *)
Theorem process_throw_leaves_engine (tags : list string) (e : engine) (err : error) :
  ret (process tags e) = Throw err →
  after (process tags e) = e
  ∧ ((err = Process_without_data ∧ data e = None)
     ∨ (err = TypeError_not_a_function
        ∧ ∃ docs, data e = Some docs ∧ existsb trapped docs = true)).
Proof.
  unfold process. intros Hret.
  destruct (data e) as [ docs | ] eqn:Hd.
  - destruct (existsb trapped docs) eqn:Htrap.
    + rewrite (process_throws tags e docs Hd Htrap) in *. cbn [fst ret after] in *.
      injection Hret as <-. split; [ reflexivity | ].
      right. split; [ reflexivity | ]. exists docs. auto.
    + destruct (process_returns tags e docs Hd Htrap) as (st & Hp & _).
      rewrite Hp in Hret. discriminate.
  - rewrite (process_without_data tags e Hd) in *. cbn [fst ret after] in *.
    injection Hret as <-. split; [ reflexivity | ]. left. auto.
Qed.

Lemma process_throw_after tags e err :
  ret (process tags e) = Throw err → after (process tags e) = e.
Proof.
  unfold process. intros Hret. destruct (data e) as [ docs | ] eqn:Hd.
  - destruct (existsb trapped docs) eqn:Htrap.
    + rewrite (process_throws tags e docs Hd Htrap). reflexivity.
    + destruct (process_returns tags e docs Hd Htrap) as (st & Hp & _).
      rewrite Hp in Hret. discriminate.
  - rewrite (process_without_data tags e Hd). reflexivity.
Qed.

Lemma process_keeps_nonzero tags e t n :
  cache e !! t = Some n → n ≠ 0 → cache (after (process tags e)) !! t = Some n.
Proof.
  intros Hn Hne. unfold process.
  destruct (data e) as [ docs | ] eqn:Hd.
  - destruct (existsb trapped docs) eqn:Htrap.
    + rewrite (process_throws tags e docs Hd Htrap). exact Hn.
    + destruct (process_returns tags e docs Hd Htrap) as (st & -> & _).
      cbn [fst after cache]. rewrite learn_keeps; [ exact Hn | ].
      unfold get. rewrite Hn. cbn [truthy]. destruct n; [ congruence | reflexivity ].
  - rewrite (process_without_data tags e Hd). exact Hn.
Qed.

Lemma setData_keeps_all arg e : cache (after (setData arg e)) = cache e.
Proof.
  unfold setData. destruct (negb (to_boolean arg) || negb (isArray arg));
    [ reflexivity | destruct arg; reflexivity ].
Qed.

(** X3. A count other than 0, once in the cache, stays in the cache
    with the same value through every later call, of [process] with any
    tags and of [setData] with any argument, whether the call returns or
    throws. *)
Theorem nonzero_count_is_permanent (cs : list call) (e : engine) (t : string) (n : nat) :
  cache e !! t = Some n → n ≠ 0 →
  cache (fold_left after_call cs e) !! t = Some n.
Proof.
  revert e. induction cs as [ | c cs IH ]; intros e Hn Hne; [ exact Hn | ].
  cbn [fold_left]. apply IH; [ | exact Hne ].
  destruct c as [ arg | tags ]; cbn [after_call].
  - rewrite setData_keeps_all. exact Hn.
  - apply process_keeps_nonzero; assumption.
Qed.


(** X5. With no tag, [process] returns the empty array and leaves the
    engine as it was; it still walks the documents, so it throws when
    one of them holds an object with a property of its own named
    [hasOwnProperty]. *)
Theorem empty_query (e : engine) (docs : list value) :
  data e = Some docs →
  process [] e =
  {| ret := if existsb trapped docs then Throw TypeError_not_a_function else Ok [];
     after := e |}.
Proof.
  intros Hd. unfold process. destruct (existsb trapped docs) eqn:Htrap.
  - rewrite (process_throws [] e docs Hd Htrap). reflexivity.
  - destruct (process_returns [] e docs Hd Htrap) as (st & -> & _).
    cbn [fst]. unfold answers, learn. cbn [hits misses List.filter flat_map map app fold_left].
    rewrite sort_nil. destruct e as [d c]. cbn in Hd. subst d. reflexivity.
Qed.

(** X6. Counts add up over documents: for a tag listed once and not
    answered from the cache, the count on the documents [docs1 ++ docs2]
    is the sum of its counts on [docs1] and on [docs2]. *)
Theorem counts_add_over_documents (tags : list string) (t : string)
  (c : gmap string nat) (docs1 docs2 : list value) :
  NoDup tags → t ∈ tags → truthy (get c t) = false →
  existsb trapped (docs1 ++ docs2) = false →
  ∃ res1 res2 res n1 n2,
    ret (process tags {| data := Some docs1; cache := c |}) = Ok res1
    ∧ ret (process tags {| data := Some docs2; cache := c |}) = Ok res2
    ∧ ret (process tags {| data := Some (docs1 ++ docs2); cache := c |}) = Ok res
    ∧ {| tag := t; count := Num n1 |} ∈ res1
    ∧ {| tag := t; count := Num n2 |} ∈ res2
    ∧ {| tag := t; count := Num (n1 + n2) |} ∈ res.
Proof.
  intros Hnd Hin Hmiss Htrap.
  pose proof Htrap as Htrap'.
  rewrite existsb_app in Htrap'. apply orb_false_iff in Htrap' as [Ht1 Ht2].
  rewrite (process_ok tags {| data := Some docs1; cache := c |} docs1 eq_refl Ht1),
    (process_ok tags {| data := Some docs2; cache := c |} docs2 eq_refl Ht2),
    (process_ok tags {| data := Some (docs1 ++ docs2); cache := c |} (docs1 ++ docs2)
       eq_refl Htrap).
  cbn [ret cache].
  assert (∀ docs, {| tag := t; count := Num (length (matching t (flat_map leaves_of docs))) |}
                    ∈ sort comparator (answers tags c docs)) as Hentry.
  { intros docs. apply sort_elem_of.
    pose proof (answers_miss tags c docs t Hin Hmiss) as Hx.
    rewrite (times_NoDup t tags Hnd Hin), Nat.mul_1_l in Hx. exact Hx. }
  do 3 eexists.
  exists (length (matching t (flat_map leaves_of docs1))),
         (length (matching t (flat_map leaves_of docs2))).
  repeat (split; [ reflexivity | ]).
  split; [ apply Hentry | split; [ apply Hentry | ] ].
  rewrite <- length_app, <- matching_app, <- flat_map_app. apply Hentry.
Qed.

(** X7. In a call whose tags are listed once each, a tag is found at
    least as often as any tag that contains it: when [t1] occurs in [t2]
    and both are counted in that call, the count of [t2] is at most the
    count of [t1].  (A tag listed several times is counted that many
    times over, which can lift the longer tag above the shorter one.) *)
Theorem shorter_tag_counts_more (tags : list string) (t1 t2 : string) (e : engine)
  (docs : list value) :
  data e = Some docs → existsb trapped docs = false →
  NoDup tags → t1 ∈ tags → t2 ∈ tags →
  truthy (get (cache e) t1) = false → truthy (get (cache e) t2) = false →
  contains t2 t1 = true →
  ∃ res n1 n2,
    ret (process tags e) = Ok res
    ∧ {| tag := t1; count := Num n1 |} ∈ res
    ∧ {| tag := t2; count := Num n2 |} ∈ res
    ∧ n2 ≤ n1.
Proof.
  intros Hd Htrap Hnd Hin1 Hin2 Hm1 Hm2 Hsub.
  rewrite (process_ok tags e docs Hd Htrap). cbn [ret].
  assert (∀ t, t ∈ tags → truthy (get (cache e) t) = false →
            {| tag := t; count := Num (length (matching t (flat_map leaves_of docs))) |}
              ∈ sort comparator (answers tags (cache e) docs)) as Hentry.
  { intros t Hin Hmiss. apply sort_elem_of.
    pose proof (answers_miss tags (cache e) docs t Hin Hmiss) as Hx.
    rewrite (times_NoDup t tags Hnd Hin), Nat.mul_1_l in Hx. exact Hx. }
  eexists. eexists. eexists. split; [ reflexivity | ].
  split; [ apply (Hentry t1 Hin1 Hm1) | split; [ apply (Hentry t2 Hin2 Hm2) | ] ].
  apply matching_incl. exact Hsub.
Qed.

(** X8. A tag that names a member of [Object.prototype] is never
    counted: in every engine a history of calls leads to, every entry
    returned for it holds the inherited member, whatever the documents
    contain. *)
Theorem inherited_tag_is_never_counted (cs : list call) (tags : list string)
  (t : string) (res : list entry) :
  inherited t = true →
  ret (process tags (history cs)) = Ok res →
  Forall (fun x => tag x = t → count x = Proto t) res.
Proof.
  intros Hinh Hret. apply Forall_forall. intros x Hx Htag.
  pose proof (history_no_shadow cs t Hinh) as Hnone.
  unfold process in Hret.
  destruct (data (history cs)) as [ docs | ] eqn:Hd.
  - destruct (existsb trapped docs) eqn:Htrap.
    + rewrite (process_throws tags _ docs Hd Htrap) in Hret. discriminate.
    + destruct (process_returns tags _ docs Hd Htrap) as (st & Hp & _).
      rewrite Hp in Hret. cbn [fst ret] in Hret. injection Hret as <-.
      apply sort_elem_of in Hx.
      assert (get (cache (history cs)) t = Some (Proto t)) as Hget
        by (unfold get; rewrite Hnone, Hinh; reflexivity).
      unfold answers in Hx. apply elem_of_app in Hx as [ Hx | Hx ].
      * apply hits_elem in Hx as (_ & Hg & _). rewrite Htag, Hget in Hg.
        congruence.
      * apply list_elem_of_fmap in Hx as (t' & -> & Hm). cbn [tag] in Htag. subst t'.
        apply misses_elem in Hm as [_ Hm]. rewrite Hget in Hm. discriminate.
  - rewrite (process_without_data tags _ Hd) in Hret. discriminate.
Qed.

End Laws.

(** X9. The comparator of [process] is a consistent comparison function
    for an array of entries with numeric counts exactly when all the
    counts are equal: only then does the contract of [sort] say anything
    about the order of the result. *)
Theorem comparator_consistent_iff (S : list entry) :
  (∀ x, x ∈ S → ∃ n, count x = Num n) →
  consistent comparator S ↔ (∀ x y, x ∈ S → y ∈ S → count x = count y).
Proof.
  intros Hnum. split.
  - intros HS x y Hx Hy.
    destruct (Hnum x Hx) as [n Hn], (Hnum y Hy) as [m Hm].
    destruct (Nat.lt_trichotomy n m) as [ Hlt | [ -> | Hgt ] ]; [ | congruence | ].
    + exfalso. exact (comparator_not_consistent S x y n m Hx Hy Hn Hm Hlt HS).
    + exfalso. exact (comparator_not_consistent S y x m n Hy Hx Hm Hn Hgt HS).
  - intros Heq.
    assert (∀ x y, x ∈ S → y ∈ S → comparator x y = 0%Z) as Hzero.
    { intros x y Hx Hy. unfold comparator.
      destruct (Hnum x Hx) as [n Hn]. rewrite <- (Heq x y Hx Hy), Hn. cbn [js_lt].
      rewrite Nat.ltb_irrefl. reflexivity. }
    constructor; unfold eqCF, ltCF, gtCF.
    + intros a Ha. apply Hzero; assumption.
    + intros a b Ha Hb _. apply Hzero; assumption.
    + intros a b c Ha Hb Hc _ _. apply Hzero; assumption.
    + intros a b c Ha Hb Hc Hab. rewrite Hzero in Hab by assumption. lia.
    + intros a b c Ha Hb Hc Hab. rewrite Hzero in Hab by assumption. lia.
Qed.

(** *** Witnesses *)


(** A query on an engine that was never given data. *)
Lemma process_throw_leaves_engine_witness :
  after (process (runtime := insertion) ["red"] constructor) = constructor
  ∧ ((Process_without_data = Process_without_data ∧ data constructor = None)
     ∨ (Process_without_data = TypeError_not_a_function
        ∧ ∃ docs, data constructor = Some docs ∧ existsb trapped docs = true)).
Proof.
  apply (process_throw_leaves_engine (runtime := insertion) ["red"] constructor).
  reflexivity.
Defined.

(** A count of 1 for ["red"], then new documents and two queries. *)
Lemma nonzero_count_is_permanent_witness :
  cache (fold_left (after_call (runtime := insertion))
           [ SetData (JArray []); Process ["red"]; SetData JNull; Process ["blue"] ]
           {| data := Some [ JString "red" ]; cache := {[ "red" := 1 ]} |}) !! "red"
  = Some 1.
Proof.
  apply (nonzero_count_is_permanent (runtime := insertion)).
  - reflexivity.
  - lia.
Defined.


Lemma empty_query_witness :
  process (runtime := insertion) []
    {| data := Some [ JObject [ ("k", JString "red") ] ]; cache := ∅ |}
  = {| ret := if existsb trapped [ JObject [ ("k", JString "red") ] ]
              then Throw TypeError_not_a_function else Ok [];
       after := {| data := Some [ JObject [ ("k", JString "red") ] ]; cache := ∅ |} |}.
Proof.
  apply (empty_query (runtime := insertion)). reflexivity.
Defined.

Lemma counts_add_over_documents_witness :
  ∃ res1 res2 res n1 n2,
    ret (process (runtime := insertion) [ "red" ]
           {| data := Some [ JString "red" ]; cache := ∅ |}) = Ok res1
    ∧ ret (process (runtime := insertion) [ "red" ]
             {| data := Some [ JArray [ JString "redwood" ] ]; cache := ∅ |}) = Ok res2
    ∧ ret (process (runtime := insertion) [ "red" ]
             {| data := Some ([ JString "red" ] ++ [ JArray [ JString "redwood" ] ]);
                cache := ∅ |}) = Ok res
    ∧ {| tag := "red"; count := Num n1 |} ∈ res1
    ∧ {| tag := "red"; count := Num n2 |} ∈ res2
    ∧ {| tag := "red"; count := Num (n1 + n2) |} ∈ res.
Proof.
  apply (counts_add_over_documents (runtime := insertion) [ "red" ] "red" ∅).
  - apply NoDup_singleton.
  - left.
  - reflexivity.
  - reflexivity.
Defined.

Lemma shorter_tag_counts_more_witness :
  ∃ res n1 n2,
    ret (process (runtime := insertion) [ "redwood"; "red" ]
           {| data := Some [ JArray [ JString "red apple"; JString "redwood" ] ];
              cache := ∅ |}) = Ok res
    ∧ {| tag := "red"; count := Num n1 |} ∈ res
    ∧ {| tag := "redwood"; count := Num n2 |} ∈ res
    ∧ n2 ≤ n1.
Proof.
  apply (shorter_tag_counts_more (runtime := insertion) [ "redwood"; "red" ] "red" "redwood"
           _ [ JArray [ JString "red apple"; JString "redwood" ] ]).
  - reflexivity.
  - reflexivity.
  - apply NoDup_cons. split; [ | apply NoDup_singleton ].
    intros H. apply list_elem_of_singleton in H. discriminate.
  - right. left.
  - left.
  - reflexivity.
  - reflexivity.
  - reflexivity.
Defined.

(** The tag ["toString"] on a corpus whose only string is that tag. *)
Lemma inherited_tag_is_never_counted_witness :
  Forall (fun x => tag x = "toString" → count x = Proto "toString")
    [ {| tag := "toString"; count := Proto "toString" |} ].
Proof.
  apply (inherited_tag_is_never_counted (runtime := insertion)
           [ SetData (JArray [ JString "toString" ]) ] [ "toString" ] "toString").
  - reflexivity.
  - vm_compute. reflexivity.
Defined.

Lemma comparator_consistent_iff_witness :
  consistent comparator [ {| tag := "a"; count := Num 1 |}; {| tag := "b"; count := Num 1 |} ]
  ↔ (∀ x y, x ∈ [ {| tag := "a"; count := Num 1 |}; {| tag := "b"; count := Num 1 |} ] →
            y ∈ [ {| tag := "a"; count := Num 1 |}; {| tag := "b"; count := Num 1 |} ] →
            count x = count y).
Proof.
  apply comparator_consistent_iff.
  intros x Hx. exists 1.
  apply elem_of_cons in Hx as [ -> | Hx ]; [ reflexivity | ].
  apply list_elem_of_singleton in Hx. subst x. reflexivity.
Defined.

Lemma one_entry_per_tag_witness :
  ∃ res,
    ret (process (runtime := insertion) [ "red"; "toString" ]
           {| data := Some [ JString "red" ]; cache := ∅ |}) = Ok res
    ∧ map tag res ≡ₚ [ "red"; "toString" ]
    ∧ length res = length [ "red"; "toString" ]
    ∧ ∀ x, x ∈ res → inherited (tag x) = false → ∃ n, count x = Num n.
Proof.
  apply (one_entry_per_tag (runtime := insertion) [ "red"; "toString" ] _ [ JString "red" ]).
  - reflexivity.
  - reflexivity.
Defined.

Lemma shifting_runtime_descends_witness :
  ∃ res,
    ret (process (runtime := shifting) [ "a"; "b"; "c" ]
           {| data := Some [ JArray [ JString "a b c"; JString "b c"; JString "c" ] ];
              cache := ∅ |}) = Ok res
    ∧ descending res.
Proof.
  apply (shifting_runtime_descends [ "a"; "b"; "c" ] _
           [ JArray [ JString "a b c"; JString "b c"; JString "c" ] ]).
  - reflexivity.
  - reflexivity.
  - intros t Ht.
    repeat (apply elem_of_cons in Ht as [ -> | Ht ]; [ reflexivity | ]).
    inversion Ht.
Defined.

(** *** Property names and the empty tag *)

Lemma rekey_leaves_at f v :
  leaves_of (rekey f v) = leaves_of v → leaves_at (rekey f v) = leaves_at v.
Proof. intros H. destruct v; try reflexivity; exact H. Qed.

Lemma rekey_leaves f v : leaves_of (rekey f v) = leaves_of v.
Proof.
  induction v as [ | | b | n | s | items IH | props IH ] using value_ind;
    try reflexivity.
  - cbn [rekey]. rewrite !leaves_of_eq.
    induction IH as [ | v items Hv _ IHitems ]; [ reflexivity | ].
    cbn [map flat_map]. rewrite IHitems, (rekey_leaves_at f v Hv). reflexivity.
  - cbn [rekey]. rewrite !leaves_of_eq.
    induction IH as [ | [k v] props Hv _ IHprops ]; [ reflexivity | ].
    cbn [map flat_map snd fst] in *.
    rewrite IHprops, (rekey_leaves_at f v Hv). reflexivity.
Qed.

Lemma rekey_corpus f docs :
  flat_map leaves_of (map (rekey f) docs) = flat_map leaves_of docs.
Proof.
  induction docs as [ | v docs IH ]; [ reflexivity | ].
  cbn [map flat_map]. rewrite IH, rekey_leaves. reflexivity.
Qed.

Lemma contains_empty s : contains s "" = true.
Proof. destruct s; reflexivity. Qed.

Lemma matching_empty leaves : matching "" leaves = leaves.
Proof.
  induction leaves as [ | s leaves IH ]; [ reflexivity | ].
  rewrite matching_cons, contains_empty, IH. reflexivity.
Qed.

Lemma chars_length s : length (chars s) = String.length s.
Proof.
  induction s as [ | c s IH ]; [ reflexivity | ].
  cbn [chars length String.length]. rewrite IH. reflexivity.
Qed.

(** How many strings the traversal of a corpus tests. *)
Lemma tested_strings docs :
  length (flat_map leaves_of docs)
  = list_sum (map (fun d => match d with
                            | JString s => String.length s
                            | _ => length (string_leaves d)
                            end) docs).
Proof.
  induction docs as [ | d docs IH ]; [ reflexivity | ].
  cbn [flat_map map]. rewrite length_app, IH.
  change (list_sum (?x :: ?l)) with (x + list_sum l).
  apply (f_equal (fun n => n + _)).
  destruct d; try (rewrite leaves_of_string_leaves by reflexivity; reflexivity).
  rewrite leaves_of_eq. apply chars_length.
Qed.

Section Names.
Context {runtime : ArraySort}.

(** X24. The names of properties play no part in the search.  Two
    corpora that differ in the names of their properties only, and hold
    no property called [hasOwnProperty], give the same answers and the
    same cache: a string is searched under any property name, not only
    under ["tags"]. *)
Theorem property_names_play_no_part (f : string → string) (tags : list string)
  (c : gmap string nat) (docs : list value) :
  existsb trapped docs = false → existsb trapped (map (rekey f) docs) = false →
  ret (process tags {| data := Some (map (rekey f) docs); cache := c |})
  = ret (process tags {| data := Some docs; cache := c |})
  ∧ cache (after (process tags {| data := Some (map (rekey f) docs); cache := c |}))
    = cache (after (process tags {| data := Some docs; cache := c |})).
Proof.
  intros Htrap Htrap'.
  rewrite (process_ok tags {| data := Some docs; cache := c |} docs eq_refl Htrap),
    (process_ok tags {| data := Some (map (rekey f) docs); cache := c |}
       (map (rekey f) docs) eq_refl Htrap').
  cbn [ret after cache]. unfold answers, learn, tally.
  rewrite rekey_corpus. split; reflexivity.
Qed.

(** X25. The empty tag is found in every string the traversal tests.
    Asked for the tag [""], listed once and not cached, [process] answers
    with the number of strings that the objects and arrays of the
    documents hold, at any depth, plus, for every document that is itself
    a string, the number of its characters (the document [""] adds
    nothing). *)
Theorem empty_tag_counts_every_tested_string (tags : list string) (e : engine)
  (docs : list value) :
  data e = Some docs → existsb trapped docs = false →
  NoDup tags → "" ∈ tags → truthy (get (cache e) "") = false →
  ∃ res,
    ret (process tags e) = Ok res
    ∧ {| tag := "";
         count := Num (list_sum (map (fun d => match d with
                                               | JString s => String.length s
                                               | _ => length (string_leaves d)
                                               end) docs)) |} ∈ res.
Proof.
  intros Hd Htrap Hnd Hin Hmiss.
  rewrite (process_ok tags e docs Hd Htrap). cbn [ret]. eexists.
  split; [ reflexivity | ].
  apply sort_elem_of.
  pose proof (answers_miss tags (cache e) docs "" Hin Hmiss) as Hx.
  rewrite (times_NoDup "" tags Hnd Hin), Nat.mul_1_l, matching_empty in Hx.
  rewrite tested_strings in Hx. exact Hx.
Qed.

End Names.

(** The property [k] renamed to [tags]. *)
Lemma property_names_play_no_part_witness :
  ret (process (runtime := insertion) [ "red" ]
         {| data := Some (map (rekey (fun _ => "tags")) [ JObject [ ("k", JString "red") ] ]);
            cache := ∅ |})
  = ret (process (runtime := insertion) [ "red" ]
           {| data := Some [ JObject [ ("k", JString "red") ] ]; cache := ∅ |})
  ∧ cache (after (process (runtime := insertion) [ "red" ]
                    {| data := Some (map (rekey (fun _ => "tags"))
                                       [ JObject [ ("k", JString "red") ] ]);
                       cache := ∅ |}))
    = cache (after (process (runtime := insertion) [ "red" ]
                      {| data := Some [ JObject [ ("k", JString "red") ] ]; cache := ∅ |})).
Proof.
  apply (property_names_play_no_part (runtime := insertion)).
  - reflexivity.
  - reflexivity.
Defined.

(** An array with two strings and a number, and the documents ["abc"]
    and [""]: 2 + 3 + 0. *)
Lemma empty_tag_counts_every_tested_string_witness :
  ∃ res,
    ret (process (runtime := insertion) [ "" ]
           {| data := Some [ JArray [ JString "red"; JNumber 3; JString "blue" ];
                             JString "abc"; JString "" ];
              cache := ∅ |}) = Ok res
    ∧ {| tag := "";
         count := Num (list_sum (map (fun d => match d with
                                               | JString s => String.length s
                                               | _ => length (string_leaves d)
                                               end)
                                   [ JArray [ JString "red"; JNumber 3; JString "blue" ];
                                     JString "abc"; JString "" ])) |}
      ∈ res.
Proof.
  apply (empty_tag_counts_every_tested_string (runtime := insertion) [ "" ]
           {| data := Some [ JArray [ JString "red"; JNumber 3; JString "blue" ];
                             JString "abc"; JString "" ];
              cache := ∅ |}).
  - reflexivity.
  - reflexivity.
  - apply NoDup_singleton.
  - left.
  - reflexivity.
Defined.

End EngineLaws.

(* ===================================================================== *)
(** ** More of the loader *)
(* ===================================================================== *)

Module LoaderLaws.
Import JS DataLoader DataLoaderSpec.

(** *** Helpers *)

Lemma run_snoc w ls l :
  run w (ls ++ [l]) = (w' ← run w ls; step w' l).
Proof.
  revert w. induction ls as [ | l' ls IH ]; intros w; cbn [run app].
  - cbn [mbind option_bind]. destruct (step w l); reflexivity.
  - destruct (step w l') as [ w1 | ]; cbn [mbind option_bind]; [ apply IH | reflexivity ].
Qed.

Lemma take_perm t p p' : take t p = Some p' → p ≡ₚ t :: p'.
Proof.
  revert p'. induction p as [ | t' p IH ]; intros p' Ht; [ discriminate | ].
  cbn [take] in Ht. destruct (decide (t = t')) as [ <- | Hne ].
  - injection Ht as <-. reflexivity.
  - destruct (take t p) as [ p1 | ]; [ | discriminate ].
    injection Ht as <-. rewrite (IH p1 eq_refl). apply perm_swap.
Qed.

Lemma take_elem t p p' x : take t p = Some p' → x ∈ p' → x ∈ p.
Proof.
  intros Ht Hx. rewrite (take_perm t p p' Ht). right. exact Hx.
Qed.

Lemma waiting_perm p q : p ≡ₚ q → waiting p ≡ₚ waiting q.
Proof. intros H. unfold waiting. apply Permutation_flat_map. exact H. Qed.

Lemma waiting_starts files : waiting (map Start files) = files.
Proof.
  induction files as [ | f files IH ]; [ reflexivity | ].
  unfold waiting in *. cbn [map flat_map app]. rewrite IH. reflexivity.
Qed.

Lemma waiting_app p q : waiting (p ++ q) = waiting p ++ waiting q.
Proof. unfold waiting. apply flat_map_app. Qed.

Lemma started_app lg lg' : started (lg ++ lg') = started lg ++ started lg'.
Proof. unfold started. apply flat_map_app. Qed.

Lemma waiting_clear id p :
  waiting (filter (fun t => t ≠ Watchdog id) p) = waiting p.
Proof.
  induction p as [ | t p IH ]; [ reflexivity | ].
  rewrite filter_cons. destruct (decide (t ≠ Watchdog id)) as [ Hne | Heq ].
  - unfold waiting in *. cbn [flat_map]. rewrite IH. reflexivity.
  - apply dec_stable in Heq. subst t. exact IH.
Qed.

(** A list of callbacks with no file callback, no listing and no timer
    is empty. *)
Lemma nothing_owed p :
  inflight p = 0 → listing p = 0 → (∀ id, Watchdog id ∉ p) → p = [].
Proof.
  destruct p as [ | t p ]; [ reflexivity | ].
  unfold inflight, listing. intros Hf Hl Hw.
  destruct t as [ id | | file | file ]; cbn in Hf, Hl; try discriminate.
  exfalso. apply (Hw id). left.
Qed.

Lemma parsed_snoc ls l : parsed (ls ++ [l]) = parsed ls ++ parsed [l].
Proof. unfold parsed. apply flat_map_app. Qed.

Lemma failures_snoc ls l : failures (ls ++ [l]) = failures ls ++ failures [l].
Proof. unfold failures. apply flat_map_app. Qed.

Lemma reads_snoc ls l : reads (ls ++ [l]) = reads ls + (if is_read l then 1 else 0).
Proof.
  unfold reads. rewrite List.filter_app, length_app. cbn [List.filter].
  destruct (is_read l); reflexivity.
Qed.

Lemma listed_files_snoc ls l :
  listed_files (ls ++ [l]) =
  match l with Listing_done (Some fs) => fs | _ => listed_files ls end.
Proof. unfold listed_files. rewrite fold_left_app. reflexivity. Qed.

(** *** What a callback other than the end of a read leaves alone *)

Lemma same_books_refl w : same_books w w.
Proof. repeat split. Qed.

Lemma same_books_put w0 o w :
  is_error o = false → same_books w0 w → same_books w0 (put o w).
Proof.
  intros Ho (H1 & H2 & H3 & H4 & H5). repeat split; cbn [put heap self log]; auto.
  rewrite List.filter_app. cbn [List.filter]. rewrite Ho, app_nil_r. exact H5.
Qed.

Lemma same_books_emit_fatal w0 ev w :
  is_error (Emit ev) = false → same_books w0 w → same_books w0 (emit_fatal ev w).
Proof.
  intros Ho Hw. unfold emit_fatal.
  pose proof (same_books_put w0 (Emit ev) w Ho Hw) as Hp.
  destruct (fatal_exits _); [ | exact Hp ].
  destruct Hp as (H1 & H2 & H3 & H4 & H5). repeat split; assumption.
Qed.

Lemma same_books_loadFiles w : same_books w (loadFiles w).
Proof.
  unfold loadFiles. destruct (cacheReady (self w)).
  - apply same_books_put; [ reflexivity | apply same_books_refl ].
  - apply exec_preserves; [ apply same_books_refl | ]. statements.
    + intros w' _ H. exact H.
    + intros w' _ H. exact H.
    + intros w' _ H. exact H.
    + intros w' _ H. apply same_books_put; [ reflexivity | exact H ].
    + intros w' _ H. exact H.
Qed.

Lemma same_books_on_watchdog w : same_books w (on_watchdog w).
Proof.
  unfold on_watchdog. apply exec_preserves; [ apply same_books_refl | ]. statements.
  intros w' _ H. apply same_books_emit_fatal; [ reflexivity | exact H ].
Qed.

Lemma same_books_on_listing r w : same_books w (on_listing r w).
Proof.
  unfold on_listing. destruct r as [ files | ].
  - rewrite !exec_app. apply exec_preserves.
    + apply exec_preserves.
      * apply exec_preserves; [ apply same_books_refl | ].
        destruct (Nat.ltb _ _); statements.
        intros w' _ H. apply same_books_emit_fatal; [ reflexivity | exact H ].
      * statements. intros w' _ H. exact H.
    + apply Forall_forall. intros stmt Hin w' _ H.
      apply list_elem_of_In, in_map_iff in Hin as (file & <- & _). exact H.
  - apply exec_preserves; [ apply same_books_refl | ]. statements.
    + intros w' _ H. apply same_books_emit_fatal; [ reflexivity | exact H ].
    + intros w' _ H. apply same_books_emit_fatal; [ reflexivity | exact H ].
    + intros w' _ H. apply same_books_put; [ reflexivity | exact H ].
    + intros w' _ H. exact H.
Qed.

Lemma same_books_on_start file w : same_books w (on_start file w).
Proof.
  unfold on_start. apply exec_preserves; [ apply same_books_refl | ]. statements.
  - intros w' _ H. apply same_books_put; [ reflexivity | exact H ].
  - intros w' _ H. exact H.
Qed.

(** *** The books of every run *)

Lemma constructor_ledger d h ex : ledger [] (constructor d h ex).
Proof.
  constructor; cbn; try reflexivity; try discriminate.
  - rewrite length_app. cbn. lia.
  - unfold the_cache. cbn. rewrite lookup_app_r by lia.
    rewrite Nat.sub_diag. reflexivity.
Qed.

Lemma framed_ledger ls l w w1 :
  ledger ls w → same_books w w1 →
  (halted w1 = false → filesToProcessCount (self w1) = listed (ls ++ [l])) →
  is_read l = false →
  ledger (ls ++ [l]) w1.
Proof.
  intros [G1 G2 G3 G4 G5 G6] (H1 & H2 & H3 & H4 & H5) Htotal Hl.
  assert (parsed [l] = [] ∧ failures [l] = []) as [Hp Hf]
    by (destruct l; try discriminate; split; reflexivity).
  constructor.
  - rewrite H1, H2. exact G1.
  - unfold the_cache in *. rewrite H1, H2, parsed_snoc, Hp, app_nil_r. exact G2.
  - rewrite H4, reads_snoc, Hl. lia.
  - rewrite H5, failures_snoc, Hf, app_nil_r. exact G4.
  - exact Htotal.
  - rewrite H3, H4. exact G6.
Qed.

Lemma listed_same ls l :
  match l with Listing_done (Some _) => False | _ => True end →
  listed (ls ++ [l]) = listed ls.
Proof.
  intros Hl. unfold listed. rewrite listed_files_snoc.
  destruct l as [ | | [ fs | ] | | ]; try reflexivity. contradiction.
Qed.

Lemma on_listing_halts r w :
  halted w = false → r = None ∨ (r = Some [] ∧ fatal_exits w = true) →
  halted (on_listing r w) = true ∧ self (on_listing r w) = self w
  ∧ pending (on_listing r w) = pending w
  ∧ started (log (on_listing r w)) = started (log w)
  ∧ timers (on_listing r w) = timers w.
Proof.
  intros Hh Hr. destruct w as [hp s pend tm lg hl ex]. cbn in Hh. subst.
  destruct Hr as [ -> | [-> Hex] ].
  - cbn. destruct ex; cbn; rewrite !started_app; cbn; rewrite ?app_nil_r; auto.
  - cbn in Hex. subst. cbn. rewrite !started_app; cbn; rewrite ?app_nil_r; auto.
Qed.

Lemma step_ledger ls w l w' :
  ledger ls w → step w l = Some w' → ledger (ls ++ [l]) w'.
Proof.
  intros Hled Hstep.
  unfold step in Hstep. destruct (halted w) eqn:Hh; [ discriminate | ].
  destruct l as [ | id | r | file | file r ]; cbn [mbind option_bind] in Hstep.
  - injection Hstep as <-.
    apply (framed_ledger ls _ w); [ exact Hled | apply same_books_loadFiles | | reflexivity ].
    intros _. rewrite listed_same by exact I. rewrite <- (g_total _ _ Hled Hh).
    destruct (cacheReady (self w)) eqn:Hcr.
    + unfold loadFiles. rewrite Hcr. reflexivity.
    + rewrite loadFiles_launch by assumption. reflexivity.
  - destruct (take _ _) as [ p | ]; [ | discriminate ]. injection Hstep as <-.
    apply (framed_ledger ls _ w);
      [ exact Hled | apply (same_books_on_watchdog (with_pending (fun _ => p) w)) | | reflexivity ].
    intros _. rewrite listed_same by exact I. rewrite <- (g_total _ _ Hled Hh).
    rewrite on_watchdog_eq by exact Hh. reflexivity.
  - destruct (take _ _) as [ p | ]; [ | discriminate ]. injection Hstep as <-.
    apply (framed_ledger ls _ w);
      [ exact Hled | apply (same_books_on_listing r (with_pending (fun _ => p) w)) | | reflexivity ].
    unfold listed. rewrite listed_files_snoc.
    destruct r as [ [ | f fs ] | ].
    + destruct (fatal_exits w) eqn:Hex.
      * destruct (on_listing_halts (Some []) (with_pending (fun _ => p) w) Hh) as (Hhalt & _);
          [ right; auto | ].
        congruence.
      * rewrite on_listing_empty by assumption. reflexivity.
    + rewrite on_listing_files by assumption. reflexivity.
    + destruct (on_listing_halts None (with_pending (fun _ => p) w) Hh) as (Hhalt & _);
        [ left; reflexivity | ].
      congruence.
  - destruct (take _ _) as [ p | ]; [ | discriminate ]. injection Hstep as <-.
    apply (framed_ledger ls _ w);
      [ exact Hled | apply (same_books_on_start file (with_pending (fun _ => p) w)) | | reflexivity ].
    intros _. rewrite listed_same by exact I. rewrite <- (g_total _ _ Hled Hh).
    rewrite on_start_eq by exact Hh. reflexivity.
  - destruct (take _ _) as [ p | ]; [ | discriminate ]. injection Hstep as <-.
    destruct Hled as [G1 G2 G3 G4 G5 G6].
    rewrite on_read_eq by exact Hh.
    set (w1 := match r with
               | Read_error => put (Emit (Error_reading file)) (with_pending (fun _ => p) w)
               | Not_json => put (Emit (Error_parsing file)) (with_pending (fun _ => p) w)
               | Parsed _ => with_pending (fun _ => p) w
               end).
    set (ok := match r with Parsed _ => true | _ => false end).
    set (obj := match r with Parsed o => o | _ => JNull end).
    assert (fileprocessed ok obj w1 =
            match r with
            | Read_error =>
                fileprocessed false JNull
                  (put (Emit (Error_reading file)) (with_pending (fun _ => p) w))
            | Not_json =>
                fileprocessed false JNull
                  (put (Emit (Error_parsing file)) (with_pending (fun _ => p) w))
            | Parsed o => fileprocessed true o (with_pending (fun _ => p) w)
            end) as Heq by (destruct r; reflexivity).
    rewrite <- Heq. clear Heq.
    assert (halted w1 = false ∧ self w1 = self w ∧ heap w1 = heap w
            ∧ List.filter is_error (log w1)
              = List.filter is_error (log w) ++ failures [Read_done file r])
      as (Hh1 & Hs1 & Hhp1 & Hl1).
    { unfold w1. destruct r; cbn [put with_pending halted self heap log];
        rewrite ?List.filter_app; cbn; rewrite ?app_nil_r; repeat split; auto. }
    assert (parsed [Read_done file r] = if ok then [obj] else []) as Hparsed
      by (destruct r; reflexivity).
    clearbody w1 ok obj.
    rewrite fileprocessed_eq by exact Hh1. cbv zeta. rewrite Hs1, Hhp1.
    destruct (lookup_lt_is_Some_2 _ _ G1) as [held Hheld].
    assert (the_cache w = held) as Hcache
      by (unfold the_cache, loc; rewrite Hheld; reflexivity).
    assert (default [] ((if ok
                         then alter (fun a : list value => a ++ [obj]) (cache (self w)) (heap w)
                         else heap w) !! cache (self w))
            = parsed (ls ++ [Read_done file r])) as Hdocs.
    { rewrite parsed_snoc, Hparsed, <- G2, Hcache. unfold loc. destruct ok.
      - rewrite list_lookup_alter, Hheld, decide_True by reflexivity. reflexivity.
      - rewrite Hheld, app_nil_r. reflexivity. }
    assert (length (if ok
                    then alter (fun a : list value => a ++ [obj]) (cache (self w)) (heap w)
                    else heap w) = length (heap w)) as Hlen
      by (destruct ok; [ apply length_alter | reflexivity ]).
    destruct (Nat.eqb _ _) eqn:Hdone; constructor;
      cbn [heap self log halted cache set_ready counted cacheReady
           filesProcessedCount filesToProcessCount]; unfold the_cache;
      cbn [heap self cache set_ready counted].
    + rewrite Hlen. exact G1.
    + exact Hdocs.
    + rewrite reads_snoc, G3. reflexivity.
    + rewrite List.filter_app. cbn [List.filter is_error]. rewrite app_nil_r, Hl1.
      rewrite failures_snoc, G4. reflexivity.
    + intros _. rewrite listed_same by exact I. exact (G5 Hh).
    + intros _. lia.
    + rewrite Hlen. exact G1.
    + exact Hdocs.
    + rewrite reads_snoc, G3. reflexivity.
    + rewrite Hl1, failures_snoc, G4. reflexivity.
    + intros _. rewrite listed_same by exact I. exact (G5 Hh).
    + intros Hcr. specialize (G6 Hcr). lia.
Qed.

Lemma run_ledger ls0 w ls w' :
  ledger ls0 w → run w ls = Some w' → ledger (ls0 ++ ls) w'.
Proof.
  revert ls0 w. induction ls as [ | l ls IH ]; intros ls0 w Hled Hrun; cbn [run] in Hrun.
  - injection Hrun as <-. rewrite app_nil_r. exact Hled.
  - destruct (step w l) as [ w1 | ] eqn:Hstep; [ | discriminate ].
    cbn [mbind option_bind] in Hrun.
    replace (ls0 ++ l :: ls) with ((ls0 ++ [l]) ++ ls) by (rewrite <- app_assoc; reflexivity).
    apply (IH _ w1); [ apply (step_ledger ls0 w); assumption | exact Hrun ].
Qed.

Lemma reachable_ledger d h ex ls w :
  run (constructor d h ex) ls = Some w → ledger ls w.
Proof. apply (run_ledger [] _ ls w), constructor_ledger. Qed.

(** *** One load cycle, continued *)

Lemma started_put o lg :
  match o with Fs_readFile _ => False | _ => True end →
  started (lg ++ [o]) = started lg.
Proof.
  intros Ho. rewrite started_app.
  destruct o; try contradiction; cbn; apply app_nil_r.
Qed.

Lemma take_waiting t p p' :
  take t p = Some p' →
  waiting p ≡ₚ match t with Start file => file :: waiting p' | _ => waiting p' end.
Proof.
  intros Ht. rewrite (waiting_perm _ _ (take_perm t p p' Ht)).
  destruct t; reflexivity.
Qed.

Lemma constructor_single d h ex : single [] (constructor d h ex).
Proof.
  constructor; cbn; try discriminate; try reflexivity.
  intros id Hin. inversion Hin.
Qed.

Section Single.
Context (c0 : loc) (ex : bool).

Lemma step_single ls w l w' :
  invariant c0 ex w → cycle w → single ls w →
  step w l = Some w' → timers w' ≤ 1 → single (ls ++ [l]) w'.
Proof.
  intros Hinv Hc Hs Hstep Ht.
  unfold step in Hstep. destruct (halted w) eqn:Hh; [ discriminate | ].
  destruct l as [ | id | r | file | file r ]; cbn [mbind option_bind] in Hstep.
  - (* loadFiles *)
    injection Hstep as <-. destruct (cacheReady (self w)) eqn:Hcr.
    + destruct Hc as [K1 K2 K3], Hs as [S1 S2 S3 S4 S5 S6 S7].
      unfold loadFiles in Ht |- *. rewrite Hcr in Ht |- *.
      constructor; cbn [put self pending halted log timers];
        rewrite ?listed_files_snoc, ?started_put by exact I; auto.
    + destruct Hc as [K1 K2 K3], Hs as [S1 S2 S3 S4 S5 S6 S7].
      rewrite loadFiles_launch in Ht |- * by assumption. cbn [timers] in Ht.
      assert (timers w = 0) as Ht0 by lia.
      destruct (K3 Hh Hcr) as [ (_ & Hp & Hpc) | [ (Ht1 & _) | (Ht1 & _) ] ]; try lia.
      rewrite Hp in *.
      constructor; cbn [self pending halted log timers set_safety cacheReady safety
                        filesProcessedCount filesToProcessCount];
        rewrite ?listed_files_snoc, ?started_put by exact I; try congruence.
      * intros id Hin. apply elem_of_app in Hin as [ Hin | Hin ].
        -- apply list_elem_of_singleton in Hin. congruence.
        -- apply list_elem_of_singleton in Hin. discriminate.
      * intros _ _ _ Hl. discriminate.
      * intros _. apply S6. left. exact Ht0.
      * exact S7.
  - (* the deadline *)
    destruct (take _ _) as [ p | ] eqn:Htake; [ | discriminate ].
    destruct Hc as [K1 K2 K3], Hs as [S1 S2 S3 S4 S5 S6 S7].
    injection Hstep as <-. rewrite on_watchdog_eq in * by exact Hh.
    cbn [timers with_pending] in Ht.
    assert (cacheReady (self w) = false) as Hcr.
    { destruct (cacheReady (self w)) eqn:Hcr; [ | reflexivity ].
      rewrite (S2 eq_refl) in Htake. discriminate. }
    pose proof (take_count is_listing _ _ _ Htake) as Hlist. cbn [is_listing] in Hlist.
    pose proof (take_waiting _ _ _ Htake) as Hwait. cbn beta iota in Hwait.
    constructor; cbn [with_pending self pending halted log timers];
      rewrite ?listed_files_snoc, ?started_put by exact I; try congruence.
    + intros id' Hin. apply S3. exact (take_elem _ _ _ _ Htake Hin).
    + intros _ _ Htm Hl. apply S5; auto. unfold listing in *. lia.
    + intros Hf. apply S6. unfold listing in *. destruct Hf; [ left | right ]; lia.
    + rewrite <- Hwait. exact S7.
  - (* the listing *)
    destruct (take _ _) as [ p | ] eqn:Htake; [ | discriminate ].
    destruct Hc as [K1 K2 K3], Hs as [S1 S2 S3 S4 S5 S6 S7].
    injection Hstep as <-.
    assert (cacheReady (self w) = false) as Hcr.
    { destruct (cacheReady (self w)) eqn:Hcr; [ | reflexivity ].
      rewrite (S2 eq_refl) in Htake. discriminate. }
    pose proof (take_count is_file_task _ _ _ Htake) as Hfile.
    pose proof (take_count is_listing _ _ _ Htake) as Hlist.
    cbn [is_file_task is_listing] in Hfile, Hlist.
    pose proof (take_waiting _ _ _ Htake) as Hwait. cbn beta iota in Hwait.
    assert (listing (pending w) = 1 ∧ filesProcessedCount (self w) = 0)
      as (Hl1 & Hp0).
    { destruct (K3 Hh Hcr) as [ (_ & Hp & _) | [ (? & ? & ? & ?) | (? & ? & ?) ] ].
      - rewrite Hp in Htake. discriminate.
      - split; assumption.
      - unfold listing in *. lia. }
    assert (listed_files ls = []) as Hnone by (apply S6; right; exact Hl1).
    assert (started (log w) ++ waiting p ≡ₚ []) as Hclean
      by (rewrite <- Hwait, <- Hnone; exact S7).
    assert (∀ r', r' = None ∨ (r' = Some [] ∧ fatal_exits w = true) →
            single (ls ++ [Listing_done r']) (on_listing r' (with_pending (fun _ => p) w)))
      as Hstop.
    { intros r' Hr'.
      destruct (on_listing_halts r' (with_pending (fun _ => p) w) Hh Hr')
        as (Hhalt & Hself & Hpend & Hstarted & Htm).
      cbn [with_pending self pending log timers] in *.
      constructor; rewrite ?Hself, ?Hpend, ?Hstarted, ?Htm, ?Hhalt; try congruence.
      - intros id' Hin. apply S3. exact (take_elem _ _ _ _ Htake Hin).
      - intros Hf. rewrite listed_files_snoc.
        destruct Hr' as [ -> | [-> _] ]; [ exact Hnone | reflexivity ].
      - rewrite listed_files_snoc.
        destruct Hr' as [ -> | [-> _] ]; [ rewrite Hnone | ]; exact Hclean. }
    destruct r as [ [ | f fs ] | ].
    + destruct (fatal_exits w) eqn:Hex; [ apply Hstop; right; auto | ].
      rewrite on_listing_empty by assumption.
      constructor; cbn [with_pending self pending halted log timers set_total cacheReady
                        safety filesProcessedCount filesToProcessCount];
        rewrite ?listed_files_snoc, ?started_put by exact I; try congruence.
      * intros id' Hin. apply S3. exact (take_elem _ _ _ _ Htake Hin).
      * intros _ _ _ _. left. exact Hp0.
    + rewrite on_listing_files by assumption.
      constructor; cbn [with_pending self pending halted log timers set_total cacheReady
                        safety filesProcessedCount filesToProcessCount];
        rewrite ?listed_files_snoc; try congruence.
      * intros id' Hin. apply elem_of_app in Hin as [ Hin | Hin ].
        -- apply S3. exact (take_elem _ _ _ _ Htake Hin).
        -- apply list_elem_of_fmap in Hin as (x & Hx & _). discriminate.
      * intros _ _ _ _. left. exact Hp0.
      * intros [ Hf | Hf ].
        -- rewrite on_listing_files in Ht by assumption. cbn [timers with_pending] in Ht.
           destruct (K3 Hh Hcr) as [ (_ & Hp & _) | [ (? & _) | (? & _) ] ]; try lia.
           rewrite Hp in Htake. discriminate.
        -- unfold listing in *. rewrite List.filter_app, length_app in Hf.
           change (Start f :: map Start fs) with (map Start (f :: fs)) in Hf.
           rewrite starts_listing in Hf. cbn [length] in Hf. lia.
      * rewrite waiting_app, app_assoc.
        apply Permutation_nil_r in Hclean. rewrite Hclean.
        change (Start f :: map Start fs) with (map Start (f :: fs)).
        rewrite waiting_starts. reflexivity.
    + apply Hstop. left. reflexivity.
  - (* a file task starts *)
    destruct (take _ _) as [ p | ] eqn:Htake; [ | discriminate ].
    destruct Hc as [K1 K2 K3], Hs as [S1 S2 S3 S4 S5 S6 S7].
    injection Hstep as <-. rewrite on_start_eq in * by exact Hh.
    cbn [timers with_pending] in Ht.
    assert (cacheReady (self w) = false) as Hcr.
    { destruct (cacheReady (self w)) eqn:Hcr; [ | reflexivity ].
      rewrite (S2 eq_refl) in Htake. discriminate. }
    pose proof (take_count is_listing _ _ _ Htake) as Hlist. cbn [is_listing] in Hlist.
    pose proof (take_waiting _ _ _ Htake) as Hwait. cbn beta iota in Hwait.
    constructor; cbn [with_pending self pending halted log timers];
      rewrite ?listed_files_snoc; try congruence.
    + intros id' Hin. apply elem_of_app in Hin as [ Hin | Hin ].
      * apply S3. exact (take_elem _ _ _ _ Htake Hin).
      * apply list_elem_of_singleton in Hin. discriminate.
    + intros _ _ Htm Hl. apply S5; auto.
      unfold listing in *. rewrite filter_app_count in Hl. cbn [is_listing] in Hl. lia.
    + intros Hf. apply S6. unfold listing in *.
      rewrite filter_app_count in Hf. cbn [is_listing] in Hf.
      destruct Hf; [ left | right ]; lia.
    + rewrite started_app, waiting_app. cbn [started waiting flat_map app].
      rewrite app_nil_r. rewrite <- S7, Hwait.
      rewrite <- app_assoc. cbn [app]. reflexivity.
  - (* a file has been read *)
    destruct (take _ _) as [ p | ] eqn:Htake; [ | discriminate ].
    destruct Hc as [K1 K2 K3], Hs as [S1 S2 S3 S4 S5 S6 S7].
    injection Hstep as <-.
    pose proof (take_count is_file_task _ _ _ Htake) as Hfile.
    pose proof (take_count is_listing _ _ _ Htake) as Hlist.
    cbn [is_file_task is_listing] in Hfile, Hlist.
    pose proof (take_waiting _ _ _ Htake) as Hwait. cbn beta iota in Hwait.
    rewrite on_read_eq in * by exact Hh.
    set (w1 := match r with
               | Read_error => put (Emit (Error_reading file)) (with_pending (fun _ => p) w)
               | Not_json => put (Emit (Error_parsing file)) (with_pending (fun _ => p) w)
               | Parsed _ => with_pending (fun _ => p) w
               end).
    set (ok := match r with Parsed _ => true | _ => false end).
    set (obj := match r with Parsed o => o | _ => JNull end).
    assert (fileprocessed ok obj w1 =
            match r with
            | Read_error =>
                fileprocessed false JNull
                  (put (Emit (Error_reading file)) (with_pending (fun _ => p) w))
            | Not_json =>
                fileprocessed false JNull
                  (put (Emit (Error_parsing file)) (with_pending (fun _ => p) w))
            | Parsed o => fileprocessed true o (with_pending (fun _ => p) w)
            end) as Heq by (destruct r; reflexivity).
    rewrite <- Heq in *. clear Heq.
    assert (halted w1 = false ∧ self w1 = self w
            ∧ pending w1 = p ∧ timers w1 = timers w
            ∧ started (log w1) = started (log w)) as (Hh1 & Hs1 & Hp1 & Ht1 & Hl1).
    { unfold w1. destruct r; cbn [put with_pending halted self pending timers log];
        rewrite ?started_put by exact I; repeat split; auto. }
    clearbody w1 ok obj.
    rewrite fileprocessed_eq in * by exact Hh1. cbv zeta in *.
    rewrite Hs1, Hp1, Ht1 in *.
    assert (cacheReady (self w) = false) as Hcr.
    { destruct (cacheReady (self w)) eqn:Hcr; [ | reflexivity ].
      rewrite (S2 eq_refl) in Htake. discriminate. }
    assert (listing p = 0 ∧
            inflight p + (filesProcessedCount (self w) + 1) = filesToProcessCount (self w)
            ∧ timers w = 1) as (Hl0 & Hsum & Htm).
    { destruct (K3 Hh Hcr) as [ (_ & Hp & _) | [ (? & ? & ? & ?) | (? & ? & ?) ] ].
      - rewrite Hp in Htake. discriminate.
      - unfold inflight in *. lia.
      - unfold inflight, listing in *. repeat split; lia. }
    destruct (Nat.eqb (filesToProcessCount (self w)) (filesProcessedCount (self w) + 1))
      eqn:Hdone.
    + apply Nat.eqb_eq in Hdone.
      assert (match safety (self w) with
              | Some id => filter (fun t => t ≠ Watchdog id) p
              | None => p
              end = []) as Hquiet.
      { apply nothing_owed.
        - unfold inflight in *.
          destruct (safety (self w)); rewrite ?clear_count by reflexivity; lia.
        - unfold listing in *.
          destruct (safety (self w)); rewrite ?clear_count by reflexivity; lia.
        - intros id' Hin. destruct (safety (self w)) as [ id | ] eqn:Hsafe.
          + apply list_elem_of_filter in Hin as [Hne Hin].
            pose proof (S3 id' (take_elem _ _ _ _ Htake Hin)) as Hid. congruence.
          + pose proof (S3 id' (take_elem _ _ _ _ Htake Hin)) as Hid. congruence. }
      rewrite Hquiet.
      constructor; cbn [self pending halted log timers set_ready counted cacheReady safety
                        filesProcessedCount filesToProcessCount];
        rewrite ?listed_files_snoc, ?started_put by exact I; try congruence; auto.
      * intros id' Hin. inversion Hin.
      * intros [ Hf | Hf ]; [ lia | discriminate ].
      * rewrite Hl1. cbn [waiting flat_map]. rewrite app_nil_r.
        rewrite <- S7, Hwait.
        assert (waiting p = []) as ->; [ | rewrite app_nil_r; reflexivity ].
        destruct (safety (self w)).
        -- rewrite <- (waiting_clear n p), Hquiet. reflexivity.
        -- rewrite Hquiet. reflexivity.
    + apply Nat.eqb_neq in Hdone.
      constructor; cbn [self pending halted log timers counted cacheReady safety
                        filesProcessedCount filesToProcessCount];
        rewrite ?listed_files_snoc; try congruence.
      * intros id' Hin. apply S3. exact (take_elem _ _ _ _ Htake Hin).
      * intros _ _ _ _. right. lia.
      * intros [ Hf | Hf ]; [ lia | unfold listing in *; lia ].
      * rewrite Hl1, <- S7, Hwait. reflexivity.
Qed.

End Single.

Lemma step_timers w l w' : step w l = Some w' → timers w ≤ timers w'.
Proof.
  intros Hstep. unfold step in Hstep. destruct (halted w) eqn:Hh; [ discriminate | ].
  destruct l as [ | id | r | file | file r ]; cbn [mbind option_bind] in Hstep.
  - injection Hstep as <-. destruct (cacheReady (self w)) eqn:Hcr.
    + unfold loadFiles. rewrite Hcr. cbn. lia.
    + rewrite loadFiles_launch by assumption. cbn. lia.
  - destruct (take _ _) as [ p | ]; [ | discriminate ]. injection Hstep as <-.
    rewrite on_watchdog_eq by exact Hh. cbn. lia.
  - destruct (take _ _) as [ p | ]; [ | discriminate ]. injection Hstep as <-.
    destruct r as [ [ | f fs ] | ].
    + destruct (fatal_exits w) eqn:Hex.
      * destruct (on_listing_halts (Some []) (with_pending (fun _ => p) w) Hh)
          as (_ & _ & _ & _ & ->); [ right; auto | cbn; lia ].
      * rewrite on_listing_empty by assumption. cbn. lia.
    + rewrite on_listing_files by assumption. cbn. lia.
    + destruct (on_listing_halts None (with_pending (fun _ => p) w) Hh)
        as (_ & _ & _ & _ & ->); [ left; reflexivity | cbn; lia ].
  - destruct (take _ _) as [ p | ]; [ | discriminate ]. injection Hstep as <-.
    rewrite on_start_eq by exact Hh. cbn. lia.
  - destruct (take _ _) as [ p | ]; [ | discriminate ]. injection Hstep as <-.
    rewrite on_read_eq by exact Hh.
    destruct r; rewrite fileprocessed_eq by exact Hh; cbv zeta;
      destruct (Nat.eqb _ _); cbn; lia.
Qed.

(** Every world of a run in which one timer at most was set. *)
Lemma reachable_single d h ex ls w :
  run (constructor d h ex) ls = Some w → timers w ≤ 1 →
  cycle w ∧ single ls w.
Proof.
  revert w. induction ls as [ | l ls IH ] using rev_ind; intros w Hrun Ht.
  - injection Hrun as <-. split; [ apply constructor_cycle | apply constructor_single ].
  - rewrite run_snoc in Hrun.
    destruct (run (constructor d h ex) ls) as [ w0 | ] eqn:Hrun0; [ | discriminate ].
    cbn [mbind option_bind] in Hrun.
    pose proof (step_timers _ _ _ Hrun) as Hmono.
    destruct (IH w0 eq_refl ltac:(lia)) as [Hc Hs].
    pose proof (reachable_inv d h ex ls w0 Hrun0) as Hinv.
    split.
    + apply (step_cycle (length h) ex w0 l); auto.
    + apply (step_single (length h) ex ls w0 l); auto.
Qed.

(** *** After ['ready'] *)

(** A loader that is ready and owes no callback can only be asked to
    load again, which changes neither the corpus nor what it owes. *)
Lemma quiet_run w ls w' :
  halted w = false → cacheReady (self w) = true → pending w = [] →
  run w ls = Some w' →
  ls = repeat Call_loadFiles (length ls)
  ∧ heap w' = heap w ∧ self w' = self w ∧ pending w' = [] ∧ halted w' = false
  ∧ fatal_in (log w') = fatal_in (log w)
  ∧ started (log w') = started (log w).
Proof.
  revert w. induction ls as [ | l ls IH ]; intros w Hh Hcr Hp Hrun; cbn [run] in Hrun.
  - injection Hrun as <-. repeat split; auto.
  - destruct (step w l) as [ w1 | ] eqn:Hstep; [ | discriminate ].
    cbn [mbind option_bind] in Hrun.
    unfold step in Hstep. rewrite Hh, Hp in Hstep.
    destruct l as [ | id | r | file | file r ]; try discriminate.
    injection Hstep as <-. unfold loadFiles in Hrun. rewrite Hcr in Hrun.
    destruct (IH (put (Emit (Ready (cache (self w)) (the_cache w))) w) Hh Hcr Hp Hrun)
      as (Hls & H1 & H2 & H3 & H4 & H5 & H6).
    cbn [put heap self log] in *. cbn [length repeat].
    rewrite <- Hls, H5, H6, fatal_in_app, started_put by exact I.
    cbn [is_fatal]. rewrite orb_false_r. repeat split; auto.
Qed.

(** *** A directory without files *)

Lemma on_listing_log r w :
  halted w = false →
  ∃ more, log (on_listing r w) = log w ++ more
          ∧ (lists_files (Listing_done r) = false → existsb is_fatal more = true).
Proof.
  intros Hh. destruct r as [ [ | f fs ] | ].
  - destruct w as [hp s pend tm lg hl ex]. cbn in Hh. subst.
    destruct ex; cbn; eexists; (split; [ reflexivity | reflexivity ]).
  - rewrite on_listing_files by exact Hh. exists []. cbn [log].
    rewrite app_nil_r. split; [ reflexivity | discriminate ].
  - destruct w as [hp s pend tm lg hl ex]. cbn in Hh. subst.
    destruct ex; cbn; rewrite <- ?app_assoc; eexists; (split; [ reflexivity | reflexivity ]).
Qed.

Lemma barren_step w l w' :
  inflight (pending w) = 0 → cacheReady (self w) = false →
  lists_files l = false → step w l = Some w' →
  inflight (pending w') = 0 ∧ cacheReady (self w') = false
  ∧ started (log w') = started (log w) ∧ the_cache w' = the_cache w
  ∧ (fatal_in (log w) = true → fatal_in (log w') = true)
  ∧ (∀ r, l = Listing_done r → fatal_in (log w') = true).
Proof.
  intros Hfl Hcr Hl Hstep.
  unfold step in Hstep. destruct (halted w) eqn:Hh; [ discriminate | ].
  destruct l as [ | id | r | file | file r ]; cbn [mbind option_bind] in Hstep.
  - injection Hstep as <-. rewrite loadFiles_launch by assumption.
    unfold the_cache, inflight in *. cbn [pending self log heap set_safety cacheReady cache].
    rewrite !filter_app_count, started_put by exact I. cbn [is_file_task].
    rewrite fatal_in_app. cbn [is_fatal]. rewrite orb_false_r.
    repeat split; auto; try lia; intros r Hr; discriminate.
  - destruct (take _ _) as [ p | ] eqn:Htake; [ | discriminate ]. injection Hstep as <-.
    pose proof (take_count is_file_task _ _ _ Htake) as Hfile. cbn [is_file_task] in Hfile.
    rewrite on_watchdog_eq by exact Hh.
    unfold the_cache, inflight in *.
    cbn [with_pending pending self log heap cacheReady cache].
    rewrite started_put by exact I. rewrite fatal_in_app. cbn [is_fatal].
    rewrite orb_true_r. repeat split; auto; try lia; intros r Hr; discriminate.
  - destruct (take _ _) as [ p | ] eqn:Htake; [ | discriminate ]. injection Hstep as <-.
    pose proof (take_count is_file_task _ _ _ Htake) as Hfile. cbn [is_file_task] in Hfile.
    destruct (same_books_on_listing r (with_pending (fun _ => p) w))
      as (Hheap & Hcache & Hready & _).
    destruct (on_listing_log r (with_pending (fun _ => p) w) Hh) as (more & Hlog & Hmore).
    cbn [with_pending heap self log] in Hheap, Hcache, Hready, Hlog.
    assert (fatal_in (log (on_listing r (with_pending (fun _ => p) w))) = true) as Hfatal.
    { rewrite Hlog. unfold fatal_in. rewrite existsb_app, (Hmore Hl). apply orb_true_r. }
    assert (pending (on_listing r (with_pending (fun _ => p) w)) = p
            ∧ started (log (on_listing r (with_pending (fun _ => p) w))) = started (log w))
      as (Hpend & Hstarted).
    { destruct r as [ [ | f fs ] | ]; [ destruct (fatal_exits w) eqn:Hex | discriminate | ].
      - destruct (on_listing_halts (Some []) (with_pending (fun _ => p) w) Hh)
          as (_ & _ & Hp & Hs & _); [ right; auto | ].
        split; assumption.
      - rewrite on_listing_empty by assumption. cbn [with_pending pending log].
        rewrite started_put by exact I. split; reflexivity.
      - destruct (on_listing_halts None (with_pending (fun _ => p) w) Hh)
          as (_ & _ & Hp & Hs & _); [ left; reflexivity | ].
        split; assumption. }
    unfold the_cache, inflight in *. rewrite Hpend, Hstarted, Hheap, Hcache, Hready.
    repeat split; auto. lia.
  - destruct (take _ _) as [ p | ] eqn:Htake; [ | discriminate ].
    pose proof (take_count is_file_task _ _ _ Htake) as Hfile. cbn [is_file_task] in Hfile.
    unfold inflight in *. lia.
  - destruct (take _ _) as [ p | ] eqn:Htake; [ | discriminate ].
    pose proof (take_count is_file_task _ _ _ Htake) as Hfile. cbn [is_file_task] in Hfile.
    unfold inflight in *. lia.
Qed.

Lemma barren_run w ls w' :
  inflight (pending w) = 0 → cacheReady (self w) = false →
  Forall (fun l => lists_files l = false) ls → run w ls = Some w' →
  cacheReady (self w') = false
  ∧ started (log w') = started (log w) ∧ the_cache w' = the_cache w
  ∧ (fatal_in (log w) = true → fatal_in (log w') = true)
  ∧ (∀ r, Listing_done r ∈ ls → fatal_in (log w') = true).
Proof.
  revert w. induction ls as [ | l ls IH ]; intros w Hfl Hcr Hls Hrun; cbn [run] in Hrun.
  - injection Hrun as <-. repeat split; auto. intros r Hin. inversion Hin.
  - destruct (step w l) as [ w1 | ] eqn:Hstep; [ | discriminate ].
    cbn [mbind option_bind] in Hrun.
    apply Forall_cons in Hls as [Hl Hls].
    destruct (barren_step w l w1 Hfl Hcr Hl Hstep) as (B1 & B2 & B3 & B4 & B5 & B6).
    destruct (IH w1 B1 B2 Hls Hrun) as (I1 & I2 & I3 & I4 & I5).
    repeat split; try congruence; auto.
    intros r Hin. apply elem_of_cons in Hin as [ <- | Hin ].
    + apply I4. apply (B6 r). reflexivity.
    + exact (I5 r Hin).
Qed.

(** *** The laws *)

(** X12. In every run, the array of the loader holds the documents of
    the reads that parsed, in the order those reads ended, and nothing
    else; the counter of processed files is the number of reads that
    ended, parsed or not; and the ['error'] events emitted are those of
    the reads that failed, one each, in the order they ended. *)
Theorem corpus_is_the_parsed_documents (d : string) (h : list (list value)) (ex : bool)
  (ls : list label) (w : world) :
  run (constructor d h ex) ls = Some w →
  the_cache w = parsed ls
  ∧ filesProcessedCount (self w) = reads ls
  ∧ List.filter is_error (log w) = failures ls.
Proof.
  intros Hrun. destruct (reachable_ledger d h ex ls w Hrun) as [_ G2 G3 G4 _ _].
  repeat split; assumption.
Qed.

Lemma corpus_is_the_parsed_documents_witness :
  the_cache two_files_read = [ JNull ]
  ∧ filesProcessedCount (self two_files_read) = 2
  ∧ List.filter is_error (log two_files_read) = [ Emit (Error_parsing "b.json") ].
Proof.
  apply (corpus_is_the_parsed_documents "data" [] true
           [ Call_loadFiles; Listing_done (Some ["a.json"; "b.json"]);
             Start_file "a.json"; Start_file "b.json";
             Read_done "b.json" Not_json; Read_done "a.json" (Parsed JNull) ]).
  vm_compute. reflexivity.
Defined.

(** X13. With [loadFiles] called once (one timer was ever set), a
    ['ready'] event is emitted only when as many reads have ended as the
    listing had files, at least one, and it carries exactly the documents
    of the reads that parsed, in the order those reads ended. *)
Theorem ready_carries_every_parsed_document (d : string) (h : list (list value))
  (ex : bool) (ls : list label) (w : world) (corpus : loc) (held : list value) :
  run (constructor d h ex) ls = Some w → timers w ≤ 1 →
  Emit (Ready corpus held) ∈ log w →
  held = parsed ls ∧ reads ls = listed ls ∧ 1 ≤ listed ls.
Proof.
  intros Hrun Ht Hin.
  destruct (reachable_single d h ex ls w Hrun Ht) as [Hc Hs].
  pose proof (reachable_ledger d h ex ls w Hrun) as Hled.
  pose proof (reachable_inv d h ex ls w Hrun) as Hinv.
  assert (cacheReady (self w) = true) as Hcr.
  { rewrite <- (inv_ready _ _ _ Hinv).
    destruct (ready_in (log w)) eqn:Hno; [ reflexivity | ].
    exfalso. exact (no_ready _ _ _ Hno Hin). }
  pose proof (s_alive _ _ Hs Hcr) as Hh.
  pose proof (s_done _ _ Hs Hcr) as Hdone.
  pose proof (g_some _ _ Hled Hcr) as Hsome.
  rewrite (g_total _ _ Hled Hh), (g_reads _ _ Hled) in Hdone.
  rewrite (g_reads _ _ Hled) in Hsome.
  split; [ | split; [ exact Hdone | lia ] ].
  rewrite (k_held _ Hc corpus held Hin). exact (g_docs _ _ Hled).
Qed.

Lemma ready_carries_every_parsed_document_witness :
  [ JNull ] = parsed [ Call_loadFiles; Listing_done (Some ["a.json"; "b.json"]);
                       Start_file "a.json"; Start_file "b.json";
                       Read_done "b.json" Not_json; Read_done "a.json" (Parsed JNull) ]
  ∧ reads [ Call_loadFiles; Listing_done (Some ["a.json"; "b.json"]);
            Start_file "a.json"; Start_file "b.json";
            Read_done "b.json" Not_json; Read_done "a.json" (Parsed JNull) ]
    = listed [ Call_loadFiles; Listing_done (Some ["a.json"; "b.json"]);
               Start_file "a.json"; Start_file "b.json";
               Read_done "b.json" Not_json; Read_done "a.json" (Parsed JNull) ]
  ∧ 1 ≤ listed [ Call_loadFiles; Listing_done (Some ["a.json"; "b.json"]);
                 Start_file "a.json"; Start_file "b.json";
                 Read_done "b.json" Not_json; Read_done "a.json" (Parsed JNull) ].
Proof.
  apply (ready_carries_every_parsed_document "data" [] true _ two_files_read 0 [ JNull ]).
  - vm_compute. reflexivity.
  - vm_compute. lia.
  - vm_compute. repeat constructor.
Defined.

(** X14. With [loadFiles] called once, nothing is owed once ['ready']
    has been emitted: the process runs, the deadline timer is cleared and
    no callback of a file is left.  All that can follow is a call of
    [loadFiles], so that in every continuation of the run the corpus stays
    as it is, no file is read and no ['fatal'] is emitted. *)
Theorem nothing_owed_after_ready (d : string) (h : list (list value)) (ex : bool)
  (ls : list label) (w : world) :
  run (constructor d h ex) ls = Some w → timers w ≤ 1 →
  ready_in (log w) = true →
  halted w = false ∧ pending w = []
  ∧ ∀ ls' w', run w ls' = Some w' →
      ls' = repeat Call_loadFiles (length ls')
      ∧ the_cache w' = the_cache w
      ∧ pending w' = []
      ∧ started (log w') = started (log w)
      ∧ fatal_in (log w') = fatal_in (log w).
Proof.
  intros Hrun Ht Hready.
  destruct (reachable_single d h ex ls w Hrun Ht) as [_ Hs].
  pose proof (reachable_inv d h ex ls w Hrun) as Hinv.
  assert (cacheReady (self w) = true) as Hcr
    by (rewrite <- (inv_ready _ _ _ Hinv); exact Hready).
  pose proof (s_alive _ _ Hs Hcr) as Hh.
  pose proof (s_quiet _ _ Hs Hcr) as Hp.
  split; [ exact Hh | split; [ exact Hp | ] ].
  intros ls' w' Hrun'.
  destruct (quiet_run w ls' w' Hh Hcr Hp Hrun') as (Hls & H1 & H2 & H3 & H4 & H5 & H6).
  unfold the_cache. rewrite H1, H2. repeat split; assumption.
Qed.

Lemma nothing_owed_after_ready_witness :
  halted two_files_read = false ∧ pending two_files_read = []
  ∧ ∀ ls' w', run two_files_read ls' = Some w' →
      ls' = repeat Call_loadFiles (length ls')
      ∧ the_cache w' = the_cache two_files_read
      ∧ pending w' = []
      ∧ started (log w') = started (log two_files_read)
      ∧ fatal_in (log w') = fatal_in (log two_files_read).
Proof.
  apply (nothing_owed_after_ready "data" [] true
           [ Call_loadFiles; Listing_done (Some ["a.json"; "b.json"]);
             Start_file "a.json"; Start_file "b.json";
             Read_done "b.json" Not_json; Read_done "a.json" (Parsed JNull) ]).
  - vm_compute. reflexivity.
  - vm_compute. lia.
  - reflexivity.
Defined.

(** X15. With [loadFiles] called once and the process running, ['ready']
    has been emitted as soon as as many reads have ended as the listing
    had files, one at least, whether the reads failed or parsed: a file
    that cannot be read or parsed does not hold ['ready'] back. *)
Theorem every_read_ended_gives_ready (d : string) (h : list (list value)) (ex : bool)
  (ls : list label) (w : world) :
  run (constructor d h ex) ls = Some w → timers w ≤ 1 → halted w = false →
  1 ≤ listed ls → reads ls = listed ls →
  ready_in (log w) = true.
Proof.
  intros Hrun Ht Hh Hsome Hall.
  destruct (reachable_single d h ex ls w Hrun Ht) as [Hc Hs].
  pose proof (reachable_ledger d h ex ls w Hrun) as Hled.
  pose proof (reachable_inv d h ex ls w Hrun) as Hinv.
  rewrite (inv_ready _ _ _ Hinv).
  destruct (cacheReady (self w)) eqn:Hcr; [ reflexivity | exfalso ].
  pose proof (g_reads _ _ Hled) as Hreads.
  pose proof (g_total _ _ Hled Hh) as Htotal.
  destruct (k_phase _ Hc Hh Hcr) as [ (_ & _ & H0) | [ (_ & _ & _ & H0) | (Htm & Hl & _) ] ];
    try lia.
  destruct (s_short _ _ Hs Hh Hcr Htm Hl); lia.
Qed.

Lemma every_read_ended_gives_ready_witness : ready_in (log two_files_read) = true.
Proof.
  apply (every_read_ended_gives_ready "data" [] true
           [ Call_loadFiles; Listing_done (Some ["a.json"; "b.json"]);
             Start_file "a.json"; Start_file "b.json";
             Read_done "b.json" Not_json; Read_done "a.json" (Parsed JNull) ]).
  - vm_compute. reflexivity.
  - vm_compute. lia.
  - reflexivity.
  - vm_compute. lia.
  - reflexivity.
Defined.

(** X16. With [loadFiles] called once, every file of the listing has
    been handed to [fs.readFile] exactly once when ['ready'] is emitted:
    the files read are the files listed, up to their order. *)
Theorem each_listed_file_is_read_once (d : string) (h : list (list value)) (ex : bool)
  (ls : list label) (w : world) :
  run (constructor d h ex) ls = Some w → timers w ≤ 1 →
  ready_in (log w) = true →
  started (log w) ≡ₚ listed_files ls.
Proof.
  intros Hrun Ht Hready.
  destruct (reachable_single d h ex ls w Hrun Ht) as [_ Hs].
  pose proof (reachable_inv d h ex ls w Hrun) as Hinv.
  assert (cacheReady (self w) = true) as Hcr
    by (rewrite <- (inv_ready _ _ _ Hinv); exact Hready).
  pose proof (s_files _ _ Hs) as Hfiles.
  rewrite (s_quiet _ _ Hs Hcr) in Hfiles. cbn [waiting flat_map] in Hfiles.
  rewrite app_nil_r in Hfiles. exact Hfiles.
Qed.

Lemma each_listed_file_is_read_once_witness :
  started (log two_files_read) ≡ₚ [ "a.json"; "b.json" ].
Proof.
  apply (each_listed_file_is_read_once "data" [] true
           [ Call_loadFiles; Listing_done (Some ["a.json"; "b.json"]);
             Start_file "a.json"; Start_file "b.json";
             Read_done "b.json" Not_json; Read_done "a.json" (Parsed JNull) ]).
  - vm_compute. reflexivity.
  - vm_compute. lia.
  - reflexivity.
Defined.

(** X17. A listing that fails ends the process, whatever the listener
    of ['fatal'] does: either that listener exits on the first ['fatal'],
    or the callback emits a second ['fatal'] and then throws on
    [files.length], [files] being [undefined].  The loader's fields and
    the corpus are as they were, and no callback runs any more. *)
Theorem failed_listing_ends_the_process (w w' : world) :
  step w (Listing_done None) = Some w' →
  halted w' = true
  ∧ log w' = log w ++ (if fatal_exits w
                       then [ Emit Fatal_unable_to_load ]
                       else [ Emit Fatal_unable_to_load; Emit Fatal_no_files;
                              Uncaught_TypeError ])
  ∧ self w' = self w ∧ heap w' = heap w
  ∧ ∀ ls, ls ≠ [] → run w' ls = None.
Proof.
  intros Hstep. unfold step in Hstep. destruct (halted w) eqn:Hh; [ discriminate | ].
  destruct (take Listing (pending w)) as [ p | ]; [ | discriminate ].
  cbn [mbind option_bind] in Hstep. injection Hstep as <-.
  assert (halted (on_listing None (with_pending (fun _ => p) w)) = true) as Hhalt.
  { destruct w as [hp s pend tm lg hl e]. cbn in Hh. subst. destruct e; reflexivity. }
  split; [ exact Hhalt | ].
  split; [ | split; [ | split ] ].
  - destruct w as [hp s pend tm lg hl e]. cbn in Hh. subst.
    destruct e; cbn; rewrite <- ?app_assoc; reflexivity.
  - destruct w as [hp s pend tm lg hl e]. cbn in Hh. subst. destruct e; reflexivity.
  - destruct w as [hp s pend tm lg hl e]. cbn in Hh. subst. destruct e; reflexivity.
  - intros [ | l ls ] Hne; [ congruence | ].
    cbn [run]. rewrite halted_stuck by exact Hhalt. reflexivity.
Qed.

Lemma failed_listing_ends_the_process_witness :
  ∃ w', step (listing_owed false) (Listing_done None) = Some w'
        ∧ halted w' = true
        ∧ log w' = log (listing_owed false)
                   ++ [ Emit Fatal_unable_to_load; Emit Fatal_no_files; Uncaught_TypeError ]
        ∧ self w' = self (listing_owed false) ∧ heap w' = heap (listing_owed false)
        ∧ ∀ ls, ls ≠ [] → run w' ls = None.
Proof.
  eexists. split; [ vm_compute; reflexivity | ].
  apply (failed_listing_ends_the_process (listing_owed false)).
  vm_compute. reflexivity.
Defined.

(** X18. As long as no listing comes back with a file, the loader never
    emits ['ready'], reads no file and stores no document, and every
    listing that came back, empty or with an error, has been answered
    with a ['fatal']. *)
Theorem no_file_is_fatal_never_ready (d : string) (h : list (list value)) (ex : bool)
  (ls : list label) (w : world) :
  run (constructor d h ex) ls = Some w →
  Forall (fun l => lists_files l = false) ls →
  ready_in (log w) = false
  ∧ started (log w) = [] ∧ the_cache w = []
  ∧ (∀ r, Listing_done r ∈ ls → fatal_in (log w) = true).
Proof.
  intros Hrun Hls.
  pose proof (reachable_inv d h ex ls w Hrun) as Hinv.
  pose proof (constructor_ledger d h ex) as Hled.
  destruct (barren_run (constructor d h ex) ls w eq_refl eq_refl Hls Hrun)
    as (B1 & B2 & B3 & _ & B5).
  rewrite (inv_ready _ _ _ Hinv), B2, B3, (g_docs _ _ Hled).
  repeat split; auto.
Qed.

Lemma no_file_is_fatal_never_ready_witness :
  ready_in (log no_file_found) = false
  ∧ started (log no_file_found) = [] ∧ the_cache no_file_found = []
  ∧ (∀ r, Listing_done r ∈ [ Call_loadFiles; Listing_done (Some []); Fire_watchdog 0 ] →
          fatal_in (log no_file_found) = true).
Proof.
  apply (no_file_is_fatal_never_ready "data" [] false).
  - vm_compute. reflexivity.
  - repeat constructor.
Defined.

End LoaderLaws.

(* ===================================================================== *)
(** ** The tags of a line *)
(* ===================================================================== *)

Module ApplicationLaws.
Import JS TagsFinder JSFacts Traversal Engine TagsFinderSpec EngineLaws Application.

(** *** [trim] *)

Lemma trim_end_idem s : trim_end (trim_end s) = trim_end s.
Proof.
  induction s as [ | c s IH ]; [ reflexivity | ].
  cbn [trim_end]. destruct (trim_end s) as [ | d r ] eqn:Hs.
  - destruct (is_space c) eqn:Hc; [ reflexivity | ].
    cbn [trim_end]. rewrite Hc. reflexivity.
  - change (trim_end (String c (String d r)))
      with (match trim_end (String d r) with
            | EmptyString => if is_space c then EmptyString else String c EmptyString
            | String d' r' => String c (String d' r')
            end).
    rewrite IH. reflexivity.
Qed.

Lemma trim_end_head c r :
  is_space c = false → ∃ r', trim_end (String c r) = String c r'.
Proof.
  intros Hc. cbn [trim_end]. destruct (trim_end r); rewrite ?Hc; eexists; reflexivity.
Qed.

Lemma trim_start_head s :
  trim_start s = "" ∨ ∃ c r, trim_start s = String c r ∧ is_space c = false.
Proof.
  induction s as [ | c s IH ]; [ left; reflexivity | ].
  cbn [trim_start]. destruct (is_space c) eqn:Hc; [ exact IH | ].
  right. exists c, s. auto.
Qed.

(** Trimming twice is trimming once. *)
Lemma trim_idem s : trim (trim s) = trim s.
Proof.
  unfold trim. destruct (trim_start_head s) as [ -> | (c & r & -> & Hc) ]; [ reflexivity | ].
  destruct (trim_end_head c r Hc) as [r' Hr]. rewrite Hr.
  cbn [trim_start]. rewrite Hc, <- Hr. apply trim_end_idem.
Qed.

(** *** [Set] *)

Lemma Set_fold items seen :
  NoDup seen →
  NoDup (fold_left Set_add items seen)
  ∧ ∀ x, x ∈ fold_left Set_add items seen ↔ x ∈ seen ∨ x ∈ items.
Proof.
  revert seen. induction items as [ | item items IH ]; intros seen Hnd; cbn [fold_left].
  - split; [ exact Hnd | ]. intros x. rewrite elem_of_nil. tauto.
  - unfold Set_add at 2 4. destruct (bool_decide (item ∈ seen)) eqn:Hin.
    + apply bool_decide_eq_true in Hin. destruct (IH seen Hnd) as [H1 H2].
      split; [ exact H1 | ]. intros x. rewrite H2, elem_of_cons.
      split; [ tauto | ]. intros [ ? | [ -> | ? ] ]; auto.
    + apply bool_decide_eq_false in Hin.
      assert (NoDup (seen ++ [ item ])) as Hnd'.
      { apply NoDup_app. split; [ exact Hnd | split; [ | apply NoDup_singleton ] ].
        intros x Hx Hx'. apply list_elem_of_singleton in Hx'. subst x. contradiction. }
      destruct (IH _ Hnd') as [H1 H2].
      split; [ exact H1 | ]. intros x.
      rewrite H2, elem_of_app, list_elem_of_singleton, elem_of_cons. tauto.
Qed.

Lemma Array_from_Set_NoDup items : NoDup (Array_from_Set items).
Proof. apply Set_fold, NoDup_nil_2. Qed.

Lemma Array_from_Set_elem items x : x ∈ Array_from_Set items ↔ x ∈ items.
Proof.
  unfold Array_from_Set.
  destruct (Set_fold items [] (NoDup_nil_2)) as [_ H]. rewrite H, elem_of_nil. tauto.
Qed.

(** *** [sanitizeTags] *)

Lemma sanitize_fold items acc :
  fold_left (fun acc item =>
               let trimmed := trim item in
               if negb (String.eqb trimmed "") then acc ++ [ trimmed ] else acc)
    items acc
  = acc ++ List.filter (fun t => negb (String.eqb t "")) (map trim items).
Proof.
  revert acc. induction items as [ | item items IH ]; intros acc;
    cbn [fold_left map List.filter].
  - rewrite app_nil_r. reflexivity.
  - cbv zeta. rewrite IH. destruct (negb (String.eqb (trim item) "")); [ | reflexivity ].
    rewrite <- app_assoc. reflexivity.
Qed.

Lemma sanitizeTags_kept items : sanitizeTags (Some items) = kept items.
Proof. unfold sanitizeTags, kept. rewrite sanitize_fold. reflexivity. Qed.

Lemma kept_elem items t :
  t ∈ kept items ↔ t ≠ "" ∧ ∃ item, item ∈ items ∧ trim item = t.
Proof.
  unfold kept. rewrite list_elem_of_In, List.filter_In, in_map_iff.
  rewrite negb_true_iff, String.eqb_neq.
  split.
  - intros [(item & Ht & Hin) Hne]. split; [ exact Hne | ].
    exists item. split; [ | exact Ht ].
    apply Array_from_Set_elem, list_elem_of_In. exact Hin.
  - intros [Hne (item & Hin & Ht)]. split; [ | exact Hne ].
    exists item. split; [ exact Ht | ].
    apply list_elem_of_In, Array_from_Set_elem. exact Hin.
Qed.


Lemma kept_NoDup_inj l :
  NoDup l →
  NoDup (List.filter (fun t => negb (String.eqb t "")) (map trim l)) ↔
  (∀ x y, x ∈ l → y ∈ l → trim x = trim y → trim x ≠ "" → x = y).
Proof.
  intros Hnd. induction Hnd as [ | a l Hnotin Hnd IH ].
  - split; [ intros _ x y Hx; inversion Hx | intros _; apply NoDup_nil_2 ].
  - assert (∀ y, y ∈ l → trim y ≠ "" →
              trim y ∈ List.filter (fun t => negb (String.eqb t "")) (map trim l)) as Hthere.
    { intros y Hy Hne. apply list_elem_of_In, List.filter_In. split.
      - apply in_map, list_elem_of_In. exact Hy.
      - apply negb_true_iff, String.eqb_neq. exact Hne. }
    cbn [map List.filter].
    destruct (negb (String.eqb (trim a) "")) eqn:Hblank.
    + apply negb_true_iff, String.eqb_neq in Hblank.
      rewrite NoDup_cons, IH. split.
      * intros [Hfresh Hinj] x y Hx Hy Heq Hne.
        apply elem_of_cons in Hx as [ -> | Hx ]; apply elem_of_cons in Hy as [ -> | Hy ].
        -- reflexivity.
        -- exfalso. apply Hfresh. rewrite Heq. apply Hthere; [ exact Hy | congruence ].
        -- exfalso. apply Hfresh. rewrite <- Heq. apply Hthere; assumption.
        -- apply Hinj; assumption.
      * intros Hinj. split.
        -- intros Hin. apply list_elem_of_In, List.filter_In in Hin as [Hin _].
           apply in_map_iff in Hin as (y & Heq & Hy). apply list_elem_of_In in Hy.
           assert (y = a) as -> by (apply Hinj; [ right | left | | congruence ]; auto).
           contradiction.
        -- intros x y Hx Hy. apply Hinj; right; assumption.
    + apply negb_false_iff, String.eqb_eq in Hblank.
      rewrite IH. split.
      * intros Hinj x y Hx Hy Heq Hne.
        apply elem_of_cons in Hx as [ -> | Hx ]; [ congruence | ].
        apply elem_of_cons in Hy as [ -> | Hy ]; [ congruence | ].
        apply Hinj; assumption.
      * intros Hinj x y Hx Hy. apply Hinj; right; assumption.
Qed.

(** X19. [sanitizeTags] returns no tag for an empty line.  For an
    array it returns the trimmed items that are not blank and nothing
    else, and what it returns is trimmed: trimming it again changes
    nothing. *)
Theorem sanitizeTags_keeps_the_trimmed (items : list string) (t : string) :
  sanitizeTags None = []
  ∧ (t ∈ sanitizeTags (Some items) ↔ t ≠ "" ∧ ∃ item, item ∈ items ∧ trim item = t)
  ∧ (t ∈ sanitizeTags (Some items) → trim t = t).
Proof.
  rewrite sanitizeTags_kept, kept_elem.
  split; [ reflexivity | split; [ reflexivity | ] ].
  intros [_ (item & _ & <-)]. apply trim_idem.
Qed.

(** X20. [sanitizeTags] removes the duplicates before it trims.  What
    it returns is free of duplicates exactly when no two different items
    trim to the same tag: two spellings of a tag that differ in the white
    space around it both stay. *)
Theorem sanitizeTags_duplicates (items : list string) :
  NoDup (sanitizeTags (Some items)) ↔
  (∀ x y, x ∈ items → y ∈ items → trim x = trim y → trim x ≠ "" → x = y).
Proof.
  rewrite sanitizeTags_kept. unfold kept.
  rewrite (kept_NoDup_inj _ (Array_from_Set_NoDup items)).
  split; intros H x y Hx Hy; apply H; apply Array_from_Set_elem; assumption.
Qed.

(** X21. [processInputTags] answers from the line when the line holds
    a tag, whatever the default tags are.  For a line without a tag it
    answers with the default tags once they have been read, and reads the
    file otherwise.  A file that could be read is never reported as
    empty, the test [length < 0] being false of every array: its tags
    are stored, the empty list as well, and from then on a line without
    a tag is answered with them and the file is not read again. *)
Theorem default_tags_are_read_once (inputTags : option (list string))
  (defaultTags : option (list string)) (r : option string) (data : string) :
  (sanitizeTags inputTags ≠ [] →
     processInputTags inputTags defaultTags = Answered (Cb_tags (sanitizeTags inputTags)))
  ∧ (sanitizeTags inputTags = [] →
     processInputTags inputTags defaultTags =
     match defaultTags with
     | Some tags => Answered (Cb_tags tags)
     | None => Reads_default_tags
     end)
  ∧ (default_tags_read r defaultTags).1 ≠ Cb_error Empty_default_tags_file
  ∧ (let tags := sanitizeTags (Some (split newline data)) in
     default_tags_read (Some data) defaultTags = (Cb_tags tags, Some tags)
     ∧ (sanitizeTags inputTags = [] →
        processInputTags inputTags (default_tags_read (Some data) defaultTags).2
        = Answered (Cb_tags tags))).
Proof.
  assert (∀ l : list string, Nat.ltb (length l) 0 = false) as Hnever
    by (intros l; apply Nat.ltb_ge; lia).
  unfold processInputTags, default_tags_read. cbv zeta. rewrite !Hnever.
  split; [ | split; [ | split; [ | split ] ] ].
  - intros Hne. destruct (sanitizeTags inputTags); [ congruence | reflexivity ].
  - intros ->. reflexivity.
  - destruct r; cbn [fst]; rewrite ?Hnever; discriminate.
  - reflexivity.
  - intros ->. reflexivity.
Qed.

Section LineLaws.
Context {runtime : ArraySort}.

(** X23. An exception of [process] does not leave the ['ready']
    listener: it is written with [console.error], the prompt follows, and
    the engine, the default tags and the reads that are owed are as they
    were.  So a line typed before the documents are loaded, or on
    documents [process] cannot walk, is answered and the next line is
    taken. *)
Theorem thrown_query_is_reported (tags : list string) (a : app) (e : error) :
  ret (process tags (tagsFinder a)) = Throw e →
  cli_ready tags a = prompt None (write [ Error_thrown e ] a).
Proof.
  intros Hret. unfold cli_ready.
  rewrite (process_throw_after tags (tagsFinder a) e Hret), Hret.
  destruct a. reflexivity.
Qed.


End LineLaws.

(** The line ["red, red"] on a corpus with one string that holds
    ["red"]: the two items differ by a blank, both stay, and the count
    printed is 2. *)
Lemma respelled_line :
  split comma "red, red" = [ "red"; " red" ]
  ∧ sanitizeTags (Some (split comma "red, red")) = [ "red"; "red" ].
Proof. split; vm_compute; reflexivity. Qed.

(** A line typed before any document is loaded. *)
Lemma thrown_query_is_reported_witness :
  cli_ready (runtime := insertion) [ "red" ]
    {| tagsFinder := constructor; defaultTags := None; reading := 0; console := [] |}
  = prompt None
      (write [ Error_thrown Process_without_data ]
         {| tagsFinder := constructor; defaultTags := None; reading := 0; console := [] |}).
Proof.
  apply (thrown_query_is_reported (runtime := insertion)). reflexivity.
Defined.


End ApplicationLaws.
